(** * Manasat voice assistant: session controller, tool dispatcher and log sink

    A shallow embedding of the stateful core of the React component [App]
    (src/types.ts) and of the conversation log sink of services/mockApi
    (src/unnamed/part_002), followed by the properties of the specification
    that were checked against it.  A second part embeds the property
    lookup and the report of services/mockApi, the export of the dashboard,
    the error log of the error boundary, the slide cycle of the gallery
    (src/unnamed/part_001) and the callbacks of the page, with further
    properties of the whole.

    Conventions of the embedding.
    - Refs ([useRef]) and React state ([useState]) are fields of one store,
      [AppState]; a setter call updates the store at once.  A value that a
      callback reads through its closure ([activeProperty],
      [propertyHistory]) is a field of [Closure]: it is the value of the
      render in which the callback was created, not the current store.
    - An [async] function is cut at each [await]: the part before the
      [await] is one function, the continuation another, and whatever the
      environment does in between is an explicit argument or event.
    - Clock readings, locale formatting and random numbers are inputs
      ([Ambient]).
    - JavaScript strings are byte strings; [toLowerCase] folds the ASCII
      letters, which is all the classified keywords contain. *)

From Stdlib Require Import ZArith Ascii String DecimalString Lia.
From stdpp Require Import base gmap sets list strings.

Open Scope string_scope.
Open Scope list_scope.

(** ** JavaScript helpers *)

Module Js.

(** [s.toLowerCase()] on the ASCII range. *)
Definition lower_ascii (c : ascii) : ascii :=
  let n := nat_of_ascii c in
  if (65 <=? n)%nat && (n <=? 90)%nat then ascii_of_nat (n + 32) else c.

Fixpoint toLowerCase (s : string) : string :=
  match s with
  | EmptyString => EmptyString
  | String c s' => String (lower_ascii c) (toLowerCase s')
  end.

(** [s.includes(needle)]. *)
Fixpoint includes (s needle : string) : bool :=
  String.prefix needle s ||
  match s with
  | EmptyString => false
  | String _ s' => includes s' needle
  end.

(** Truthiness of a string: only the empty string is falsy. *)
Definition truthy (s : string) : bool :=
  match s with
  | EmptyString => false
  | String _ _ => true
  end.

(** [a || b] on strings. *)
Definition or_else (a b : string) : string := if truthy a then a else b.

(** [/a1|a2|.../i.test(s)] for a regular expression that is an
    alternation of literals. *)
Definition test_alternatives (alts : list string) (s : string) : bool :=
  existsb (fun a => includes (toLowerCase s) (toLowerCase a)) alts.

(** [l.slice(start)], negative [start] counting from the end. *)
Definition slice_from {A} (start : Z) (l : list A) : list A :=
  let len := Z.of_nat (length l) in
  let k := if (start <? 0)%Z then Z.max (len + start) 0 else Z.min start len in
  drop (Z.to_nat k) l.

(** Interpolation of an integer in a template literal. *)
Definition show_int (z : Z) : string := NilZero.string_of_int (Z.to_int z).

(** [parts.join(sep)]. *)
Fixpoint join (sep : string) (parts : list string) : string :=
  match parts with
  | [] => ""
  | [p] => p
  | p :: rest => p +:+ sep +:+ join sep rest
  end.

End Js.

(** ** Data model (src/types.ts, services/mockApi) *)

Record Property := {
  prop_id : string;
  title : string;
  price : string;
  location : string;
  description : string;
  images : list string;
  prop_type : string
}.

Inductive ConversationIntent :=
  greeting | search | price_inquiry | booking | info | complaint | other.

Inductive ConversationStatus :=
  status_complete | status_interrupted | status_error | status_session_end.

Record ConversationLog := {
  log_id : string;
  sessionId : string;
  timestamp : string;
  userMessage : string;
  botResponse : string;
  intent : ConversationIntent;
  propertyId : option string;
  propertyType : option string;
  log_location : option string;
  toolsUsed : list string;
  status : ConversationStatus;
  duration : option Z
}.

(** What the browser supplies when asked: [Date.now()],
    [new Date().toLocaleString('ar-SA')] and
    [Math.random().toString(36).substr(2, 9)]. *)
Record Ambient := {
  dateNow : Z;
  localeNow : string;
  randomTag : string
}.

(** ** The conversation log sink (services/mockApi) *)

Module MockApi.

(** The module variable [currentSessionId] and the parsed content of the
    localStorage key [manasat_inquiries]. *)
Record Store := {
  currentSessionId : option string;
  manasat_inquiries : list ConversationLog
}.

Definition empty : Store :=
  {| currentSessionId := None; manasat_inquiries := [] |}.

Definition getSessionId (amb : Ambient) (s : Store) : string * Store :=
  match currentSessionId s with
  | Some sid => (sid, s)
  | None =>
      let sid := "session_" +:+ Js.show_int (dateNow amb) +:+ "_" +:+ randomTag amb in
      (sid, {| currentSessionId := Some sid;
               manasat_inquiries := manasat_inquiries s |})
  end.

Definition resetSessionId (s : Store) : Store :=
  {| currentSessionId := None; manasat_inquiries := manasat_inquiries s |}.

Definition detectIntent (message : string) : ConversationIntent :=
  let msg := Js.toLowerCase message in
  if Js.test_alternatives
       ["سلام"; "مرحبا"; "أهلا"; "اهلا"; "هلا"; "hello"; "hi"; "hey"; "صباح"; "مساء"] msg
  then greeting
  else if Js.test_alternatives
       ["فيلا"; "شقة"; "شقق"; "أرض"; "ارض"; "عقار"; "أبي"; "أبغى"; "ابي"; "ابغى";
        "عندكم"; "ابحث"; "دور"] msg
  then search
  else if Js.test_alternatives
       ["سعر"; "كم"; "ثمن"; "قيمة"; "تكلفة"; "بكم"; "price"; "cost"] msg
  then price_inquiry
  else if Js.test_alternatives
       ["حجز"; "زيارة"; "موعد"; "أحجز"; "احجز"; "أزور"; "ازور"; "book"; "visit"] msg
  then booking
  else if Js.test_alternatives
       ["معلومات"; "وين"; "فين"; "عنوان"; "موقع"; "خدمات"; "about"; "info"; "where"] msg
  then info
  else if Js.test_alternatives
       ["شكوى"; "مشكلة"; "سيء"; "complaint"; "problem"] msg
  then complaint
  else other.

Definition extractPropertyType (message : string) : option string :=
  let msg := Js.toLowerCase message in
  if Js.test_alternatives ["فيلا"] msg then Some "فيلا"
  else if Js.test_alternatives ["شقة"; "شقق"] msg then Some "شقة"
  else if Js.test_alternatives ["أرض"; "ارض"] msg then Some "أرض"
  else None.

Definition locations : list string :=
  ["الرياض"; "جدة"; "الدمام"; "الخبر"; "حطين"; "الملقا"; "النرجس";
   "الياسمين"; "العليا"; "الروضة"; "الشاطئ"; "المحمدية"; "العزيزية"].

Definition extractLocation (message : string) : option string :=
  let msg := Js.toLowerCase message in
  List.find
    (fun loc => Js.includes msg (Js.toLowerCase loc) || Js.includes msg loc)
    locations.

Record InquiryOptions := {
  opt_propertyId : option string;
  opt_toolsUsed : option (list string);
  opt_status : option ConversationStatus;
  opt_startTime : option Z
}.

(** [options?.startTime ? Date.now() - options.startTime : undefined]:
    a start time of 0 is falsy. *)
Definition duration_of (amb : Ambient) (options : option InquiryOptions) : option Z :=
  match options with
  | Some o =>
      match opt_startTime o with
      | Some t => if (t =? 0)%Z then None else Some (dateNow amb - t)%Z
      | None => None
      end
  | None => None
  end.

Definition saveInquiry (amb : Ambient) (userMessage botResponse : string)
    (options : option InquiryOptions) (s : Store) : ConversationLog * Store :=
  let inquiries := manasat_inquiries s in
  let '(sid, s1) := getSessionId amb s in
  let log :=
    {| log_id := Js.show_int (dateNow amb);
       sessionId := sid;
       timestamp := localeNow amb;
       userMessage := userMessage;
       botResponse := botResponse;
       intent := detectIntent userMessage;
       propertyId := options ≫= opt_propertyId;
       propertyType := extractPropertyType userMessage;
       log_location := extractLocation userMessage;
       toolsUsed := default [] (options ≫= opt_toolsUsed);
       status := default status_complete (options ≫= opt_status);
       duration := duration_of amb options |} in
  let inquiries := inquiries ++ [log] in
  (log, {| currentSessionId := currentSessionId s1;
           manasat_inquiries := Js.slice_from (-200) inquiries |}).

End MockApi.

(** ** The backend protocol *)

(** A JSON number, as far as the handlers can tell numbers apart: they
    test a number for truth, subtract 1 from it, compare it with integers,
    use it as an array index, and print it only when it is an integer.
    For a number that is not an integer the outcome of each of these
    depends on the integer below it alone: [Fraction b] is any number
    strictly between [b] and [b + 1]. *)
Inductive JsNumber :=
| Integer (z : Z)
| Fraction (below : Z).

(** [fc.args], when it is an object: the two parameters the tool
    declarations mention, either of which may be missing from it.  The
    index is declared as [Type.NUMBER]. *)
Record Args := {
  query : option string;
  index : option JsNumber
}.

(** [fc]; the call comes from the backend as it is ([fc: any]), and its
    [args] may be missing. *)
Record FunctionCall := {
  fc_id : string;
  fc_name : string;
  fc_args : option Args
}.

(** The parts of a [LiveServerMessage] that [onmessage] reads. *)
Record LiveServerMessage := {
  audioData : option string;           (* serverContent.modelTurn.parts[0].inlineData.data *)
  interrupted : bool;                  (* serverContent.interrupted *)
  inputTranscription : option string;  (* serverContent.inputTranscription.text *)
  outputTranscription : option string; (* serverContent.outputTranscription.text *)
  turnComplete : bool;                 (* serverContent.turnComplete *)
  toolCall : option (list FunctionCall) (* toolCall.functionCalls *)
}.

Record JsError := {
  err_name : string;
  message : string
}.

(** [new Error(msg)]. *)
Definition Error (msg : string) : JsError :=
  {| err_name := "Error"; message := msg |}.

Inductive Outcome (T : Type) :=
| Resolved (v : T)
| Rejected (e : JsError).
Arguments Resolved {T} v.
Arguments Rejected {T} e.

(** ** The store of the [App] component *)

Inductive AudioContextState := running | suspended | closed.

(** Values a callback reads through its closure. *)
Record Closure := {
  cl_activeProperty : option Property;
  cl_propertyHistory : list Property;
  cl_isRecording : bool
}.

(** React state. *)
Record Ui := {
  isRecording : bool;
  activeProperty : option Property;
  propertyHistory : list Property;
  showGallery : bool;
  showLeadForm : bool;
  statusMessage : string;
  transcript : list (string * string);
  notification : option string
}.

(** Audio refs.  Times are counted in sample frames of the 24 kHz output
    context, sources are named by the order of their creation. *)
Record Audio := {
  audioContextRef : option AudioContextState;
  outputAudioContextRef : option AudioContextState;
  nextStartTimeRef : Z;
  sourcesRef : gset nat;
  createdSources : nat;
  streamRef : bool;
  scriptProcessorRef : bool
}.

(** Connection refs.  An [AbortController] is named by the order of its
    creation; [abortedSignals] holds those whose signal has fired. *)
Record Conn := {
  sessionRef : option nat;
  sessionPromiseRef : option nat;
  reconnectAttemptsRef : nat;
  abortControllerRef : option nat;
  abortedSignals : gset nat;
  createdControllers : nat
}.

(** Refs of the turn being accumulated. *)
Record Turn := {
  currentInputTranscription : string;
  currentOutputTranscription : string;
  toolsUsedRef : list string;
  turnStartTimeRef : Z
}.

Record Flags := {
  showGalleryRef : bool;
  isProcessingRef : bool;
  showLeadFormRef : bool
}.

Inductive TimerTask := ReleaseGuard | Reconnect.

(** Calls made on the external collaborators, oldest first. *)
Inductive Effect :=
| SentToolResponse (id name result : string)
| SavedInquiry (log : ConversationLog)
| ClosedSession (session : nat).

(** Work the event loop still holds: timers set with [setTimeout], and the
    asynchronous calls that wait for [decodeAudioData] or
    [searchProperties]. *)
Record Runtime := {
  timers : list (Z * TimerTask);
  pendingDecodes : list (Closure * LiveServerMessage);
  pendingSearches : list (Closure * FunctionCall);
  effects : list Effect
}.

Record AppState := {
  ui : Ui;
  audio : Audio;
  conn : Conn;
  turn : Turn;
  flags : Flags;
  api : MockApi.Store;
  runtime : Runtime
}.

Definition maxReconnectAttempts : nat := 3.

Definition idlePrompt : string := "جاهزة لخدمتك.. اضغط للتحدث".

Definition initialState : AppState :=
  {| ui := {| isRecording := false; activeProperty := None; propertyHistory := [];
              showGallery := false; showLeadForm := false;
              statusMessage := idlePrompt; transcript := []; notification := None |};
     audio := {| audioContextRef := None; outputAudioContextRef := None;
                 nextStartTimeRef := 0; sourcesRef := ∅; createdSources := 0;
                 streamRef := false; scriptProcessorRef := false |};
     conn := {| sessionRef := None; sessionPromiseRef := None;
                reconnectAttemptsRef := 0; abortControllerRef := None;
                abortedSignals := ∅; createdControllers := 0 |};
     turn := {| currentInputTranscription := ""; currentOutputTranscription := "";
                toolsUsedRef := []; turnStartTimeRef := 0 |};
     flags := {| showGalleryRef := false; isProcessingRef := false;
                 showLeadFormRef := false |};
     api := MockApi.empty;
     runtime := {| timers := []; pendingDecodes := []; pendingSearches := [];
                   effects := [] |} |}.

(** The values that the callbacks created in a render of the store [st]
    read through their closure.  [onmessage], [onerror] and [onclose] are
    created by the call of [connectSession], so they, and the
    [handleToolCall] they call, are those of the render in which that
    call was made, for as long as the session lasts. *)
Definition render (st : AppState) : Closure :=
  {| cl_activeProperty := activeProperty (ui st);
     cl_propertyHistory := propertyHistory (ui st);
     cl_isRecording := isRecording (ui st) |}.

(** *** Field updates *)

Definition with_ui (f : Ui -> Ui) (st : AppState) : AppState :=
  {| ui := f (ui st); audio := audio st; conn := conn st; turn := turn st;
     flags := flags st; api := api st; runtime := runtime st |}.
Definition with_audio (f : Audio -> Audio) (st : AppState) : AppState :=
  {| ui := ui st; audio := f (audio st); conn := conn st; turn := turn st;
     flags := flags st; api := api st; runtime := runtime st |}.
Definition with_conn (f : Conn -> Conn) (st : AppState) : AppState :=
  {| ui := ui st; audio := audio st; conn := f (conn st); turn := turn st;
     flags := flags st; api := api st; runtime := runtime st |}.
Definition with_turn (f : Turn -> Turn) (st : AppState) : AppState :=
  {| ui := ui st; audio := audio st; conn := conn st; turn := f (turn st);
     flags := flags st; api := api st; runtime := runtime st |}.
Definition with_flags (f : Flags -> Flags) (st : AppState) : AppState :=
  {| ui := ui st; audio := audio st; conn := conn st; turn := turn st;
     flags := f (flags st); api := api st; runtime := runtime st |}.
Definition with_api (f : MockApi.Store -> MockApi.Store) (st : AppState) : AppState :=
  {| ui := ui st; audio := audio st; conn := conn st; turn := turn st;
     flags := flags st; api := f (api st); runtime := runtime st |}.
Definition with_runtime (f : Runtime -> Runtime) (st : AppState) : AppState :=
  {| ui := ui st; audio := audio st; conn := conn st; turn := turn st;
     flags := flags st; api := api st; runtime := f (runtime st) |}.

Definition setIsRecording (b : bool) : AppState -> AppState :=
  with_ui (fun u =>
    {| isRecording := b; activeProperty := activeProperty u;
       propertyHistory := propertyHistory u; showGallery := showGallery u;
       showLeadForm := showLeadForm u; statusMessage := statusMessage u;
       transcript := transcript u; notification := notification u |}).
Definition setActiveProperty (p : option Property) : AppState -> AppState :=
  with_ui (fun u =>
    {| isRecording := isRecording u; activeProperty := p;
       propertyHistory := propertyHistory u; showGallery := showGallery u;
       showLeadForm := showLeadForm u; statusMessage := statusMessage u;
       transcript := transcript u; notification := notification u |}).
Definition setPropertyHistory (f : list Property -> list Property) : AppState -> AppState :=
  with_ui (fun u =>
    {| isRecording := isRecording u; activeProperty := activeProperty u;
       propertyHistory := f (propertyHistory u); showGallery := showGallery u;
       showLeadForm := showLeadForm u; statusMessage := statusMessage u;
       transcript := transcript u; notification := notification u |}).
Definition setShowGallery (b : bool) : AppState -> AppState :=
  with_ui (fun u =>
    {| isRecording := isRecording u; activeProperty := activeProperty u;
       propertyHistory := propertyHistory u; showGallery := b;
       showLeadForm := showLeadForm u; statusMessage := statusMessage u;
       transcript := transcript u; notification := notification u |}).
Definition setShowLeadForm (b : bool) : AppState -> AppState :=
  with_ui (fun u =>
    {| isRecording := isRecording u; activeProperty := activeProperty u;
       propertyHistory := propertyHistory u; showGallery := showGallery u;
       showLeadForm := b; statusMessage := statusMessage u;
       transcript := transcript u; notification := notification u |}).
Definition setStatusMessage (s : string) : AppState -> AppState :=
  with_ui (fun u =>
    {| isRecording := isRecording u; activeProperty := activeProperty u;
       propertyHistory := propertyHistory u; showGallery := showGallery u;
       showLeadForm := showLeadForm u; statusMessage := s;
       transcript := transcript u; notification := notification u |}).
Definition setTranscript (f : list (string * string) -> list (string * string))
    : AppState -> AppState :=
  with_ui (fun u =>
    {| isRecording := isRecording u; activeProperty := activeProperty u;
       propertyHistory := propertyHistory u; showGallery := showGallery u;
       showLeadForm := showLeadForm u; statusMessage := statusMessage u;
       transcript := f (transcript u); notification := notification u |}).
Definition setNotification (n : option string) : AppState -> AppState :=
  with_ui (fun u =>
    {| isRecording := isRecording u; activeProperty := activeProperty u;
       propertyHistory := propertyHistory u; showGallery := showGallery u;
       showLeadForm := showLeadForm u; statusMessage := statusMessage u;
       transcript := transcript u; notification := n |}).

Definition set_audioContextRef (c : option AudioContextState) : AppState -> AppState :=
  with_audio (fun a =>
    {| audioContextRef := c; outputAudioContextRef := outputAudioContextRef a;
       nextStartTimeRef := nextStartTimeRef a; sourcesRef := sourcesRef a;
       createdSources := createdSources a; streamRef := streamRef a;
       scriptProcessorRef := scriptProcessorRef a |}).
Definition set_outputAudioContextRef (c : option AudioContextState) : AppState -> AppState :=
  with_audio (fun a =>
    {| audioContextRef := audioContextRef a; outputAudioContextRef := c;
       nextStartTimeRef := nextStartTimeRef a; sourcesRef := sourcesRef a;
       createdSources := createdSources a; streamRef := streamRef a;
       scriptProcessorRef := scriptProcessorRef a |}).
Definition set_nextStartTimeRef (t : Z) : AppState -> AppState :=
  with_audio (fun a =>
    {| audioContextRef := audioContextRef a;
       outputAudioContextRef := outputAudioContextRef a;
       nextStartTimeRef := t; sourcesRef := sourcesRef a;
       createdSources := createdSources a; streamRef := streamRef a;
       scriptProcessorRef := scriptProcessorRef a |}).
Definition set_sourcesRef (s : gset nat) : AppState -> AppState :=
  with_audio (fun a =>
    {| audioContextRef := audioContextRef a;
       outputAudioContextRef := outputAudioContextRef a;
       nextStartTimeRef := nextStartTimeRef a; sourcesRef := s;
       createdSources := createdSources a; streamRef := streamRef a;
       scriptProcessorRef := scriptProcessorRef a |}).
Definition set_createdSources (n : nat) : AppState -> AppState :=
  with_audio (fun a =>
    {| audioContextRef := audioContextRef a;
       outputAudioContextRef := outputAudioContextRef a;
       nextStartTimeRef := nextStartTimeRef a; sourcesRef := sourcesRef a;
       createdSources := n; streamRef := streamRef a;
       scriptProcessorRef := scriptProcessorRef a |}).
Definition set_streamRef (b : bool) : AppState -> AppState :=
  with_audio (fun a =>
    {| audioContextRef := audioContextRef a;
       outputAudioContextRef := outputAudioContextRef a;
       nextStartTimeRef := nextStartTimeRef a; sourcesRef := sourcesRef a;
       createdSources := createdSources a; streamRef := b;
       scriptProcessorRef := scriptProcessorRef a |}).
Definition set_scriptProcessorRef (b : bool) : AppState -> AppState :=
  with_audio (fun a =>
    {| audioContextRef := audioContextRef a;
       outputAudioContextRef := outputAudioContextRef a;
       nextStartTimeRef := nextStartTimeRef a; sourcesRef := sourcesRef a;
       createdSources := createdSources a; streamRef := streamRef a;
       scriptProcessorRef := b |}).

Definition set_sessionRef (s : option nat) : AppState -> AppState :=
  with_conn (fun c =>
    {| sessionRef := s; sessionPromiseRef := sessionPromiseRef c;
       reconnectAttemptsRef := reconnectAttemptsRef c;
       abortControllerRef := abortControllerRef c;
       abortedSignals := abortedSignals c;
       createdControllers := createdControllers c |}).
Definition set_sessionPromiseRef (s : option nat) : AppState -> AppState :=
  with_conn (fun c =>
    {| sessionRef := sessionRef c; sessionPromiseRef := s;
       reconnectAttemptsRef := reconnectAttemptsRef c;
       abortControllerRef := abortControllerRef c;
       abortedSignals := abortedSignals c;
       createdControllers := createdControllers c |}).
Definition set_reconnectAttemptsRef (n : nat) : AppState -> AppState :=
  with_conn (fun c =>
    {| sessionRef := sessionRef c; sessionPromiseRef := sessionPromiseRef c;
       reconnectAttemptsRef := n;
       abortControllerRef := abortControllerRef c;
       abortedSignals := abortedSignals c;
       createdControllers := createdControllers c |}).
Definition set_abortControllerRef (a : option nat) : AppState -> AppState :=
  with_conn (fun c =>
    {| sessionRef := sessionRef c; sessionPromiseRef := sessionPromiseRef c;
       reconnectAttemptsRef := reconnectAttemptsRef c;
       abortControllerRef := a;
       abortedSignals := abortedSignals c;
       createdControllers := createdControllers c |}).
Definition set_abortedSignals (s : gset nat) : AppState -> AppState :=
  with_conn (fun c =>
    {| sessionRef := sessionRef c; sessionPromiseRef := sessionPromiseRef c;
       reconnectAttemptsRef := reconnectAttemptsRef c;
       abortControllerRef := abortControllerRef c;
       abortedSignals := s;
       createdControllers := createdControllers c |}).
Definition set_createdControllers (n : nat) : AppState -> AppState :=
  with_conn (fun c =>
    {| sessionRef := sessionRef c; sessionPromiseRef := sessionPromiseRef c;
       reconnectAttemptsRef := reconnectAttemptsRef c;
       abortControllerRef := abortControllerRef c;
       abortedSignals := abortedSignals c;
       createdControllers := n |}).

Definition set_currentInputTranscription (s : string) : AppState -> AppState :=
  with_turn (fun t =>
    {| currentInputTranscription := s;
       currentOutputTranscription := currentOutputTranscription t;
       toolsUsedRef := toolsUsedRef t; turnStartTimeRef := turnStartTimeRef t |}).
Definition set_currentOutputTranscription (s : string) : AppState -> AppState :=
  with_turn (fun t =>
    {| currentInputTranscription := currentInputTranscription t;
       currentOutputTranscription := s;
       toolsUsedRef := toolsUsedRef t; turnStartTimeRef := turnStartTimeRef t |}).
Definition set_toolsUsedRef (l : list string) : AppState -> AppState :=
  with_turn (fun t =>
    {| currentInputTranscription := currentInputTranscription t;
       currentOutputTranscription := currentOutputTranscription t;
       toolsUsedRef := l; turnStartTimeRef := turnStartTimeRef t |}).
Definition set_turnStartTimeRef (z : Z) : AppState -> AppState :=
  with_turn (fun t =>
    {| currentInputTranscription := currentInputTranscription t;
       currentOutputTranscription := currentOutputTranscription t;
       toolsUsedRef := toolsUsedRef t; turnStartTimeRef := z |}).

Definition set_showGalleryRef (b : bool) : AppState -> AppState :=
  with_flags (fun f =>
    {| showGalleryRef := b; isProcessingRef := isProcessingRef f;
       showLeadFormRef := showLeadFormRef f |}).
Definition set_isProcessingRef (b : bool) : AppState -> AppState :=
  with_flags (fun f =>
    {| showGalleryRef := showGalleryRef f; isProcessingRef := b;
       showLeadFormRef := showLeadFormRef f |}).
Definition set_showLeadFormRef (b : bool) : AppState -> AppState :=
  with_flags (fun f =>
    {| showGalleryRef := showGalleryRef f; isProcessingRef := isProcessingRef f;
       showLeadFormRef := b |}).

Definition set_timers (l : list (Z * TimerTask)) : AppState -> AppState :=
  with_runtime (fun r =>
    {| timers := l; pendingDecodes := pendingDecodes r;
       pendingSearches := pendingSearches r; effects := effects r |}).
Definition set_pendingDecodes (l : list (Closure * LiveServerMessage)) : AppState -> AppState :=
  with_runtime (fun r =>
    {| timers := timers r; pendingDecodes := l;
       pendingSearches := pendingSearches r; effects := effects r |}).
Definition set_pendingSearches (l : list (Closure * FunctionCall)) : AppState -> AppState :=
  with_runtime (fun r =>
    {| timers := timers r; pendingDecodes := pendingDecodes r;
       pendingSearches := l; effects := effects r |}).
Definition emit (e : Effect) : AppState -> AppState :=
  with_runtime (fun r =>
    {| timers := timers r; pendingDecodes := pendingDecodes r;
       pendingSearches := pendingSearches r; effects := effects r ++ [e] |}).

(** [setTimeout(task, delay)]. *)
Definition setTimeout (task : TimerTask) (delay : Z) (st : AppState) : AppState :=
  set_timers (timers (runtime st) ++ [(delay, task)]) st.

(** ** Handlers of the [App] component *)

Section App.

(** The result-lookup collaborator of services/mockApi:
    [getAlternativeLocations] is a function of the query alone;
    [searchProperties] is asynchronous, and what it settles to is part of
    the event that resumes the caller. *)
Variable getAlternativeLocations : string -> list string.

Definition inquiryOptions (cl : Closure) (st : AppState) (s : ConversationStatus)
    : MockApi.InquiryOptions :=
  {| MockApi.opt_propertyId := prop_id <$> cl_activeProperty cl;
     MockApi.opt_toolsUsed := Some (toolsUsedRef (turn st));
     MockApi.opt_status := Some s;
     MockApi.opt_startTime := Some (turnStartTimeRef (turn st)) |}.

(** A call of [saveInquiry] from the component: the sink's store is
    updated and the call is recorded. *)
Definition saveInquiry (amb : Ambient) (userMessage botResponse : string)
    (options : MockApi.InquiryOptions) (st : AppState) : AppState :=
  let '(log, api') :=
    MockApi.saveInquiry amb userMessage botResponse (Some options) (api st) in
  emit (SavedInquiry log) (with_api (fun _ => api') st).

Definition handleCloseGallery (st : AppState) : AppState :=
  let st := setShowGallery false st in
  let st := set_showGalleryRef false st in
  setNotification (Some "تم إغلاق معرض الصور") st.

(** [ctx && ctx.state !== 'closed'] on a context ref. *)
Definition context_open (c : option AudioContextState) : bool :=
  match c with
  | Some closed => false
  | Some _ => true
  | None => false
  end.

Definition stopAudioPlayback (st : AppState) : AppState :=
  let st := set_sourcesRef ∅ st in
  let st := set_nextStartTimeRef 0 st in
  if context_open (outputAudioContextRef (audio st))
  then set_outputAudioContextRef None st
  else st.

Definition handleCloseLeadForm (st : AppState) : AppState :=
  let st := setShowLeadForm false st in
  let st := set_showLeadFormRef false st in
  stopAudioPlayback st.

Definition stopSession (amb : Ambient) (cl : Closure) (st : AppState) : AppState :=
  (* Cancel any pending retry attempts *)
  let st :=
    match abortControllerRef (conn st) with
    | Some c =>
        let st := set_abortedSignals ({[c]} ∪ abortedSignals (conn st)) st in
        set_abortControllerRef None st
    | None => st
    end in
  (* Save any pending conversation before stopping *)
  let st :=
    if Js.truthy (currentInputTranscription (turn st))
       || Js.truthy (currentOutputTranscription (turn st))
    then
      let st :=
        saveInquiry amb
          (Js.or_else (currentInputTranscription (turn st)) "[انتهاء الجلسة]")
          (Js.or_else (currentOutputTranscription (turn st)) "[تم إنهاء الجلسة]")
          (inquiryOptions cl st status_session_end) st in
      let st := set_currentInputTranscription "" st in
      let st := set_currentOutputTranscription "" st in
      let st := set_toolsUsedRef [] st in
      set_turnStartTimeRef 0 st
    else st in
  let st := with_api MockApi.resetSessionId st in
  (* Stop all playing audio sources *)
  let st := set_sourcesRef ∅ st in
  let st := set_nextStartTimeRef 0 st in
  (* Close the output and the input audio context *)
  let st :=
    if context_open (outputAudioContextRef (audio st))
    then set_outputAudioContextRef None st else st in
  let st :=
    if context_open (audioContextRef (audio st))
    then set_audioContextRef None st else st in
  (* Close session *)
  let st :=
    match sessionRef (conn st) with
    | Some s => set_sessionRef None (emit (ClosedSession s) st)
    | None => st
    end in
  let st := set_sessionPromiseRef None st in
  let st := set_scriptProcessorRef false st in
  let st := set_streamRef false st in
  let st := setIsRecording false st in
  setStatusMessage idlePrompt st.

(** *** [withRetry] *)

(** What another handler does to the store while [withRetry] is
    suspended at an [await]: the only handler that touches
    [abortControllerRef] besides [connectSession] itself is
    [stopSession]. *)
Inductive Interference :=
| Quiet
| Stopped (amb : Ambient) (cl : Closure).

Definition interfere (i : Interference) (st : AppState) : AppState :=
  match i with
  | Quiet => st
  | Stopped amb cl => stopSession amb cl st
  end.

(** The wrapped operation and the environment of one [withRetry] call:
    how the [attempt]-th call of [fn] settles, and what happens while it
    is pending and while the backoff timer that follows it is pending. *)
Record RetryEnv (T : Type) := {
  attempt_result : nat -> Outcome T;
  during_attempt : nat -> Interference;
  during_wait : nat -> Interference
}.
Arguments attempt_result {T}.
Arguments during_attempt {T}.
Arguments during_wait {T}.

Record RetryOptions := {
  maxAttempts : option nat;
  onRetry : option (nat -> AppState -> AppState)
}.

Inductive RetryEvent :=
| Invoked (attempt : nat)                  (* fn() *)
| Observed (attempt : nat)                 (* onRetry(attempt) *)
| Waited (attempt : nat) (delay : option Z). (* setTimeout(resolve, delay) *)

Definition delays : list Z := [500; 1000; 2000]%Z.

Definition cancelled : JsError := Error "Connection cancelled".

(** The test that makes an error non-retryable. *)
Definition isFatal (error : JsError) : bool :=
  let errMsg := Js.toLowerCase (message error) in
  Js.includes errMsg "api key" || Js.includes errMsg "quota" ||
  Js.includes errMsg "unauthorized" || Js.includes errMsg "forbidden" ||
  Js.includes errMsg "invalid".

(** [abortControllerRef.current?.signal.aborted] *)
Definition signal_aborted (st : AppState) : bool :=
  match abortControllerRef (conn st) with
  | Some c => bool_decide (c ∈ abortedSignals (conn st))
  | None => false
  end.

(** Whether the listener that a wait registered on [listener] (the signal
    of the controller the ref held when the wait began) ran while the
    store went from [before] to [after]: the signal fires once, when its
    controller is aborted. *)
Definition abort_fired (listener : option nat) (before after : AppState) : bool :=
  match listener with
  | Some c =>
      bool_decide (c ∉ abortedSignals (conn before)) &&
      bool_decide (c ∈ abortedSignals (conn after))
  | None => false
  end.

Definition observe (cb : option (nat -> AppState -> AppState)) (attempt : nat)
    (st : AppState) : AppState * list RetryEvent :=
  match cb with
  | Some f => (f attempt st, [Observed attempt])
  | None => (st, [])
  end.

(** The [for] loop of [withRetry], entered for [attempt] with
    [remaining] iterations left ([remaining = max - attempt + 1]). *)
Fixpoint retry_loop {T} (env : RetryEnv T) (max : nat)
    (cb : option (nat -> AppState -> AppState))
    (remaining attempt : nat) (lastError : JsError) (st : AppState)
    : Outcome T * AppState * list RetryEvent :=
  match remaining with
  | O => (Rejected lastError, st, [])
  | S remaining' =>
      if signal_aborted st then (Rejected cancelled, st, [])
      else
        let st := interfere (during_attempt env attempt) st in
        match attempt_result env attempt with
        | Resolved v => (Resolved v, st, [Invoked attempt])
        | Rejected error =>
            if isFatal error then (Rejected error, st, [Invoked attempt])
            else if (attempt <? max)%nat then
              let '(st, obs) := observe cb attempt st in
              let head :=
                Invoked attempt :: obs ++
                [Waited attempt (delays !! (attempt - 1)%nat)] in
              let listener := abortControllerRef (conn st) in
              let st' := interfere (during_wait env attempt) st in
              if abort_fired listener st st'
              then (Rejected cancelled, st', head)
              else
                let '(r, st'', tr) :=
                  retry_loop env max cb remaining' (S attempt) error st' in
                (r, st'', head ++ tr)
            else
              let '(r, st', tr) :=
                retry_loop env max cb remaining' (S attempt) error st in
              (r, st', Invoked attempt :: tr)
        end
  end.

Definition withRetry {T} (env : RetryEnv T) (options : RetryOptions)
    (st : AppState) : Outcome T * AppState * list RetryEvent :=
  let max := default 3%nat (maxAttempts options) in
  retry_loop env max (onRetry options) max 1 (Error "Unknown error") st.

Definition is_invocation (e : RetryEvent) : bool :=
  match e with
  | Invoked _ => true
  | _ => false
  end.

(** How many times [fn] was called. *)
Definition invocations (tr : list RetryEvent) : nat :=
  length (List.filter is_invocation tr).

Definition getErrorMessage (err : JsError) : string :=
  let msg := Js.toLowerCase (message err) in
  if Js.includes msg "api key" || Js.includes msg "unauthorized"
  then "خطأ في المصادقة - تواصل مع الدعم"
  else if Js.includes msg "quota"
  then "تم تجاوز الحد المسموح - حاول لاحقاً"
  else if Js.includes msg "network" || Js.includes msg "fetch"
  then "تأكد من اتصال الإنترنت"
  else "حدث خطأ - اضغط للمحاولة مرة أخرى".

(** *** [handleToolCall] *)

(** [session.sendToolResponse], reached through [sessionPromiseRef]. *)
Definition sendToolResponse (fc : FunctionCall) (response : string)
    (st : AppState) : AppState :=
  match sessionPromiseRef (conn st) with
  | Some _ => emit (SentToolResponse (fc_id fc) (fc_name fc) response) st
  | None => st
  end.

(** The end of [handleToolCall]: the response is sent unless the effect
    threw into the outer [catch] ([None]); the [finally] block sets the
    timer that reopens the guard. *)
Definition finish (fc : FunctionCall) (r : AppState * option string) : AppState :=
  let '(st, response) := r in
  let st :=
    match response with
    | Some text => sendToolResponse fc text st
    | None => st
    end in
  setTimeout ReleaseGuard 100 st.

Definition closeLeadFormForSearch (fc : FunctionCall) (st : AppState) : AppState :=
  if (fc_name fc =? "search_property")%string
     || (fc_name fc =? "show_previous_property")%string
  then
    if showLeadFormRef (flags st)
    then set_showLeadFormRef false (setShowLeadForm false st)
    else st
  else st.

(** [n || 1] on a number that may be missing: 0 is falsy. *)
Definition or_one (n : option JsNumber) : JsNumber :=
  match n with
  | Some (Integer 0%Z) | None => Integer 1
  | Some n => n
  end.

(** [n - 1] *)
Definition minus_one (n : JsNumber) : JsNumber :=
  match n with
  | Integer z => Integer (z - 1)
  | Fraction below => Fraction (below - 1)
  end.

(** [(fc.args.index || 1) - 1] *)
Definition previous_index (args : Args) : JsNumber :=
  minus_one (or_one (index args)).

(** [n >= 0 && n < len]: a number between [b] and [b + 1] is at least 0
    when [b] is, and below [len] when [b] is. *)
Definition within (n : JsNumber) (len : nat) : bool :=
  match n with
  | Integer z | Fraction z => (0 <=? z)%Z && (z <? Z.of_nat len)%Z
  end.

(** [l[n]]: [undefined] unless [n] is an index of the array. *)
Definition at_number {A} (l : list A) (n : JsNumber) : option A :=
  match n with
  | Integer z => if (0 <=? z)%Z then l !! Z.to_nat z else None
  | Fraction _ => None
  end.

(** The case [show_previous_property]; [None] is a [TypeError] thrown
    into the outer [catch]: by [fc.args.index] when [fc.args] is missing,
    by [prevProperty.title] when [propertyHistory[index]] is [undefined],
    which is after the setters have been called. *)
Definition show_previous_property (cl : Closure) (fc : FunctionCall)
    (st : AppState) : AppState * option string :=
  match fc_args fc with
  | None => (st, None)
  | Some args =>
      let propertyHistory := cl_propertyHistory cl in
      let index := previous_index args in
      if within index (length propertyHistory) then
        let prevProperty := at_number propertyHistory index in
        let st := setActiveProperty prevProperty st in
        let st := setShowGallery true st in
        let st := set_showGalleryRef true st in
        (st, match prevProperty, index with
             | Some prevProperty, Integer index =>
                 Some ("تم فتح العقار رقم " +:+ Js.show_int (index + 1) +:+ ": "
                       +:+ title prevProperty +:+ ". الصور معروضة.")
             | _, _ => None
             end)
      else
        (st, Some ("ما عندي عقار بهذا الرقم. عرضت "
                   +:+ Js.show_int (Z.of_nat (length propertyHistory))
                   +:+ " عقارات."))
  end.

Definition open_gallery (cl : Closure) (st : AppState) : AppState * option string :=
  match cl_activeProperty cl with
  | Some activeProperty =>
      if showGalleryRef (flags st)
      then (st, Some ("معرض الصور مفتوح فعلاً: " +:+ title activeProperty +:+ "."))
      else
        let st := setShowGallery true st in
        let st := set_showGalleryRef true st in
        (st, Some ("تم فتح معرض الصور: " +:+ title activeProperty +:+ "."))
  | None => (st, Some "ابحث عن عقار أولاً.")
  end.

(** The [switch] for the tools that do not wait for anything. *)
Definition tool_effect (cl : Closure) (fc : FunctionCall) (st : AppState)
    : AppState * option string :=
  if (fc_name fc =? "show_previous_property")%string then
    show_previous_property cl fc st
  else if (fc_name fc =? "open_gallery")%string then
    open_gallery cl st
  else if (fc_name fc =? "close_gallery")%string then
    (handleCloseGallery st, Some "تم إغلاق معرض الصور.")
  else if (fc_name fc =? "open_lead_form")%string then
    let st := setShowLeadForm true st in
    let st := set_showLeadFormRef true st in
    (st, Some "تم فتح نموذج التسجيل. اطلب من العميل تعبئة بياناته.")
  else (st, Some "تم تنفيذ الأمر").

(** [fc.args.query], once [fc.args] is known to be an object. *)
Definition fc_query (fc : FunctionCall) : option string := fc_args fc ≫= query.

(** [handleToolCall] up to its first suspension: the whole call for every
    tool but [search_property], which is left waiting for
    [searchProperties]; when [fc.args] is missing, [fc.args.query] throws
    into the inner [catch] before anything is awaited. *)
Definition handleToolCall (cl : Closure) (fc : FunctionCall) (st : AppState)
    : AppState :=
  if isProcessingRef (flags st) then st
  else
    let st := set_isProcessingRef true st in
    let st := set_toolsUsedRef (toolsUsedRef (turn st) ++ [fc_name fc]) st in
    let st := closeLeadFormForSearch fc st in
    if (fc_name fc =? "search_property")%string
    then
      match fc_args fc with
      | Some _ => set_pendingSearches (pendingSearches (runtime st) ++ [(cl, fc)]) st
      | None => finish fc (st, Some "حدث خطأ في البحث. حاول مرة ثانية.")
      end
    else finish fc (tool_effect cl fc st).

(** The [search_property] case once [searchProperties] has settled; a
    rejection, and a missing query, end in the inner [catch]. *)
Definition search_property (cl : Closure) (fc : FunctionCall)
    (outcome : Outcome (list Property)) (st : AppState) : AppState * option string :=
  let failed := (st, Some "حدث خطأ في البحث. حاول مرة ثانية.") in
  match fc_query fc, outcome with
  | Some q, Resolved (property :: _) =>
      let st := setActiveProperty (Some property) st in
      let st :=
        setPropertyHistory
          (fun prev =>
             match List.find (fun p => (prop_id p =? prop_id property)%string) prev with
             | Some _ => prev
             | None => prev ++ [property]
             end) st in
      let st := setShowGallery true st in
      let st := set_showGalleryRef true st in
      let historyIndex := Z.of_nat (length (cl_propertyHistory cl) + 1) in
      (st, Some ("تم فتح معرض الصور. العقار رقم " +:+ Js.show_int historyIndex
                 +:+ ": " +:+ title property
                 +:+ ". الموقع: " +:+ location property
                 +:+ ". النوع: " +:+ prop_type property
                 +:+ ". " +:+ description property
                 +:+ ". الصور معروضة الآن."))
  | Some q, Resolved [] =>
      match getAlternativeLocations q with
      | [] => (st, Some "عذراً، لا يوجد عقارات متوفرة. تحب أسجل طلبك؟")
      | alternatives =>
          (st, Some ("عذراً، لا يوجد عقارات بهذه المواصفات هنا. عندنا في: "
                     +:+ Js.join "، " alternatives +:+ ". تحب أي حي؟"))
      end
  | _, _ => failed
  end.

Definition handleToolCall_resume (cl : Closure) (fc : FunctionCall)
    (outcome : Outcome (list Property)) (st : AppState) : AppState :=
  finish fc (search_property cl fc outcome st).

(** *** [onmessage] *)

Definition onInterrupted (amb : Ambient) (cl : Closure) (st : AppState) : AppState :=
  (* Save partial conversation before clearing *)
  let st :=
    if Js.truthy (currentInputTranscription (turn st))
       || Js.truthy (currentOutputTranscription (turn st))
    then
      let st :=
        saveInquiry amb
          (Js.or_else (currentInputTranscription (turn st)) "[مقاطعة]")
          (Js.or_else (currentOutputTranscription (turn st)) "[تم المقاطعة]")
          (inquiryOptions cl st status_interrupted) st in
      let st := set_toolsUsedRef [] st in
      let st := set_currentInputTranscription "" st in
      set_currentOutputTranscription "" st
    else st in
  let st := set_sourcesRef ∅ st in
  let st := set_nextStartTimeRef 0 st in
  if showGalleryRef (flags st)
  then set_showGalleryRef false (setShowGallery false st)
  else st.

Definition onInputTranscription (amb : Ambient) (text : string) (st : AppState)
    : AppState :=
  let st :=
    if (turnStartTimeRef (turn st) =? 0)%Z
    then set_turnStartTimeRef (dateNow amb) st else st in
  set_currentInputTranscription (currentInputTranscription (turn st) +:+ text) st.

Definition onOutputTranscription (text : string) (st : AppState) : AppState :=
  set_currentOutputTranscription (currentOutputTranscription (turn st) +:+ text) st.

Definition onTurnComplete (amb : Ambient) (cl : Closure) (st : AppState) : AppState :=
  let userMsg := currentInputTranscription (turn st) in
  let botMsg := currentOutputTranscription (turn st) in
  let st := setTranscript (fun prev => Js.slice_from (-5) (prev ++ [(userMsg, botMsg)])) st in
  let st :=
    if Js.truthy userMsg || Js.truthy botMsg
    then saveInquiry amb userMsg botMsg (inquiryOptions cl st status_complete) st
    else st in
  (* Reset for next turn *)
  let st := set_currentInputTranscription "" st in
  let st := set_currentOutputTranscription "" st in
  let st := set_toolsUsedRef [] st in
  set_turnStartTimeRef 0 st.

Definition onToolCalls (cl : Closure) (functionCalls : list FunctionCall)
    (st : AppState) : AppState :=
  fold_left (fun st fc => handleToolCall cl fc st) functionCalls st.

Definition when {A} (o : option A) (f : A -> AppState -> AppState)
    (st : AppState) : AppState :=
  match o with
  | Some a => f a st
  | None => st
  end.

(** [onmessage] after the audio chunk has been dealt with. *)
Definition onmessage_rest (amb : Ambient) (cl : Closure) (m : LiveServerMessage)
    (st : AppState) : AppState :=
  let st := if interrupted m then onInterrupted amb cl st else st in
  let st := when (inputTranscription m) (onInputTranscription amb) st in
  let st := when (outputTranscription m) onOutputTranscription st in
  let st := if turnComplete m then onTurnComplete amb cl st else st in
  when (toolCall m) (onToolCalls cl) st.

Definition has_audio (m : LiveServerMessage) : bool :=
  match audioData m with
  | Some d => Js.truthy d
  | None => false
  end.

(** [onmessage] up to [await decodeAudioData]; [currentTime] is the
    reading of [ctx.currentTime].  A message without audio is handled to
    the end. *)
Definition onmessage (amb : Ambient) (cl : Closure) (currentTime : Z)
    (m : LiveServerMessage) (st : AppState) : AppState :=
  match sessionRef (conn st) with
  | None => st
  | Some _ =>
      if has_audio m && context_open (outputAudioContextRef (audio st)) then
        let st := set_nextStartTimeRef (Z.max (nextStartTimeRef (audio st)) currentTime) st in
        set_pendingDecodes (pendingDecodes (runtime st) ++ [(cl, m)]) st
      else onmessage_rest amb cl m st
  end.

(** [onmessage] from the point where [decodeAudioData] settles, with the
    duration of the decoded buffer, or [None] when decoding threw. *)
Definition onmessage_resume (amb : Ambient) (cl : Closure) (m : LiveServerMessage)
    (buffer : option Z) (st : AppState) : AppState :=
  match buffer with
  | None => st
  | Some duration =>
      if context_open (outputAudioContextRef (audio st)) then
        let source := createdSources (audio st) in
        let st := set_createdSources (S source) st in
        let st := set_nextStartTimeRef (nextStartTimeRef (audio st) + duration) st in
        let st := set_sourcesRef ({[source]} ∪ sourcesRef (audio st)) st in
        onmessage_rest amb cl m st
      else st
  end.

(** *** Connection life cycle *)

Record ConnectEnv := {
  getUserMedia : RetryEnv unit;
  liveConnect : RetryEnv nat
}.

Definition micPermissionError (err : JsError) : JsError :=
  if (err_name err =? "NotAllowedError")%string
     || (err_name err =? "PermissionDeniedError")%string
  then Error "يرجى السماح بالوصول للميكروفون"
  else err.

(** The [catch] block of [connectSession]. *)
Definition connectFailed (error : JsError) (st : AppState) : AppState :=
  let st := if streamRef (audio st) then set_streamRef false st else st in
  let st := set_audioContextRef None st in
  let st := set_outputAudioContextRef None st in
  if (message error =? "Connection cancelled")%string
  then setStatusMessage idlePrompt st
  else setStatusMessage (getErrorMessage error) st.

Definition connectSession (env : ConnectEnv) (st : AppState) : AppState :=
  match sessionRef (conn st) with
  | Some _ => st
  | None =>
      let st := set_reconnectAttemptsRef 0 st in
      (* Create new abort controller for this connection attempt *)
      let controller := createdControllers (conn st) in
      let st := set_createdControllers (S controller) st in
      let st := set_abortControllerRef (Some controller) st in
      let st := setStatusMessage "جاري الاتصال..." st in
      (* Get microphone with retry *)
      let '(stream, st, _) :=
        withRetry (getUserMedia env)
          {| maxAttempts := Some 2%nat;
             onRetry := Some (fun _ => setStatusMessage "جاري طلب صلاحية الميكروفون...") |}
          st in
      match stream with
      | Rejected err => connectFailed (micPermissionError err) st
      | Resolved _ =>
          let st := set_streamRef true st in
          let st := set_audioContextRef (Some running) st in
          let st := set_outputAudioContextRef (Some running) st in
          (* Connect to Gemini with retry *)
          let '(session, st, _) :=
            withRetry (liveConnect env)
              {| maxAttempts := Some 3%nat;
                 onRetry := Some (fun attempt =>
                   setStatusMessage ("جاري إعادة الاتصال ("
                     +:+ Js.show_int (Z.of_nat attempt) +:+ "/3)...")) |}
              st in
          match session with
          | Rejected err => connectFailed err st
          | Resolved s =>
              let st := set_sessionPromiseRef (Some s) st in
              set_sessionRef (Some s) st
          end
      end
  end.

Definition onopen (st : AppState) : AppState :=
  let st := setIsRecording true st in
  let st := setStatusMessage "أنا أسمعك الآن.." st in
  set_scriptProcessorRef true st.

Definition failurePrompt : string := "حدث خطأ - اضغط للمحاولة مرة أخرى".

Definition onerror (amb : Ambient) (cl : Closure) (st : AppState) : AppState :=
  if (reconnectAttemptsRef (conn st) <? maxReconnectAttempts)%nat then
    let st := set_reconnectAttemptsRef (S (reconnectAttemptsRef (conn st))) st in
    let st := setStatusMessage "جاري إعادة الاتصال..." st in
    setTimeout Reconnect 1000 st
  else
    let st := setStatusMessage failurePrompt st in
    stopSession amb cl st.

Definition onclose (amb : Ambient) (cl : Closure) (st : AppState) : AppState :=
  if (maxReconnectAttempts <=? reconnectAttemptsRef (conn st))%nat
     || negb (cl_isRecording cl)
  then stopSession amb cl st
  else st.

(** What a timer does when it fires. *)
Definition run_timer (task : TimerTask) (amb : Ambient) (cl : Closure)
    (env : ConnectEnv) (st : AppState) : AppState :=
  match task with
  | ReleaseGuard => set_isProcessingRef false st
  | Reconnect => connectSession env (stopSession amb cl st)
  end.

(** *** The event loop *)

(** The tasks of the event loop.  The closure that comes with a callback
    of the session ([Message], [TransportError], [TransportClosed], and
    the reconnection timer that [onerror] sets) is the one of the render
    in which [connectSession] was called ([render]); the one that comes
    with a callback of the page is the one of the latest render. *)
Inductive Event :=
| Message (amb : Ambient) (cl : Closure) (currentTime : Z) (m : LiveServerMessage)
| Decoded (i : nat) (amb : Ambient) (buffer : option Z)
| SearchSettled (i : nat) (outcome : Outcome (list Property))
| TimerFired (i : nat) (amb : Ambient) (cl : Closure) (env : ConnectEnv)
| SourceEnded (source : nat)
| TransportOpened
| TransportError (amb : Ambient) (cl : Closure)
| TransportClosed (amb : Ambient) (cl : Closure)
| StopRequested (amb : Ambient) (cl : Closure)
| ConnectRequested (env : ConnectEnv)
| GalleryClosed
| LeadFormClosed.

(** One task of the event loop.  An event that names a timer or a
    pending call that does not exist changes nothing. *)
Definition step (st : AppState) (e : Event) : AppState :=
  match e with
  | Message amb cl currentTime m => onmessage amb cl currentTime m st
  | Decoded i amb buffer =>
      match pendingDecodes (runtime st) !! i with
      | Some (cl, m) =>
          onmessage_resume amb cl m buffer
            (set_pendingDecodes (delete i (pendingDecodes (runtime st))) st)
      | None => st
      end
  | SearchSettled i outcome =>
      match pendingSearches (runtime st) !! i with
      | Some (cl, fc) =>
          handleToolCall_resume cl fc outcome
            (set_pendingSearches (delete i (pendingSearches (runtime st))) st)
      | None => st
      end
  | TimerFired i amb cl env =>
      match timers (runtime st) !! i with
      | Some (_, task) =>
          run_timer task amb cl env (set_timers (delete i (timers (runtime st))) st)
      | None => st
      end
  | SourceEnded source => set_sourcesRef (sourcesRef (audio st) ∖ {[source]}) st
  | TransportOpened => onopen st
  | TransportError amb cl => onerror amb cl st
  | TransportClosed amb cl => onclose amb cl st
  | StopRequested amb cl => stopSession amb cl st
  | ConnectRequested env => connectSession env st
  | GalleryClosed => handleCloseGallery st
  | LeadFormClosed => handleCloseLeadForm st
  end.

Definition run (st : AppState) (events : list Event) : AppState :=
  fold_left step events st.

(** The records passed to [saveInquiry] and the responses sent to the
    backend, oldest first. *)
Definition flushed (st : AppState) : list ConversationLog :=
  omap (fun e => match e with SavedInquiry log => Some log | _ => None end)
       (effects (runtime st)).

Definition responses (st : AppState) : list (string * string * string) :=
  omap (fun e => match e with
                 | SentToolResponse id name r => Some (id, name, r)
                 | _ => None
                 end)
       (effects (runtime st)).

End App.

Arguments attempt_result {T}.
Arguments during_attempt {T}.
Arguments during_wait {T}.

(** * Vocabulary of the properties *)

Open Scope nat_scope.

(** ** The trace of the retry executor *)

Section RetryVocabulary.

Context {T : Type} (env : RetryEnv T) (max : nat)
        (cb : option (nat → AppState → AppState)).

(** The events of a call of the observer. *)
Definition observed (k : nat) : list RetryEvent :=
  match cb with
  | Some _ => [Observed k]
  | None => []
  end.

(** What the store undergoes at an event of the trace: whatever happens
    while the call of the operation is pending, the observer applied to
    the number of the attempt, whatever happens during the wait. *)
Definition replay_event (e : RetryEvent) (st : AppState) : AppState :=
  match e with
  | Invoked k => interfere (during_attempt env k) st
  | Observed k =>
      match cb with
      | Some f => f k st
      | None => st
      end
  | Waited k _ => interfere (during_wait env k) st
  end.

(** The store after the events of a trace, in their order. *)
Definition replay (tr : list RetryEvent) (st : AppState) : AppState :=
  fold_left (fun st e => replay_event e st) tr st.

(** One iteration of the loop, by cases. *)
Inductive Iteration (attempt : nat) (st : AppState)
    : Outcome T → list RetryEvent → option (JsError * AppState) → Prop :=
| it_aborted :
    signal_aborted st = true →
    Iteration attempt st (Rejected cancelled) [] None
| it_resolved v :
    signal_aborted st = false →
    attempt_result env attempt = Resolved v →
    Iteration attempt st (Resolved v) [Invoked attempt] None
| it_fatal e :
    signal_aborted st = false →
    attempt_result env attempt = Rejected e →
    isFatal e = true →
    Iteration attempt st (Rejected e) [Invoked attempt] None
| it_wait_cancelled e :
    signal_aborted st = false →
    attempt_result env attempt = Rejected e →
    isFatal e = false →
    attempt < max →
    Iteration attempt st (Rejected cancelled)
      (Invoked attempt :: observed attempt
         ++ [Waited attempt (delays !! (attempt - 1))]) None
| it_retry e st' :
    signal_aborted st = false →
    attempt_result env attempt = Rejected e →
    isFatal e = false →
    attempt < max →
    Iteration attempt st (Rejected e)
      (Invoked attempt :: observed attempt
         ++ [Waited attempt (delays !! (attempt - 1))]) (Some (e, st'))
| it_last e st' :
    signal_aborted st = false →
    attempt_result env attempt = Rejected e →
    isFatal e = false →
    max ≤ attempt →
    Iteration attempt st (Rejected e) [Invoked attempt] (Some (e, st')).

End RetryVocabulary.

(** ** Messages with a single part *)

Definition interruptionMarker : LiveServerMessage :=
  {| audioData := None; interrupted := true; inputTranscription := None;
     outputTranscription := None; turnComplete := false; toolCall := None |}.

Definition turnCompleteMarker : LiveServerMessage :=
  {| audioData := None; interrupted := false; inputTranscription := None;
     outputTranscription := None; turnComplete := true; toolCall := None |}.

Definition inputFragment (text : string) : LiveServerMessage :=
  {| audioData := None; interrupted := false; inputTranscription := Some text;
     outputTranscription := None; turnComplete := false; toolCall := None |}.

Definition outputFragment (text : string) : LiveServerMessage :=
  {| audioData := None; interrupted := false; inputTranscription := None;
     outputTranscription := Some text; turnComplete := false; toolCall := None |}.

Definition toolCalls (fcs : list FunctionCall) : LiveServerMessage :=
  {| audioData := None; interrupted := false; inputTranscription := None;
     outputTranscription := None; turnComplete := false; toolCall := Some fcs |}.

(** ** Answers of the dispatcher *)

(** The index the dispatcher works with: a missing index, and the index 0,
    stand for 1. *)
Definition requested_index (fc : FunctionCall) : JsNumber :=
  or_one (fc_args fc ≫= index).

(** What [sendToolResponse] adds to the calls made on the backend. *)
Definition reply (fc : FunctionCall) (text : string) (st : AppState) : list Effect :=
  match sessionPromiseRef (conn st) with
  | Some _ => [SentToolResponse (fc_id fc) (fc_name fc) text]
  | None => []
  end.

Definition apology : string := "حدث خطأ في البحث. حاول مرة ثانية.".

(** The calls that are left waiting for [searchProperties]. *)
Definition searches (fc : FunctionCall) : bool :=
  (fc_name fc =? "search_property")%string
  && match fc_args fc with Some _ => true | None => false end.

(** The calls whose effect throws into the outer [catch]: a
    [show_previous_property] without arguments, or with a number that is
    within the history and is not an integer. *)
Definition throws (cl : Closure) (fc : FunctionCall) : bool :=
  (fc_name fc =? "show_previous_property")%string
  && match fc_args fc with
     | None => true
     | Some args =>
         match previous_index args with
         | Integer _ => false
         | Fraction below =>
             within (Fraction below) (length (cl_propertyHistory cl))
         end
     end.

(** ** Turns *)

Inductive Fragment :=
| InputFragment (text : string)
| OutputFragment (text : string).

Definition fragment_message (f : Fragment) : LiveServerMessage :=
  match f with
  | InputFragment text => inputFragment text
  | OutputFragment text => outputFragment text
  end.

(** A fragment as it arrives: with the clock readings of its arrival. *)
Definition Arrival : Type := Ambient * Z * Fragment.

Definition deliver (cl : Closure) (arrivals : list Arrival) (st : AppState) : AppState :=
  fold_left
    (fun st '(amb, currentTime, f) => onmessage amb cl currentTime (fragment_message f) st)
    arrivals st.

(** The texts of the input fragments, and of the output fragments, put
    end to end in the order of arrival. *)
Fixpoint user_text (arrivals : list Arrival) : string :=
  match arrivals with
  | [] => ""
  | (_, _, InputFragment text) :: rest => text +:+ user_text rest
  | (_, _, OutputFragment _) :: rest => user_text rest
  end.

Fixpoint bot_text (arrivals : list Arrival) : string :=
  match arrivals with
  | [] => ""
  | (_, _, OutputFragment text) :: rest => text +:+ bot_text rest
  | (_, _, InputFragment _) :: rest => bot_text rest
  end.

Definition has_text (st : AppState) : bool :=
  Js.truthy (currentInputTranscription (turn st))
  || Js.truthy (currentOutputTranscription (turn st)).

(** The three ways a turn is closed. *)
Inductive Closing := ByTurnComplete | ByInterruption | BySessionEnd.

Definition close_turn (k : Closing) (amb : Ambient) (cl : Closure) (st : AppState)
    : AppState :=
  match k with
  | ByTurnComplete => onTurnComplete amb cl st
  | ByInterruption => onInterrupted amb cl st
  | BySessionEnd => stopSession amb cl st
  end.

Definition closing_status (k : Closing) : ConversationStatus :=
  match k with
  | ByTurnComplete => status_complete
  | ByInterruption => status_interrupted
  | BySessionEnd => status_session_end
  end.

(** ** The guard of the dispatcher *)

Definition is_release (t : Z * TimerTask) : bool :=
  match t.2 with
  | ReleaseGuard => true
  | Reconnect => false
  end.

(** Timers that will reopen the guard, and invocations whose effect is
    under way (accepted, waiting for [searchProperties]). *)
Definition release_timers (st : AppState) : nat :=
  length (List.filter is_release (timers (runtime st))).

Definition in_effect (st : AppState) : nat :=
  length (pendingSearches (runtime st)).

(** What the guard protocol reads and writes. *)
Definition guard_view (st : AppState)
    : bool * list (Closure * FunctionCall) * list (Z * TimerTask) :=
  (isProcessingRef (flags st), pendingSearches (runtime st), timers (runtime st)).

(** While the guard is open nothing is under way and no release is
    pending; at most one invocation is under way or cooling down. *)
Definition guard_inv (st : AppState) : Prop :=
  (isProcessingRef (flags st) = false → in_effect st = 0 ∧ release_timers st = 0)
  ∧ in_effect st + release_timers st ≤ 1.

(** * Scenarios *)

Definition amb0 : Ambient :=
  {| dateNow := 1700000000000; localeNow := "2023-11-14"; randomTag := "k3j9x0q2a" |}.

Definition cl0 : Closure :=
  {| cl_activeProperty := None; cl_propertyHistory := []; cl_isRecording := false |}.

Definition noAlternatives (q : string) : list string := [].

Definition quiet {T} (results : nat → Outcome T) : RetryEnv T :=
  {| attempt_result := results;
     during_attempt := fun _ => Quiet;
     during_wait := fun _ => Quiet |}.

Definition networkError : JsError := Error "network timeout".
Definition keyError : JsError := Error "Invalid API key".

(** The first call fails with a network error, the second with an
    authentication error. *)
Definition flaky_then_fatal : RetryEnv nat :=
  quiet (fun k => match k with
                  | 1 => Rejected networkError
                  | _ => Rejected keyError
                  end).

Definition reportAttempt : RetryOptions :=
  {| maxAttempts := Some 3;
     onRetry := Some (fun attempt =>
       setStatusMessage ("جاري إعادة الاتصال ("
         +:+ Js.show_int (Z.of_nat attempt) +:+ "/3)...")) |}.

(** The store as [connectSession] leaves it when it calls [withRetry] for
    the first time: a fresh controller, number 0, in [abortControllerRef]. *)
Definition connecting : AppState :=
  setStatusMessage "جاري الاتصال..."
    (set_abortControllerRef (Some 0)
       (set_createdControllers 1 (set_reconnectAttemptsRef 0 initialState))).

Definition micOptions : RetryOptions :=
  {| maxAttempts := Some 2;
     onRetry := Some (fun _ => setStatusMessage "جاري طلب صلاحية الميكروفون...") |}.

Definition permissionDenied : JsError :=
  {| err_name := "NotAllowedError"; message := "Permission denied" |}.

(** Every call is refused, and [stopSession] runs while the first call is
    pending. *)
Definition stop_during_first_attempt : RetryEnv unit :=
  {| attempt_result := fun _ => Rejected permissionDenied;
     during_attempt := fun k => match k with 1 => Stopped amb0 cl0 | _ => Quiet end;
     during_wait := fun _ => Quiet |}.

(** Every call is refused, and [stopSession] runs during the wait that
    follows the first call. *)
Definition stop_during_first_wait : RetryEnv unit :=
  {| attempt_result := fun _ => Rejected permissionDenied;
     during_attempt := fun _ => Quiet;
     during_wait := fun k => match k with 1 => Stopped amb0 cl0 | _ => Quiet end |}.

(** The first call is refused while [stopSession] runs, the second is
    granted. *)
Definition stop_then_granted : RetryEnv unit :=
  {| attempt_result := fun k => match k with
                                | 1 => Rejected permissionDenied
                                | _ => Resolved ()
                                end;
     during_attempt := fun k => match k with 1 => Stopped amb0 cl0 | _ => Quiet end;
     during_wait := fun _ => Quiet |}.

Definition connectOk : ConnectEnv :=
  {| getUserMedia := quiet (fun _ => Resolved ());
     liveConnect := quiet (fun _ => Resolved 1) |}.

(** A reconnection whose three connection attempts fail with a network
    error. *)
Definition connectFails : ConnectEnv :=
  {| getUserMedia := quiet (fun _ => Resolved ());
     liveConnect := quiet (fun _ => Rejected networkError) |}.

(** The store once the session is connected and the transport has opened. *)
Definition live : AppState := onopen (connectSession connectOk initialState).

(** Two sources scheduled, the cursor two seconds ahead. *)
Definition playing : AppState :=
  set_nextStartTimeRef 48000 (set_sourcesRef {[0; 1]} (set_createdSources 2 live)).

Definition villa : Property :=
  {| prop_id := "1";
     title := "فيلا فاخرة في حطين";
     price := "";
     location := "الرياض، حي حطين، شارع الأمير محمد بن سلمان";
     description := "فيلا بتصميم عصري على مساحة 450 متر مربع.";
     images := ["https://images.unsplash.com/photo-1613490493576-7fde63acd811?w=800"];
     prop_type := "فيلا" |}.

Definition flat : Property :=
  {| prop_id := "2";
     title := "شقة استثمارية في الملقا";
     price := "";
     location := "الرياض، حي الملقا، قريبة من طريق الملك فهد";
     description := "شقة فاخرة مساحتها 180 متر مربع.";
     images := ["https://images.unsplash.com/photo-1502672260266-1c1ef2d93688?w=800"];
     prop_type := "شقة" |}.

(** A handler created when the villa and then the flat had been shown. *)
Definition shown_two : Closure :=
  {| cl_activeProperty := Some flat;
     cl_propertyHistory := [villa; flat];
     cl_isRecording := true |}.

Definition show_previous (i : option JsNumber) : FunctionCall :=
  {| fc_id := "call-1";
     fc_name := "show_previous_property";
     fc_args := Some {| query := None; index := i |} |}.

Definition open_lead_form_call : FunctionCall :=
  {| fc_id := "call-3";
     fc_name := "open_lead_form";
     fc_args := Some {| query := None; index := None |} |}.

Definition search_call : FunctionCall :=
  {| fc_id := "call-2";
     fc_name := "search_property";
     fc_args := Some {| query := Some "فيلا في الرياض"; index := None |} |}.

Definition spoken : list Arrival :=
  [(amb0, 0%Z, InputFragment "أبي ");
   (amb0, 0%Z, OutputFragment "تفضل");
   (amb0, 0%Z, InputFragment "فيلا")].

(** The session is connected and a search is under way. *)
Definition searching : list Event :=
  [ConnectRequested connectOk; TransportOpened;
   Message amb0 cl0 0 (toolCalls [search_call])].

(** A transport error, then the reconnection it scheduled, which fails. *)
Definition failed_reconnection : list Event :=
  [TransportError amb0 cl0; TimerFired 0 amb0 cl0 connectFails].

(** A session opened from the initial page: its callbacks are those of
    the render in which [connectSession] was called. *)
Definition first_session : Closure := render initialState.

Definition search_flat_call : FunctionCall :=
  {| fc_id := "call-4";
     fc_name := "search_property";
     fc_args := Some {| query := Some "شقة في الرياض"; index := None |} |}.

(** The session finds the villa and then the flat; the guard is released
    after each search. *)
Definition two_found : list Event :=
  [ConnectRequested connectOk; TransportOpened;
   Message amb0 first_session 0 (toolCalls [search_call]);
   SearchSettled 0 (Resolved [villa]);
   TimerFired 0 amb0 first_session connectOk;
   Message amb0 first_session 0 (toolCalls [search_flat_call]);
   SearchSettled 0 (Resolved [flat]);
   TimerFired 0 amb0 first_session connectOk].

(** The backend asks for the first property. *)
Definition ask_for_the_first : Event :=
  Message amb0 first_session 0 (toolCalls [show_previous (Some (Integer 1))]).

(** A chunk of audio that comes with the transcript of what it says. *)
Definition spokenChunk (text : string) : LiveServerMessage :=
  {| audioData := Some "UklGRiQAAABXQVZF"; interrupted := false;
     inputTranscription := None; outputTranscription := Some text;
     turnComplete := false; toolCall := None |}.

(** The last chunk of a turn: audio and the turn-complete marker. *)
Definition closingChunk : LiveServerMessage :=
  {| audioData := Some "UklGRiQAAABXQVZF"; interrupted := false;
     inputTranscription := None; outputTranscription := None;
     turnComplete := true; toolCall := None |}.

(** A chunk of audio that carries the interruption marker. *)
Definition interruptedChunk : LiveServerMessage :=
  {| audioData := Some "UklGRiQAAABXQVZF"; interrupted := true;
     inputTranscription := None; outputTranscription := None;
     turnComplete := false; toolCall := None |}.

(** The assistant says its greeting in two fragments: the first comes
    with audio, the second without; the audio is decoded (one second of
    it) after the second fragment has arrived, and the turn ends. *)
Definition greeting_in_two : list Event :=
  [Message amb0 first_session 0 (spokenChunk "مرحبا ");
   Message amb0 first_session 0 (outputFragment "بك");
   Decoded 0 amb0 (Some 24000%Z);
   Message amb0 first_session 0 turnCompleteMarker].

(** The same, with audio that cannot be decoded. *)
Definition greeting_undecoded : list Event :=
  [Message amb0 first_session 0 (spokenChunk "مرحبا ");
   Message amb0 first_session 0 (outputFragment "بك");
   Decoded 0 amb0 None;
   Message amb0 first_session 0 turnCompleteMarker].

(** The user asks for a villa; the turn ends with a chunk of audio that
    cannot be decoded. *)
Definition turn_closed_by_bad_chunk : list Event :=
  [Message amb0 first_session 0 (inputFragment "أبي فيلا");
   Message amb0 first_session 0 closingChunk;
   Decoded 0 amb0 None].

(** The user asks for a villa; the turn ends with a chunk of audio, and
    the first fragment of the next turn arrives while the chunk is being
    decoded. *)
Definition turn_closed_by_slow_chunk : list Event :=
  [Message amb0 first_session 0 (inputFragment "أبي فيلا");
   Message amb0 first_session 0 closingChunk;
   Message amb0 first_session 0 (inputFragment "شكرا");
   Decoded 0 amb0 (Some 24000%Z)].

(** The turn that follows: the user says thanks. *)
Definition thanks_turn : list Event :=
  [Message amb0 first_session 0 (inputFragment "شكرا");
   Message amb0 first_session 0 turnCompleteMarker].

(** An interruption that comes with a chunk of audio that cannot be
    decoded. *)
Definition interrupted_by_bad_chunk : list Event :=
  [Message amb0 first_session 1000 interruptedChunk;
   Decoded 0 amb0 None].

(** A call of [show_previous_property] that carries no arguments. *)
Definition show_previous_bare : FunctionCall :=
  {| fc_id := "call-5"; fc_name := "show_previous_property"; fc_args := None |}.

(** The session of [two_found] is stopped and a new one is opened: its
    callbacks are those of the render that followed the stop. *)
Definition second_session : Closure :=
  render (run noAlternatives initialState
            (two_found ++ [StopRequested amb0 first_session])).

Definition reopened : list Event :=
  two_found ++ [StopRequested amb0 first_session;
                ConnectRequested connectOk; TransportOpened].

(** The backend asks for the property number 1.5. *)
Definition ask_for_one_and_a_half : Event :=
  Message amb0 second_session 0 (toolCalls [show_previous (Some (Fraction 1))]).

(** * Further parts of the program *)

(** ** More of JavaScript's strings and arrays *)

Module JsText.

(** [s.split(sep)] for a non-empty separator: [skip] counts the bytes of
    the separator occurrence still to be passed over, [current] is the
    piece being read. *)
Fixpoint split_from (sep s : string) (skip : nat) (current : string) : list string :=
  match s with
  | EmptyString => [current]
  | String c rest =>
      match skip with
      | S k => split_from sep rest k current
      | O =>
          if String.prefix sep s
          then current :: split_from sep rest (String.length sep - 1) ""
          else split_from sep rest 0 (current +:+ String c "")
      end
  end.

Definition split (sep s : string) : list string := split_from sep s 0 "".

Definition utf8 (bytes : list nat) : string :=
  string_of_list_ascii (map ascii_of_nat bytes).

(** The white space and line terminators that [trim] removes, in UTF-8:
    U+0009 .. U+000D, U+0020, U+00A0, U+1680, U+2000 .. U+200A, U+2028,
    U+2029, U+202F, U+205F, U+3000, U+FEFF. *)
Definition whitespace : list string :=
  map utf8
    [[9]; [10]; [11]; [12]; [13]; [32]; [194; 160]; [225; 154; 128];
     [226; 128; 128]; [226; 128; 129]; [226; 128; 130]; [226; 128; 131];
     [226; 128; 132]; [226; 128; 133]; [226; 128; 134]; [226; 128; 135];
     [226; 128; 136]; [226; 128; 137]; [226; 128; 138]; [226; 128; 168];
     [226; 128; 169]; [226; 128; 175]; [226; 129; 159]; [227; 128; 128];
     [239; 187; 191]]%nat.

Fixpoint drop_bytes (n : nat) (s : string) : string :=
  match n, s with
  | S k, String _ rest => drop_bytes k rest
  | _, _ => s
  end.

(** Removal of the leading occurrences of the strings [ws]; each round
    removes at least one byte, so [String.length s] rounds are enough. *)
Fixpoint strip_start (ws : list string) (rounds : nat) (s : string) : string :=
  match rounds with
  | O => s
  | S k =>
      match List.find (fun w => String.prefix w s) ws with
      | Some w => strip_start ws k (drop_bytes (String.length w) s)
      | None => s
      end
  end.

Definition trimStart (s : string) : string :=
  strip_start whitespace (String.length s) s.

Definition trimEnd (s : string) : string :=
  String.rev (strip_start (map String.rev whitespace) (String.length s) (String.rev s)).

(** [s.trim()] *)
Definition trim (s : string) : string := trimEnd (trimStart s).

(** [entries.sort((a, b) => b[1] - a[1])]: the sort is stable, so entries
    with the same count keep their order. *)
Fixpoint insert_by_count (e : string * nat) (sorted : list (string * nat))
    : list (string * nat) :=
  match sorted with
  | [] => [e]
  | x :: rest =>
      if (e.2 <? x.2)%nat then x :: insert_by_count e rest else e :: x :: rest
  end.

Definition sort_by_count_desc (entries : list (string * nat)) : list (string * nat) :=
  foldr insert_by_count [] entries.

(** [a % n] on integers; [None] is [NaN], the result for [n = 0]. *)
Definition rem (a n : Z) : option Z :=
  if (n =? 0)%Z then None else Some (Z.rem a n).

End JsText.

(** ** The property lookup (services/mockApi) *)

Module Lookup.

Definition MOCK_PROPERTIES : list Property :=
  [{| prop_id := "1";
     title := "فيلا فاخرة في حطين";
     price := "";
     location := "الرياض، حي حطين، شارع الأمير محمد بن سلمان";
     description := "فيلا بتصميم عصري على مساحة 450 متر مربع. تتكون من 5 غرف نوم و 6 دورات مياه. تحتوي على مسبح خاص وحديقة واسعة. موقف سيارات يتسع لـ 4 سيارات. تشطيب سوبر ديلوكس.";
     prop_type := "فيلا";
     images :=
       ["https://images.unsplash.com/photo-1613490493576-7fde63acd811?w=800";
        "https://images.unsplash.com/photo-1600596542815-ffad4c1539a9?w=800";
        "https://images.unsplash.com/photo-1600607687939-ce8a6c25118c?w=800";
        "https://images.unsplash.com/photo-1600566753190-17f0baa2a6c3?w=800";
        "https://images.unsplash.com/photo-1600585154340-be6161a56a0c?w=800"] |};
   {| prop_id := "2";
     title := "شقة استثمارية في الملقا";
     price := "";
     location := "الرياض، حي الملقا، قريبة من طريق الملك فهد";
     description := "شقة فاخرة مساحتها 180 متر مربع. تتكون من 3 غرف نوم وصالة واسعة و 3 دورات مياه. تشطيب سوبر لوكس. قريبة من المدارس والمستشفيات.";
     prop_type := "شقة";
     images :=
       ["https://images.unsplash.com/photo-1502672260266-1c1ef2d93688?w=800";
        "https://images.unsplash.com/photo-1560448204-e02f11c3d0e2?w=800";
        "https://images.unsplash.com/photo-1484154218962-a197022b5858?w=800";
        "https://images.unsplash.com/photo-1522708323590-d24dbb6b0267?w=800"] |};
   {| prop_id := "3";
     title := "أرض سكنية في النرجس";
     price := "";
     location := "الرياض، حي النرجس، المخطط الجديد";
     description := "أرض سكنية مساحتها 600 متر مربع. موقع مميز على شارعين. قريبة من جميع الخدمات. صك إلكتروني جاهز.";
     prop_type := "أرض";
     images :=
       ["https://images.unsplash.com/photo-1500382017468-9049fed747ef?w=800";
        "https://images.unsplash.com/photo-1628624747186-a941c476b7ef?w=800";
        "https://images.unsplash.com/photo-1595880500386-4b33823094d4?w=800"] |};
   {| prop_id := "4";
     title := "فيلا دوبلكس في جدة";
     price := "";
     location := "جدة، حي الشاطئ، قريبة من الكورنيش";
     description := "فيلا دوبلكس فاخرة على مساحة 350 متر مربع. تتكون من 4 غرف نوم ماستر و 5 دورات مياه. إطلالة بحرية مميزة. مسبح خاص وتراس واسع.";
     prop_type := "فيلا";
     images :=
       ["https://images.unsplash.com/photo-1512917774080-9991f1c4c750?w=800";
        "https://images.unsplash.com/photo-1600585154340-be6161a56a0c?w=800";
        "https://images.unsplash.com/photo-1600047509807-ba8f99d2cdde?w=800";
        "https://images.unsplash.com/photo-1600573472550-8090b5e0745e?w=800"] |};
   {| prop_id := "5";
     title := "شقة فاخرة في العليا";
     price := "";
     location := "الرياض، حي العليا، برج المملكة";
     description := "شقة فاخرة مساحتها 250 متر مربع. تتكون من 4 غرف نوم و 4 دورات مياه. إطلالة بانورامية على المدينة. تشطيب فندقي 5 نجوم.";
     prop_type := "شقة";
     images :=
       ["https://images.unsplash.com/photo-1545324418-cc1a3fa10c00?w=800";
        "https://images.unsplash.com/photo-1512918728675-ed5a9ecdebfd?w=800";
        "https://images.unsplash.com/photo-1560185007-c5ca9d2c014d?w=800";
        "https://images.unsplash.com/photo-1560185008-b033106af5c3?w=800"] |};
   {| prop_id := "6";
     title := "فيلا مودرن في الياسمين";
     price := "";
     location := "الرياض، حي الياسمين، شارع أنس بن مالك";
     description := "فيلا مودرن على مساحة 500 متر مربع. تتكون من 6 غرف نوم و 7 دورات مياه. مسبح داخلي وخارجي. سينما منزلية. جيم خاص.";
     prop_type := "فيلا";
     images :=
       ["https://images.unsplash.com/photo-1600607687644-c7171b42498f?w=800";
        "https://images.unsplash.com/photo-1600566753086-00f18fb6b3ea?w=800";
        "https://images.unsplash.com/photo-1600210492493-0946911123ea?w=800";
        "https://images.unsplash.com/photo-1600585154526-990dced4db0d?w=800";
        "https://images.unsplash.com/photo-1600573472591-ee6b68d14c68?w=800"] |};
   {| prop_id := "7";
     title := "أرض تجارية في الدمام";
     price := "";
     location := "الدمام، حي الفيصلية، طريق الملك فهد";
     description := "أرض تجارية مساحتها 1200 متر مربع. موقع استراتيجي على طريق رئيسي. مناسبة لمشروع تجاري أو برج مكاتب.";
     prop_type := "أرض";
     images :=
       ["https://images.unsplash.com/photo-1486406146926-c627a92ad1ab?w=800";
        "https://images.unsplash.com/photo-1464938050520-ef2571e0d6e6?w=800";
        "https://images.unsplash.com/photo-1577415124269-fc1140354693?w=800"] |};
   {| prop_id := "8";
     title := "شقة عزاب في الخبر";
     price := "";
     location := "الخبر، حي العقربية، قريبة من الكورنيش";
     description := "شقة مفروشة مساحتها 90 متر مربع. تتكون من غرفتين نوم وصالة ومطبخ. مناسبة للعزاب أو الموظفين.";
     prop_type := "شقة";
     images :=
       ["https://images.unsplash.com/photo-1493809842364-78817add7ffb?w=800";
        "https://images.unsplash.com/photo-1502672023488-70e25813eb80?w=800";
        "https://images.unsplash.com/photo-1536376072261-38c75010e6c9?w=800"] |};
   {| prop_id := "9";
     title := "فيلا عصرية في المحمدية";
     price := "";
     location := "جدة، حي المحمدية، شارع التحلية";
     description := "فيلا عصرية مساحتها 400 متر مربع. 4 غرف نوم ماستر. حديقة خاصة ومسبح. قريبة من المولات والمطاعم.";
     prop_type := "فيلا";
     images :=
       ["https://images.unsplash.com/photo-1564013799919-ab600027ffc6?w=800";
        "https://images.unsplash.com/photo-1583608205776-bfd35f0d9f83?w=800";
        "https://images.unsplash.com/photo-1600585154526-990dced4db0d?w=800"] |};
   {| prop_id := "10";
     title := "شقة بإطلالة بحرية";
     price := "";
     location := "جدة، حي الشاطئ، أبراج الكورنيش";
     description := "شقة فاخرة مساحتها 200 متر مربع. 3 غرف نوم. إطلالة مباشرة على البحر. تشطيب فاخر.";
     prop_type := "شقة";
     images :=
       ["https://images.unsplash.com/photo-1522708323590-d24dbb6b0267?w=800";
        "https://images.unsplash.com/photo-1560448204-e02f11c3d0e2?w=800";
        "https://images.unsplash.com/photo-1502672260266-1c1ef2d93688?w=800"] |};
   {| prop_id := "11";
     title := "أرض سكنية في العزيزية";
     price := "";
     location := "الرياض، حي العزيزية، قريبة من الدائري";
     description := "أرض سكنية مساحتها 750 متر مربع. زاوية على شارعين. موقع مميز قريب من الخدمات.";
     prop_type := "أرض";
     images :=
       ["https://images.unsplash.com/photo-1500382017468-9049fed747ef?w=800";
        "https://images.unsplash.com/photo-1595880500386-4b33823094d4?w=800"] |};
   {| prop_id := "12";
     title := "فيلا كلاسيكية في الروضة";
     price := "";
     location := "الرياض، حي الروضة، شارع الثلاثين";
     description := "فيلا كلاسيكية مساحتها 550 متر مربع. 6 غرف نوم. مجلس رجال ونساء منفصل. حوش واسع.";
     prop_type := "فيلا";
     images :=
       ["https://images.unsplash.com/photo-1600596542815-ffad4c1539a9?w=800";
        "https://images.unsplash.com/photo-1600607687939-ce8a6c25118c?w=800";
        "https://images.unsplash.com/photo-1600566753190-17f0baa2a6c3?w=800"] |}].

(** [q.includes(word) && locationMatch.includes(place)], for each place a
    query can name. *)
Definition places : list (string * string) :=
  [("رياض", "الرياض"); ("جدة", "جدة"); ("دمام", "الدمام"); ("خبر", "الخبر");
   ("حطين", "حطين"); ("ملقا", "الملقا"); ("نرجس", "النرجس");
   ("ياسمين", "الياسمين"); ("عليا", "العليا"); ("روضة", "الروضة");
   ("شاطئ", "الشاطئ"); ("محمدية", "المحمدية")].

Definition hasLocationQuery (q : string) : bool :=
  existsb (fun wp => Js.includes q wp.1) places.

Definition hasTypeQuery (q : string) : bool :=
  Js.includes q "فيلا" || Js.includes q "شقة" || Js.includes q "شقق"
  || Js.includes q "أرض" || Js.includes q "ارض".

Definition locationMatches (q : string) (p : Property) : bool :=
  let locationMatch := Js.toLowerCase (location p) in
  existsb (fun wp => Js.includes q wp.1 && Js.includes locationMatch wp.2) places.

Definition typeMatches (q : string) (p : Property) : bool :=
  let typeMatch := Js.toLowerCase (prop_type p) in
  (Js.includes q "فيلا" && (typeMatch =? "فيلا")%string)
  || ((Js.includes q "شقة" || Js.includes q "شقق") && (typeMatch =? "شقة")%string)
  || ((Js.includes q "أرض" || Js.includes q "ارض") && (typeMatch =? "أرض")%string).

(** The predicate of the [filter] call. *)
Definition matches (q : string) (p : Property) : bool :=
  if hasLocationQuery q && negb (locationMatches q p) then false
  else if hasTypeQuery q && negb (typeMatches q p) then false
  else true.

(** [results.findIndex(p => p.id === id)], then [splice] and [push]. *)
Definition move_to_end (id : string) (results : list Property) : list Property :=
  match list_find (fun p => prop_id p = id) results with
  | Some (lastIndex, lastShown) => delete lastIndex results ++ [lastShown]
  | None => results
  end.

Record SearchResult := {
  found : list Property;   (* what the promise resolves to *)
  after : Z;               (* the delay of the timer that resolves it *)
  lastShown : option string (* the module variable [lastShownPropertyId] *)
}.

Definition searchProperties (query : string) (lastShownPropertyId : option string)
    : SearchResult :=
  let q := Js.toLowerCase query in
  let results := List.filter (matches q) MOCK_PROPERTIES in
  match results with
  | [] => {| found := []; after := 500; lastShown := lastShownPropertyId |}
  | _ :: _ =>
      let results :=
        match lastShownPropertyId with
        | Some id =>
            if (1 <? length results)%nat && Js.truthy id
            then move_to_end id results
            else results
        | None => results
        end in
      {| found := results;
         after := 800;
         lastShown := match results with
                      | first :: _ => Some (prop_id first)
                      | [] => lastShownPropertyId
                      end |}
  end.

Definition typeRequested (type : string) (p : Property) : bool :=
  (Js.includes type "فيلا" && (prop_type p =? "فيلا")%string)
  || (Js.includes type "شقة" && (prop_type p =? "شقة")%string)
  || (Js.includes type "شقق" && (prop_type p =? "شقة")%string)
  || (Js.includes type "أرض" && (prop_type p =? "أرض")%string)
  || (Js.includes type "ارض" && (prop_type p =? "أرض")%string).

(** The body of the [forEach] callback. *)
Definition addNeighborhood (type : string) (locations : list string) (p : Property)
    : list string :=
  if typeRequested type p then
    match JsText.split "،" (location p) with
    | _ :: second :: _ =>
        let neighborhood := JsText.trim second in
        if bool_decide (neighborhood ∈ locations) then locations
        else locations ++ [neighborhood]
    | _ => locations
    end
  else locations.

Definition getAlternativeLocations (propertyType : string) : list string :=
  let type := Js.toLowerCase propertyType in
  fold_left (addNeighborhood type) MOCK_PROPERTIES [].

End Lookup.

(** ** Analytics and leads (services/mockApi) *)

Module Analytics.

#[global] Instance ConversationIntent_eq_dec : EqDecision ConversationIntent.
Proof. solve_decision. Defined.

#[global] Instance ConversationStatus_eq_dec : EqDecision ConversationStatus.
Proof. solve_decision. Defined.

(** [counts[k]++] on a record with one counter for each value of [K]. *)
Definition bump {K} `{EqDecision K} (k : K) (counts : K → nat) : K → nat :=
  fun x => if decide (x = k) then S (counts x) else counts x.

(** [counts[k] = (counts[k] || 0) + 1] on an object used as a map; the
    entries are kept in the order in which their keys were first set.  The
    keys are the texts that [saveInquiry] writes in the fields
    [propertyType] and [location], words that are neither array indices
    nor names of [Object.prototype]. *)
Fixpoint count (k : string) (counts : list (string * nat)) : list (string * nat) :=
  match counts with
  | [] => [(k, 1%nat)]
  | (k', n) :: rest =>
      if (k' =? k)%string then (k', S n) :: rest else (k', n) :: count k rest
  end.

Record Tally := {
  t_intentCounts : ConversationIntent → nat;
  t_propertyTypeCounts : list (string * nat);
  t_locationCounts : list (string * nat);
  t_statusCounts : ConversationStatus → nat;
  t_sessions : gset string
}.

Definition emptyTally : Tally :=
  {| t_intentCounts := fun _ => 0%nat;
     t_propertyTypeCounts := [];
     t_locationCounts := [];
     t_statusCounts := fun _ => 0%nat;
     t_sessions := ∅ |}.

Definition countIf (key : option string) (counts : list (string * nat))
    : list (string * nat) :=
  match key with
  | Some k => if Js.truthy k then count k counts else counts
  | None => counts
  end.

(** The body of [inquiries.forEach]. *)
Definition tally (t : Tally) (inq : ConversationLog) : Tally :=
  {| t_intentCounts := bump (intent inq) (t_intentCounts t);
     t_statusCounts := bump (status inq) (t_statusCounts t);
     t_sessions := {[sessionId inq]} ∪ t_sessions t;
     t_propertyTypeCounts := countIf (propertyType inq) (t_propertyTypeCounts t);
     t_locationCounts := countIf (log_location inq) (t_locationCounts t) |}.

(** [`${conversionRate}%`]: the text ["0%"] when nothing was searched, and
    otherwise the text of [((priceInquiries / searches) * 100).toFixed(1)],
    of which only the two counts are kept. *)
Inductive ConversionRate :=
| NoSearch
| Percent (priceInquiries searches : nat).

(** [Object.entries(counts).sort((a, b) => b[1] - a[1])[0]?.[0] || 'N/A'] *)
Definition mostSearched (counts : list (string * nat)) : string :=
  match JsText.sort_by_count_desc counts with
  | (k, _) :: _ => Js.or_else k "N/A"
  | [] => "N/A"
  end.

Record Report := {
  totalConversations : nat;
  totalSessions : nat;
  intentCounts : ConversationIntent → nat;
  propertyTypeCounts : list (string * nat);
  locationCounts : list (string * nat);
  statusCounts : ConversationStatus → nat;
  conversionRate : ConversionRate;
  mostSearchedType : string;
  mostSearchedLocation : string
}.

Definition getAnalytics (s : MockApi.Store) : Report :=
  let inquiries := MockApi.manasat_inquiries s in
  let t := fold_left tally inquiries emptyTally in
  {| totalConversations := length inquiries;
     totalSessions := size (t_sessions t);
     intentCounts := t_intentCounts t;
     propertyTypeCounts := t_propertyTypeCounts t;
     locationCounts := t_locationCounts t;
     statusCounts := t_statusCounts t;
     conversionRate :=
       if (0 <? t_intentCounts t search)%nat
       then Percent (t_intentCounts t price_inquiry) (t_intentCounts t search)
       else NoSearch;
     mostSearchedType := mostSearched (t_propertyTypeCounts t);
     mostSearchedLocation := mostSearched (t_locationCounts t) |}.

Record LeadData := {
  lead_name : string;
  lead_phone : string;
  lead_city : string;
  lead_propertyType : string
}.

(** A lead as [saveLead] stores it under the localStorage key
    [manasat_leads]: [{ ...data, id, timestamp }]. *)
Record StoredLead := {
  lead_data : LeadData;
  lead_id : string;
  lead_timestamp : string
}.

End Analytics.

(** ** The dashboard (pages/Dashboard) *)

Module Dashboard.

Definition headers : list string :=
  ["الاسم"; "رقم الجوال"; "المدينة"; "نوع العقار"; "التاريخ"].

Definition fields (lead : Analytics.StoredLead) : list string :=
  [Analytics.lead_name (Analytics.lead_data lead);
   Analytics.lead_phone (Analytics.lead_data lead);
   Analytics.lead_city (Analytics.lead_data lead);
   Analytics.lead_propertyType (Analytics.lead_data lead);
   Analytics.lead_timestamp lead].

Definition row (lead : Analytics.StoredLead) : string :=
  Js.join "," (fields lead).

Definition newline : string := String (ascii_of_nat 10) "".

Definition csvContent (leads : list Analytics.StoredLead) : string :=
  Js.join newline (Js.join "," headers :: map row leads).

(** [exportLeads]: the text of the blob and the name of the download;
    [isoNow] is [new Date().toISOString()]. *)
Definition exportLeads (isoNow : string) (leads : list Analytics.StoredLead)
    : string * string :=
  let BOM := JsText.utf8 [239; 187; 191]%nat in
  (BOM +:+ csvContent leads,
   "leads_" +:+ default "" (head (JsText.split "T" isoNow)) +:+ ".csv").

End Dashboard.

(** ** The error boundary (components/ErrorBoundary) *)

Module ErrorBoundary.

Record ErrorEntry := {
  entry_timestamp : string;
  entry_message : string;
  entry_stack : option string;
  entry_componentStack : option string
}.

(** [componentDidCatch] on the localStorage key [manasat_error_log]:
    [Some log] when the key is absent ([log = []]) or holds an array,
    [None] when what it holds makes [JSON.parse] or [push] throw, in which
    case the [catch] leaves the key as it is.  [isoNow] is
    [new Date().toISOString()]. *)
Definition componentDidCatch (isoNow : string) (e : JsError)
    (stack componentStack : option string)
    (errorLog : option (list ErrorEntry)) : option (list ErrorEntry) :=
  match errorLog with
  | Some log =>
      let entry :=
        {| entry_timestamp := isoNow;
           entry_message := message e;
           entry_stack := stack;
           entry_componentStack := componentStack |} in
      Some (Js.slice_from (-20) (log ++ [entry]))
  | None => None
  end.

End ErrorBoundary.

(** ** The gallery (components/Gallery) *)

Module Gallery.

(** The state of the component; [closed] counts the calls of [onClose],
    and [currentIndex] is [None] when it is [NaN]. *)
Record State := {
  currentIndex : option Z;
  cycleCount : nat;
  isPaused : bool;
  progress : Z;
  closed : nat
}.

Definition opened : State :=
  {| currentIndex := Some 0%Z; cycleCount := 0; isPaused := false;
     progress := 0; closed := 0 |}.

(** The effect that closes the gallery after two cycles; it runs when
    [cycleCount] has changed. *)
Definition closeAfterTwoCycles (before : nat) (g : State) : State :=
  if bool_decide (cycleCount g ≠ before) && (2 <=? cycleCount g)%nat
  then {| currentIndex := currentIndex g; cycleCount := cycleCount g;
          isPaused := isPaused g; progress := progress g;
          closed := S (closed g) |}
  else g.

(** The updater shared by [goNext] and the auto-slide timer, run once for
    each update and followed by [setProgress(0)]; [len] is
    [property.images.length]. *)
Definition advance (len : nat) (g : State) : State :=
  let nextIndex := currentIndex g ≫= (fun prev => JsText.rem (prev + 1) (Z.of_nat len)) in
  let wrapped := bool_decide (nextIndex = Some 0%Z) in
  closeAfterTwoCycles (cycleCount g)
    {| currentIndex := nextIndex;
       cycleCount := if wrapped then S (cycleCount g) else cycleCount g;
       isPaused := isPaused g;
       progress := 0;
       closed := closed g |}.

Definition goNext (len : nat) (g : State) : State := advance len g.

Definition goPrev (len : nat) (g : State) : State :=
  {| currentIndex :=
       currentIndex g ≫= (fun prev =>
         JsText.rem (prev - 1 + Z.of_nat len) (Z.of_nat len));
     cycleCount := cycleCount g;
     isPaused := isPaused g;
     progress := 0;
     closed := closed g |}.

(** The 5 s interval, which exists only while the gallery is not paused. *)
Definition autoSlide (len : nat) (g : State) : State :=
  if isPaused g then g else advance len g.

End Gallery.

(** ** The page around the handlers (App) *)

Module Page.

(** The store of the component with the one state variable the handlers
    above do not read. *)
Record State := {
  app : AppState;
  showDashboard : bool
}.

Definition initial : State := {| app := initialState; showDashboard := false |}.

Definition toggleSession (env : ConnectEnv) (amb : Ambient) (cl : Closure)
    (st : AppState) : AppState :=
  if cl_isRecording cl then stopSession amb cl st else connectSession env st.

Definition handleOpenDashboard (amb : Ambient) (cl : Closure) (s : State) : State :=
  {| app := stopAudioPlayback (stopSession amb cl (app s)); showDashboard := true |}.

Definition handleCloseDashboard (s : State) : State :=
  {| app := setActiveProperty None (setPropertyHistory (fun _ => []) (app s));
     showDashboard := false |}.

(** The button that shows the last property again. *)
Definition showLastProperty (st : AppState) : AppState := setShowGallery true st.

(** [onReset] of the error boundary around the gallery. *)
Definition resetGallery (st : AppState) : AppState := setShowGallery false st.

(** [onInterested], as passed to the gallery. *)
Definition onInterested (st : AppState) : AppState :=
  set_showLeadFormRef true (setShowLeadForm true st).

(** The gallery's button: [if (onInterested) onInterested(); onClose()]. *)
Definition interested (st : AppState) : AppState :=
  handleCloseGallery (onInterested st).

(** [onSubmitSuccess], as passed to the lead form. *)
Definition onSubmitSuccess (st : AppState) : AppState :=
  let st := setShowLeadForm false st in
  let st := set_showLeadFormRef false st in
  let st := stopAudioPlayback st in
  let st := setStatusMessage "تم استلام طلبك بنجاح" st in
  setNotification
    (Some "تم إرسال بياناتك بنجاح! سيتواصل معك فريق المبيعات قريباً") st.

(** [onClose] of the notification, also called by its timer. *)
Definition closeNotification (st : AppState) : AppState := setNotification None st.

(** What can happen to the page: a task of the event loop above, or one of
    the callbacks of the rendered tree. *)
Inductive Action :=
| Task (e : Event)
| SessionToggled (env : ConnectEnv) (amb : Ambient) (cl : Closure)
| DashboardOpened (amb : Ambient) (cl : Closure)
| DashboardClosed
| LastPropertyClicked
| GalleryReset
| Interested
| LeadSubmitted
| NotificationClosed.

Definition on_app (f : AppState → AppState) (s : State) : State :=
  {| app := f (app s); showDashboard := showDashboard s |}.

Definition step (s : State) (a : Action) : State :=
  match a with
  | Task e => on_app (fun st => step Lookup.getAlternativeLocations st e) s
  | SessionToggled env amb cl => on_app (toggleSession env amb cl) s
  | DashboardOpened amb cl => handleOpenDashboard amb cl s
  | DashboardClosed => handleCloseDashboard s
  | LastPropertyClicked => on_app showLastProperty s
  | GalleryReset => on_app resetGallery s
  | Interested => on_app interested s
  | LeadSubmitted => on_app onSubmitSuccess s
  | NotificationClosed => on_app closeNotification s
  end.

Definition run (s : State) (actions : list Action) : State :=
  fold_left step actions s.

End Page.

(** ** Vocabulary of the further properties *)

(** The delays of the waits of a trace, oldest first. *)
Definition waits (tr : list RetryEvent) : list (option Z) :=
  omap (fun e => match e with Waited _ d => Some d | _ => None end) tr.

(** The trace of a call whose attempts [1 .. k] all fail with a retryable
    error. *)
Fixpoint failed_attempts (cb : option (nat → AppState → AppState)) (first k : nat)
    : list RetryEvent :=
  match k with
  | O => []
  | S k' =>
      Invoked first :: observed cb first
        ++ [Waited first (delays !! (first - 1))]
        ++ failed_attempts cb (S first) k'
  end.

Definition micPrompt : string := "يرجى السماح بالوصول للميكروفون".

(** Events that run [connectSession]. *)
Definition connects (e : Event) : bool :=
  match e with
  | ConnectRequested _ | TimerFired _ _ _ _ => true
  | _ => false
  end.

(** The store as [stopSession] leaves it. *)
Definition at_rest (st : AppState) : Prop :=
  abortControllerRef (conn st) = None
  ∧ has_text st = false
  ∧ MockApi.currentSessionId (api st) = None
  ∧ sourcesRef (audio st) = ∅
  ∧ nextStartTimeRef (audio st) = 0%Z
  ∧ context_open (outputAudioContextRef (audio st)) = false
  ∧ context_open (audioContextRef (audio st)) = false
  ∧ sessionRef (conn st) = None
  ∧ sessionPromiseRef (conn st) = None
  ∧ scriptProcessorRef (audio st) = false
  ∧ streamRef (audio st) = false
  ∧ isRecording (ui st) = false
  ∧ statusMessage (ui st) = idlePrompt.

(** The callbacks that change [showGallery] without [showGalleryRef]. *)
Definition keeps_gallery_ref (a : Page.Action) : bool :=
  match a with
  | Page.LastPropertyClicked | Page.GalleryReset => false
  | _ => true
  end.

(** What the screen keeps of the conversation: at most five turns, no
    property twice in the history, and the refs that mirror the lead form
    and, when [mirrored], the gallery. *)
Definition screen_inv (mirrored : bool) (st : AppState) : Prop :=
  length (transcript (ui st)) ≤ 5
  ∧ NoDup (prop_id <$> propertyHistory (ui st))
  ∧ showLeadForm (ui st) = showLeadFormRef (flags st)
  ∧ (mirrored = true → showGallery (ui st) = showGalleryRef (flags st)).

(** What the properties of the screen read of a store. *)
Definition screen_view (st : AppState)
    : list (string * string) * list Property * bool * bool * bool * bool :=
  (transcript (ui st), propertyHistory (ui st),
   showLeadForm (ui st), showLeadFormRef (flags st),
   showGallery (ui st), showGalleryRef (flags st)).

(** A handler keeps the screen well formed and the history it found. *)
Definition screen_step (mirrored : bool) (st st' : AppState) : Prop :=
  (screen_inv mirrored st → screen_inv mirrored st')
  ∧ propertyHistory (ui st) `prefix_of` propertyHistory (ui st').

(** No sound is scheduled and none can be. *)
Definition muted (st : AppState) : Prop :=
  sourcesRef (audio st) = ∅
  ∧ context_open (outputAudioContextRef (audio st)) = false.

(** A call of [saveInquiry]: the clock at the call, and its arguments. *)
Record Save := {
  save_amb : Ambient;
  save_userMessage : string;
  save_botResponse : string;
  save_options : option MockApi.InquiryOptions
}.

(** Calls made one after the other, with the records they return. *)
Fixpoint save_all (calls : list Save) (s : MockApi.Store)
    : list ConversationLog * MockApi.Store :=
  match calls with
  | [] => ([], s)
  | c :: rest =>
      let '(log, s1) :=
        MockApi.saveInquiry (save_amb c) (save_userMessage c) (save_botResponse c)
          (save_options c) s in
      let '(logs, s2) := save_all rest s1 in
      (log :: logs, s2)
  end.

(** How many records have the value [a] in a field. *)
Definition logs_with {A} `{EqDecision A} (field : ConversationLog → A) (a : A)
    (logs : list ConversationLog) : nat :=
  length (List.filter (fun log => bool_decide (field log = a)) logs).

(** A distribution counts the records by the non-empty values of a
    field, each value once. *)
Definition distribution (field : ConversationLog → option string)
    (counts : list (string * nat)) (logs : list ConversationLog) : Prop :=
  NoDup (counts.*1)
  ∧ ∀ k n, (k, n) ∈ counts
           ↔ Js.truthy k = true ∧ 0 < n ∧ n = logs_with field (Some k) logs.

(** The entry the report names as the most searched one. *)
Definition most_searched (field : ConversationLog → option string)
    (top : string) (logs : list ConversationLog) : Prop :=
  ((∀ k, Js.truthy k = true → logs_with field (Some k) logs = 0) → top = "N/A")
  ∧ ((∃ k, Js.truthy k = true ∧ 0 < logs_with field (Some k) logs) →
     Js.truthy top = true
     ∧ 0 < logs_with field (Some top) logs
     ∧ ∀ k, Js.truthy k = true →
            logs_with field (Some k) logs ≤ logs_with field (Some top) logs).

(** A lead whose fields can be read back from the exported file: none
    holds a comma or a line break. *)
Definition plain (lead : Analytics.StoredLead) : Prop :=
  Forall (fun field => Js.includes field "," = false
                       ∧ Js.includes field Dashboard.newline = false)
         (Dashboard.fields lead).

(** The gallery after the auto-slide timer has fired [k] times. *)
Fixpoint advanced (len k : nat) : Gallery.State :=
  match k with
  | O => Gallery.opened
  | S k' => Gallery.autoSlide len (advanced len k')
  end.

(** ** Further scenarios *)

(** The second call is the first that succeeds. *)
Definition second_call_succeeds : RetryEnv nat :=
  quiet (fun k => match k with
                  | 1 => Rejected networkError
                  | _ => Resolved 7
                  end).

(** The microphone is refused at every request. *)
Definition micRefused : ConnectEnv :=
  {| getUserMedia := quiet (fun _ => Rejected permissionDenied);
     liveConnect := quiet (fun _ => Resolved 1) |}.

(** A greeting, then a question about the price of a villa. *)
Definition greet_then_ask : list Save :=
  [{| save_amb := amb0; save_userMessage := "مرحبا"; save_botResponse := "أهلا";
      save_options := None |};
   {| save_amb := amb0; save_userMessage := "كم سعر الفيلا";
      save_botResponse := "تفضل"; save_options := None |}].

(** A lead as the form submits it. *)
Definition lead0 : Analytics.StoredLead :=
  {| Analytics.lead_data :=
       {| Analytics.lead_name := "سارة"; Analytics.lead_phone := "0500000000";
          Analytics.lead_city := "الرياض"; Analytics.lead_propertyType := "فيلا" |};
     Analytics.lead_id := "1700000000000";
     Analytics.lead_timestamp := "2023-11-14" |}.


(** * Properties *)

(** ** Tactics *)

Arguments MockApi.saveInquiry : simpl never.
Arguments previous_index : simpl never.
Arguments within : simpl never.
Arguments at_number : simpl never.

(** Case analysis on every test a handler makes. *)
Ltac crunch :=
  repeat (cbn in *;
    match goal with
    | |- context [if ?b then _ else _] => destruct b eqn:?
    | |- context [match ?o with Some _ => _ | None => _ end] => destruct o eqn:?
    | |- context [let '(_, _) := ?p in _] => destruct p eqn:?
    | |- context [match ?n with Integer _ => _ | Fraction _ => _ end] =>
        destruct n eqn:?
    end);
  cbn in *.

(** The dispatcher, down to the setters. *)
Ltac unfold_dispatcher :=
  unfold handleToolCall, finish, tool_effect, show_previous_property,
    open_gallery, closeLeadFormForSearch, sendToolResponse,
    handleCloseGallery, setTimeout in *.

(** A closed statement, by evaluation of each of its parts. *)
Ltac evaluate :=
  cbn zeta;
  repeat match goal with |- _ ∧ _ => split end;
  vm_compute; reflexivity.

(** Case analysis on the tests of the goal only. *)
Ltac cases :=
  repeat (cbn;
    match goal with
    | |- context [let '(_, _) := ?p in _] => destruct p eqn:?
    | |- context [if ?b then _ else _] => destruct b eqn:?
    | |- context [match ?o with Some _ => _ | None => _ end] => destruct o eqn:?
    | |- context [match ?n with Integer _ => _ | Fraction _ => _ end] =>
        destruct n eqn:?
    end);
  cbn.

(** ** The log sink keeps the last 200 records *)

Lemma slice_from_neg {A} (n : nat) (l : list A) :
  0 < n → Js.slice_from (- Z.of_nat n) l = drop (length l - n) l.
Proof.
  intros Hn. unfold Js.slice_from. f_equal.
  destruct (Z.ltb_spec (- Z.of_nat n) 0); lia.
Qed.

Lemma last_drop_lt {A} (k : nat) (l : list A) :
  k < length l → last (drop k l) = last l.
Proof.
  revert k. induction l as [|x l IH]; intros k Hk; simpl in *; [lia|].
  destruct k as [|k]; [done|]. simpl.
  rewrite IH by lia. destruct l; simpl in *; [lia | done].
Qed.

(** C10. Every [saveInquiry] call appends the new record to the stored
    list and stores the last 200 entries of the result: the stored list is
    the suffix of the full history that starts 200 records from its end, it
    never holds more than 200 records, older records are gone and the new
    record is its last element. *)
Theorem C10_saveInquiry_keeps_last_200
    (amb : Ambient) (userMessage botResponse : string)
    (options : option MockApi.InquiryOptions) (s : MockApi.Store) :
  let log := (MockApi.saveInquiry amb userMessage botResponse options s).1 in
  let stored := MockApi.manasat_inquiries
                  (MockApi.saveInquiry amb userMessage botResponse options s).2 in
  let all := MockApi.manasat_inquiries s ++ [log] in
  stored = drop (length all - 200) all
  ∧ length stored = min 200 (length all)
  ∧ length stored ≤ 200
  ∧ last stored = Some log.
Proof.
  unfold MockApi.saveInquiry.
  destruct (MockApi.getSessionId amb s) as [sid s1]. cbn zeta. simpl fst; simpl snd.
  change (-200)%Z with (- Z.of_nat 200)%Z.
  rewrite slice_from_neg by lia.
  set (all := MockApi.manasat_inquiries s ++ _).
  assert (Hlen : 0 < length all) by (subst all; rewrite length_app; simpl; lia).
  cbn [MockApi.manasat_inquiries].
  split; [done|]. rewrite length_drop. split; [lia|]. split; [lia|].
  rewrite last_drop_lt by lia. subst all. by rewrite last_snoc.
Qed.

(** ** The retry executor *)

Section RetryFacts.

Context {T : Type} (env : RetryEnv T) (max : nat)
        (cb : option (nat → AppState → AppState)).

Lemma observe_events k st : (observe cb k st).2 = observed cb k.
Proof. unfold observe, observed. by destruct cb. Qed.

(** Every run of the loop with iterations left is one iteration, followed
    by the rest of the loop when the iteration asks for it. *)
Lemma retry_loop_iteration remaining attempt lastError st :
  ∃ r0 head next,
    Iteration env max cb attempt st r0 head next ∧
    match next with
    | None =>
        ∃ st', retry_loop env max cb (S remaining) attempt lastError st
               = (r0, st', head)
    | Some (e, st1) =>
        r0 = Rejected e ∧
        retry_loop env max cb (S remaining) attempt lastError st
        = ((retry_loop env max cb remaining (S attempt) e st1).1,
           head ++ (retry_loop env max cb remaining (S attempt) e st1).2)
    end.
Proof.
  cbn [retry_loop].
  destruct (signal_aborted st) eqn:Hab.
  { eexists _, _, None. split; [by apply it_aborted|]. eauto. }
  destruct (attempt_result env attempt) as [v|e] eqn:Hres.
  { eexists _, _, None. split; [by eapply it_resolved|]. eauto. }
  destruct (isFatal e) eqn:Hfatal.
  { eexists _, _, None. split; [by eapply it_fatal|]. eauto. }
  destruct (Nat.ltb_spec attempt max) as [Hlt|Hge].
  - pose proof (observe_events attempt (interfere (during_attempt env attempt) st)) as Hobs.
    destruct (observe cb attempt _) as [st1 obs]. simpl in Hobs. subst obs.
    destruct (abort_fired _ _ _).
    + eexists _, _, None. split; [by eapply it_wait_cancelled|]. eauto.
    + eexists _, _, (Some (e, interfere (during_wait env attempt) st1)).
      split; [by eapply it_retry|]. split; [done|].
      by destruct (retry_loop env max cb remaining (S attempt) e _) as [[??]?].
  - eexists _, _, (Some (e, interfere (during_attempt env attempt) st)).
    split; [by eapply it_last|]. split; [done|].
    by destruct (retry_loop env max cb remaining (S attempt) e _) as [[??]?].
Qed.

Lemma invoked_in_observed k j : Invoked k ∉ observed cb j.
Proof.
  unfold observed. destruct cb.
  - intros Hin%list_elem_of_singleton. discriminate Hin.
  - apply not_elem_of_nil.
Qed.

Lemma invoked_in_wait_head k j d :
  Invoked k ∈ Invoked j :: observed cb j ++ [Waited j d] → k = j.
Proof.
  rewrite elem_of_cons, elem_of_app, list_elem_of_singleton.
  intros [Heq|[Hin|Heq]].
  - by injection Heq.
  - by apply invoked_in_observed in Hin.
  - discriminate Heq.
Qed.

Lemma iteration_head_invoked attempt st r0 head next k :
  Iteration env max cb attempt st r0 head next → Invoked k ∈ head → k = attempt.
Proof.
  destruct 1; intros Hin;
    try (by apply invoked_in_wait_head in Hin);
    try (by apply list_elem_of_singleton in Hin; injection Hin).
  by apply elem_of_nil in Hin.
Qed.

Lemma invocations_app tr1 tr2 :
  invocations (tr1 ++ tr2) = invocations tr1 + invocations tr2.
Proof. unfold invocations. by rewrite List.filter_app, length_app. Qed.

Lemma invocations_observed k : invocations (observed cb k) = 0.
Proof. unfold observed. by destruct cb. Qed.

Lemma iteration_head_count attempt st r0 head next :
  Iteration env max cb attempt st r0 head next → invocations head ≤ 1.
Proof.
  destruct 1; try (cbn; lia);
    change (Invoked attempt :: ?l) with ([Invoked attempt] ++ l);
    rewrite !invocations_app, invocations_observed; cbn; lia.
Qed.

(** The loop, split at its first iteration ([retry_loop_iteration]
    with the projections named). *)
Lemma retry_loop_cases remaining attempt lastError st :
  let res := retry_loop env max cb (S remaining) attempt lastError st in
  ∃ r0 head next,
    Iteration env max cb attempt st r0 head next ∧
    match next with
    | None => res.1.1 = r0 ∧ res.2 = head
    | Some (e, st1) =>
        let rec := retry_loop env max cb remaining (S attempt) e st1 in
        res.1.1 = rec.1.1 ∧ res.2 = head ++ rec.2
    end.
Proof.
  destruct (retry_loop_iteration remaining attempt lastError st)
    as (r0 & head & next & Hit & Hnext).
  exists r0, head, next. split; [done|].
  destruct next as [[e st1]|].
  - destruct Hnext as [-> ->]. done.
  - destruct Hnext as [st' ->]. done.
Qed.

(** Case analysis on the first iteration of a loop that has iterations
    left: the six cases of [Iteration], with the result and the trace of
    the loop rewritten accordingly. *)
Ltac first_iteration remaining attempt lastError st :=
  let Hit := fresh "Hit" in
  let Hr := fresh "Hr" in
  let Htr := fresh "Htr" in
  destruct (retry_loop_cases remaining attempt lastError st)
    as (? & ? & ? & Hit & Hres);
  destruct Hit; cbn beta iota zeta in Hres; destruct Hres as [Hr Htr];
  rewrite ?Hr, ?Htr in *; clear Hr Htr.

Lemma retry_loop_range remaining attempt lastError st k :
  Invoked k ∈ (retry_loop env max cb remaining attempt lastError st).2 →
  attempt ≤ k < attempt + remaining.
Proof.
  revert attempt lastError st.
  induction remaining as [|remaining IH]; intros attempt lastError st.
  { cbn. by intros ?%elem_of_nil. }
  first_iteration remaining attempt lastError st; intros Hin;
    try (apply elem_of_app in Hin as [Hin|Hin]; [|apply IH in Hin; lia]);
    try (apply invoked_in_wait_head in Hin; lia);
    try (apply list_elem_of_singleton in Hin; injection Hin; lia).
  by apply elem_of_nil in Hin.
Qed.

Lemma retry_loop_invocations remaining attempt lastError st :
  invocations (retry_loop env max cb remaining attempt lastError st).2
  ≤ remaining.
Proof.
  revert attempt lastError st.
  induction remaining as [|remaining IH]; intros attempt lastError st.
  { cbn. lia. }
  destruct (retry_loop_cases remaining attempt lastError st)
    as (r0 & head & [[e st1]|] & Hit & Hres); cbn zeta in Hres;
    apply iteration_head_count in Hit.
  - destruct Hres as (_ & ->). rewrite invocations_app.
    specialize (IH (S attempt) e st1). lia.
  - destruct Hres as [_ ->]. lia.
Qed.

Lemma retry_loop_fatal remaining attempt lastError st k e :
  let res := retry_loop env max cb remaining attempt lastError st in
  Invoked k ∈ res.2 →
  attempt_result env k = Rejected e →
  isFatal e = true →
  res.1.1 = Rejected e ∧ ∃ pre, res.2 = pre ++ [Invoked k].
Proof.
  cbn zeta. revert attempt lastError st.
  induction remaining as [|remaining IH]; intros attempt lastError st.
  { cbn. by intros ?%elem_of_nil. }
  first_iteration remaining attempt lastError st; intros Hin Hk Hfatal.
  - by apply elem_of_nil in Hin.
  - apply list_elem_of_singleton in Hin. congruence.
  - apply list_elem_of_singleton in Hin. injection Hin as ->.
    split; [congruence|]. by exists [].
  - apply invoked_in_wait_head in Hin. congruence.
  - apply elem_of_app in Hin as [Hin|Hin].
    + apply invoked_in_wait_head in Hin. congruence.
    + destruct (IH _ _ _ Hin Hk Hfatal) as [-> [pre ->]].
      split; [done|]. eexists. by rewrite app_assoc.
  - apply elem_of_app in Hin as [Hin|Hin].
    + apply list_elem_of_singleton in Hin. congruence.
    + destruct (IH _ _ _ Hin Hk Hfatal) as [-> [pre ->]].
      split; [done|]. eexists. by rewrite app_assoc.
Qed.

Lemma retry_loop_transient remaining attempt lastError st k e :
  let res := retry_loop env max cb remaining attempt lastError st in
  Invoked k ∈ res.2 →
  attempt_result env k = Rejected e →
  isFatal e = false →
  k < max →
  ∃ pre post,
    res.2 = pre ++ (Invoked k :: observed cb k ++ [Waited k (delays !! (k - 1))])
                ++ post.
Proof.
  cbn zeta. revert attempt lastError st.
  induction remaining as [|remaining IH]; intros attempt lastError st.
  { cbn. by intros ?%elem_of_nil. }
  first_iteration remaining attempt lastError st; intros Hin Hk Hfatal Hlt.
  - by apply elem_of_nil in Hin.
  - apply list_elem_of_singleton in Hin. congruence.
  - apply list_elem_of_singleton in Hin. congruence.
  - apply invoked_in_wait_head in Hin as ->.
    exists [], []. by rewrite app_nil_r.
  - apply elem_of_app in Hin as [Hin|Hin].
    + apply invoked_in_wait_head in Hin as ->. by eexists [], _.
    + destruct (IH _ _ _ Hin Hk Hfatal Hlt) as (pre & post & ->).
      eexists (_ ++ pre), post. apply app_assoc.
  - apply elem_of_app in Hin as [Hin|Hin].
    + apply list_elem_of_singleton in Hin. injection Hin. lia.
    + destruct (IH _ _ _ Hin Hk Hfatal Hlt) as (pre & post & ->).
      eexists (_ ++ pre), post. apply app_assoc.
Qed.

Lemma retry_loop_final remaining attempt lastError st e :
  let res := retry_loop env max cb remaining attempt lastError st in
  attempt + remaining = S max →
  Invoked max ∈ res.2 →
  attempt_result env max = Rejected e →
  res.1.1 = Rejected e ∧ ∃ pre, res.2 = pre ++ [Invoked max].
Proof.
  cbn zeta. revert attempt lastError st.
  induction remaining as [|remaining IH]; intros attempt lastError st.
  { cbn. by intros _ ?%elem_of_nil. }
  first_iteration remaining attempt lastError st; intros Hsum Hin Hmax.
  - by apply elem_of_nil in Hin.
  - apply list_elem_of_singleton in Hin. congruence.
  - apply list_elem_of_singleton in Hin. injection Hin as ->.
    split; [congruence|]. by exists [].
  - apply invoked_in_wait_head in Hin. lia.
  - apply elem_of_app in Hin as [Hin|Hin].
    + apply invoked_in_wait_head in Hin. lia.
    + destruct (IH (S attempt) _ _ ltac:(lia) Hin Hmax) as [-> [pre ->]].
      split; [done|]. eexists. by rewrite app_assoc.
  - assert (attempt = max) as -> by lia.
    assert (remaining = 0) as -> by lia.
    cbn. split; [congruence|]. by exists [].
Qed.

Lemma replay_app tr1 tr2 st :
  replay env cb (tr1 ++ tr2) st = replay env cb tr2 (replay env cb tr1 st).
Proof. apply fold_left_app. Qed.

Lemma observe_replay k st : (observe cb k st).1 = replay env cb (observed cb k) st.
Proof. unfold observe, observed, replay. by destruct cb. Qed.

(** The store the loop ends with is the store it began with, taken
    through the events of the trace. *)
Lemma retry_loop_replay remaining attempt lastError st :
  (retry_loop env max cb remaining attempt lastError st).1.2
  = replay env cb (retry_loop env max cb remaining attempt lastError st).2 st.
Proof.
  revert attempt lastError st.
  induction remaining as [|remaining IH]; intros attempt lastError st; [done|].
  cbn [retry_loop].
  destruct (signal_aborted st); [done|].
  destruct (attempt_result env attempt) as [v|e]; [done|].
  destruct (isFatal e); [done|].
  destruct (attempt <? max).
  - pose proof (observe_events attempt (interfere (during_attempt env attempt) st))
      as Hobs.
    pose proof (observe_replay attempt (interfere (during_attempt env attempt) st))
      as Hstore.
    destruct (observe cb attempt _) as [st1 obs]. cbn [fst snd] in Hobs, Hstore.
    subst obs st1.
    change (Invoked attempt :: ?l) with ([Invoked attempt] ++ l).
    destruct (abort_fired _ _ _).
    + cbn [fst snd]. by rewrite !replay_app.
    + match goal with
      | |- context [retry_loop env max cb remaining (S attempt) e ?s] =>
          specialize (IH (S attempt) e s);
          destruct (retry_loop env max cb remaining (S attempt) e s) as [[r st2] tr]
      end.
      cbn [fst snd] in *. by rewrite !replay_app, IH.
  - specialize (IH (S attempt) e (interfere (during_attempt env attempt) st)).
    destruct (retry_loop env max cb remaining (S attempt) e _) as [[r st2] tr].
    cbn [fst snd] in *. by rewrite IH.
Qed.

End RetryFacts.

(** C1. [withRetry] calls the operation at most [maxAttempts] times, the
    calls being numbered from 1.  An attempt that fails with an error
    classified as fatal ends the call at once: that error is the result
    and the call of the operation is the last event, so no observer call,
    no wait and no further attempt follow.  An attempt [k < maxAttempts]
    that fails with any other error is followed by the observer call (when
    an observer was given) and then by the wait of [delays[k-1]], which is
    500, 1000 and 2000 ms for k = 1, 2, 3.  When the attempt numbered
    [maxAttempts] fails, its error is the result and nothing follows it.
    The events of the trace are what happened to the store, in that
    order: at each observer call the observer was applied, to the number
    of the attempt that had just failed, after that attempt and before the
    wait. *)
Theorem C1_withRetry_bounded_backoff {T} (env : RetryEnv T)
    (options : RetryOptions) (st : AppState) :
  let max := default 3 (maxAttempts options) in
  let r := (withRetry env options st).1.1 in
  let tr := (withRetry env options st).2 in
  invocations tr ≤ max
  ∧ (∀ k, Invoked k ∈ tr → 1 ≤ k ≤ max)
  ∧ (∀ k e, Invoked k ∈ tr → attempt_result env k = Rejected e →
       isFatal e = true →
       r = Rejected e ∧ ∃ pre, tr = pre ++ [Invoked k])
  ∧ (∀ k e, Invoked k ∈ tr → attempt_result env k = Rejected e →
       isFatal e = false → k < max →
       ∃ pre post,
         tr = pre ++ (Invoked k :: observed (onRetry options) k
                        ++ [Waited k (delays !! (k - 1))]) ++ post)
  ∧ (delays !! 0 = Some 500%Z ∧ delays !! 1 = Some 1000%Z
     ∧ delays !! 2 = Some 2000%Z)
  ∧ (∀ e, Invoked max ∈ tr → attempt_result env max = Rejected e →
       r = Rejected e ∧ ∃ pre, tr = pre ++ [Invoked max])
  ∧ (withRetry env options st).1.2 = replay env (onRetry options) tr st.
Proof.
  cbn zeta. unfold withRetry.
  set (max := default 3 (maxAttempts options)).
  split; [apply retry_loop_invocations|].
  split; [intros k Hk; apply retry_loop_range in Hk; lia|].
  split; [intros k e; apply retry_loop_fatal|].
  split; [intros k e; apply retry_loop_transient|].
  split; [done|].
  split; [|apply retry_loop_replay].
  intros e. apply retry_loop_final. lia.
Qed.

Lemma C1_withRetry_bounded_backoff_witness :
  (withRetry flaky_then_fatal reportAttempt initialState).1.1 = Rejected keyError
  ∧ (∃ pre post,
      (withRetry flaky_then_fatal reportAttempt initialState).2
      = pre ++ [Invoked 1; Observed 1; Waited 1 (Some 500%Z)] ++ post)
  ∧ (withRetry flaky_then_fatal reportAttempt initialState).1.2
    = replay flaky_then_fatal (onRetry reportAttempt)
        [Invoked 1; Observed 1; Waited 1 (Some 500%Z); Invoked 2] initialState
  ∧ statusMessage (ui (withRetry flaky_then_fatal reportAttempt initialState).1.2)
    = "جاري إعادة الاتصال (1/3)...".
Proof.
  destruct (C1_withRetry_bounded_backoff flaky_then_fatal reportAttempt initialState)
    as (_ & _ & Hfatal & Htransient & _ & _ & Hstore).
  split; [|split; [|split]].
  - apply (Hfatal 2 keyError); [|reflexivity|reflexivity].
    vm_compute. apply list_elem_of_further, list_elem_of_further,
      list_elem_of_further, list_elem_of_here.
  - apply (Htransient 1 networkError); [|reflexivity|reflexivity|vm_compute; lia].
    vm_compute. apply list_elem_of_here.
  - exact Hstore.
  - rewrite Hstore. reflexivity.
Defined.

(** ** Cancellation of the retry executor *)

Lemma stopSession_conn amb cl st :
  abortControllerRef (conn (stopSession amb cl st)) = None
  ∧ abortedSignals (conn (stopSession amb cl st))
    = match abortControllerRef (conn st) with
      | Some c => {[c]} ∪ abortedSignals (conn st)
      | None => abortedSignals (conn st)
      end
  ∧ sessionRef (conn (stopSession amb cl st)) = None
  ∧ sessionPromiseRef (conn (stopSession amb cl st)) = None
  ∧ reconnectAttemptsRef (conn (stopSession amb cl st))
    = reconnectAttemptsRef (conn st).
Proof.
  unfold stopSession, saveInquiry. crunch; done.
Qed.

(** A loop iteration that starts when [abortControllerRef] holds a
    controller whose signal has fired raises the cancelled error, without
    calling the operation. *)
Lemma aborted_ref_raises_cancelled {T} (env : RetryEnv T) max cb remaining
    attempt lastError st :
  signal_aborted st = true →
  retry_loop env max cb (S remaining) attempt lastError st
  = (Rejected cancelled, st, []).
Proof. intros Hab. cbn [retry_loop]. by rewrite Hab. Qed.

(** A [stopSession] during a backoff wait raises the cancelled error,
    provided the ref held a controller when the wait began. *)
Lemma wait_cancelled_raises_cancelled {T} (env : RetryEnv T) max cb remaining
    attempt lastError st e c amb cl :
  (∀ f k st, cb = Some f → conn (f k st) = conn st) →
  abortControllerRef (conn st) = Some c →
  c ∉ abortedSignals (conn st) →
  during_attempt env attempt = Quiet →
  attempt_result env attempt = Rejected e →
  isFatal e = false →
  attempt < max →
  during_wait env attempt = Stopped amb cl →
  (retry_loop env max cb (S remaining) attempt lastError st).1.1
  = Rejected cancelled.
Proof.
  intros Hcb Href Hfresh Hquiet Hres Hfatal Hlt Hstop. cbn [retry_loop].
  unfold signal_aborted. rewrite Href, bool_decide_eq_false_2 by done.
  rewrite Hquiet, Hres, Hfatal. cbn [interfere].
  destruct (Nat.ltb_spec attempt max); [|lia].
  assert (conn (observe cb attempt st).1 = conn st) as Hconn.
  { unfold observe. destruct cb as [f|] eqn:Hf; [by apply Hcb | done]. }
  destruct (observe cb attempt st) as [st1 obs]. cbn [fst] in Hconn.
  rewrite Hstop. cbn [interfere]. unfold abort_fired. rewrite Hconn, Href.
  destruct (stopSession_conn amb cl st1) as (_ & -> & _). rewrite Hconn, Href.
  rewrite bool_decide_eq_true_2 by done.
  rewrite bool_decide_eq_true_2 by set_solver. done.
Qed.

(** C2. A [stopSession] that runs while the first call of the operation
    is pending fires the signal of the controller and clears
    [abortControllerRef]; the loop reads the signal through the ref, so it
    does not see the cancellation: the wait is not interrupted, the
    operation is called a second time, and [withRetry] ends with the
    error of the operation instead of the cancelled error. *)
Theorem C2_stop_during_attempt_not_cancelled :
  let before_second := stopSession amb0 cl0 connecting in
  let res := withRetry stop_during_first_attempt micOptions connecting in
  0 ∈ abortedSignals (conn before_second)
  ∧ signal_aborted before_second = false
  ∧ res.2 = [Invoked 1; Observed 1; Waited 1 (Some 500%Z); Invoked 2]
  ∧ res.1.1 = Rejected permissionDenied
  ∧ res.1.1 ≠ Rejected cancelled.
Proof.
  cbn zeta. split; [by vm_compute|].
  split; [by vm_compute|]. split; [by vm_compute|].
  split; [by vm_compute|]. vm_compute. discriminate.
Qed.

(** The same stop during the wait that follows the first call is seen. *)
Lemma stop_during_wait_cancelled :
  (withRetry stop_during_first_wait micOptions connecting).1.1
  = Rejected cancelled.
Proof. by vm_compute. Qed.

(** Seen from [connectSession]: a session that was stopped while the
    microphone was being requested goes on connecting, and ends up live. *)
Lemma stopped_session_comes_alive :
  let st :=
    connectSession
      {| getUserMedia := stop_then_granted;
         liveConnect := quiet (fun _ => Resolved 1) |}
      initialState in
  0 ∈ abortedSignals (conn st) ∧ sessionRef (conn st) = Some 1.
Proof. cbn zeta. split; by vm_compute. Qed.

(** ** Interruption *)

Lemma handleToolCall_audio cl fc st :
  audio (handleToolCall cl fc st) = audio st.
Proof. unfold_dispatcher. crunch; done. Qed.

Lemma onToolCalls_audio cl fcs st :
  audio (onToolCalls cl fcs st) = audio st.
Proof.
  unfold onToolCalls. revert st.
  induction fcs as [|fc fcs IH]; intros st; [done|].
  cbn [fold_left]. by rewrite IH, handleToolCall_audio.
Qed.

Lemma onInterrupted_playback amb cl st :
  sourcesRef (audio (onInterrupted amb cl st)) = ∅
  ∧ nextStartTimeRef (audio (onInterrupted amb cl st)) = 0%Z.
Proof. unfold onInterrupted, saveInquiry. crunch; done. Qed.

Lemma after_interruption_audio amb cl m st :
  audio (onmessage_rest amb cl m st)
  = audio (if interrupted m then onInterrupted amb cl st else st).
Proof.
  unfold onmessage_rest, when.
  set (st1 := if interrupted m then _ else st).
  destruct (toolCall m); [rewrite onToolCalls_audio|];
    unfold onTurnComplete, onInputTranscription, onOutputTranscription,
      saveInquiry; crunch; done.
Qed.

Lemma onmessage_rest_playback amb cl m st :
  interrupted m = true →
  sourcesRef (audio (onmessage_rest amb cl m st)) = ∅
  ∧ nextStartTimeRef (audio (onmessage_rest amb cl m st)) = 0%Z.
Proof.
  intros Hint. rewrite after_interruption_audio, Hint.
  apply onInterrupted_playback.
Qed.

(** What the interruption block does, and the handlers that reach it: on
    a live session, whatever the playback state, the set of active sources
    is empty and the cursor is zero after the block itself, at the end of
    a handler that did not have to wait for a decode, and at the end of a
    handler resumed after the chunk of the message was decoded while the
    output context is still open. *)
Lemma interruption_block_clears_playback
    (amb : Ambient) (cl : Closure) (currentTime : Z) (m : LiveServerMessage)
    (st : AppState) :
  interrupted m = true →
  sessionRef (conn st) ≠ None →
  (sourcesRef (audio (onInterrupted amb cl st)) = ∅
   ∧ nextStartTimeRef (audio (onInterrupted amb cl st)) = 0%Z)
  ∧ (has_audio m && context_open (outputAudioContextRef (audio st)) = false →
     sourcesRef (audio (onmessage amb cl currentTime m st)) = ∅
     ∧ nextStartTimeRef (audio (onmessage amb cl currentTime m st)) = 0%Z)
  ∧ (∀ amb' duration st',
       context_open (outputAudioContextRef (audio st')) = true →
       sourcesRef (audio (onmessage_resume amb' cl m (Some duration) st')) = ∅
       ∧ nextStartTimeRef (audio (onmessage_resume amb' cl m (Some duration) st'))
         = 0%Z).
Proof.
  intros Hint Hlive. split; [apply onInterrupted_playback|]. split.
  - intros Hsync. unfold onmessage.
    destruct (sessionRef (conn st)); [|done]. rewrite Hsync.
    by apply onmessage_rest_playback.
  - intros amb' duration st' Hopen. unfold onmessage_resume.
    rewrite Hopen. by apply onmessage_rest_playback.
Qed.

(** Two sources are playing when the marker arrives in a message of its
    own. *)
Lemma lone_interruption_clears_playback :
  sourcesRef (audio (onmessage amb0 cl0 1000 interruptionMarker playing)) = ∅
  ∧ nextStartTimeRef (audio (onmessage amb0 cl0 1000 interruptionMarker playing)) = 0%Z.
Proof.
  apply (interruption_block_clears_playback amb0 cl0 1000 interruptionMarker playing);
    [reflexivity | by vm_compute | reflexivity].
Qed.

(** A handler that was waiting for a decode that fails ends there,
    whatever else the message carried. *)
Lemma failed_decode_skips_message amb cl m st :
  onmessage_resume amb cl m None st = st.
Proof. done. Qed.

(** C7 (the code does not do this). Two sources are playing and the
    cursor is two seconds ahead when a message arrives that carries the
    interruption marker and a chunk of audio; the chunk cannot be
    decoded.  The handler returns from its [catch] without having
    reached the interruption block: the two sources are still active and
    the cursor is where it was, although the session is live and no
    decode is pending any more. *)
Theorem C7_interruption_with_bad_chunk_keeps_playing :
  let st := run noAlternatives playing interrupted_by_bad_chunk in
  sessionRef (conn playing) = Some 1
  ∧ sourcesRef (audio playing) = {[0; 1]}
  ∧ nextStartTimeRef (audio playing) = 48000%Z
  ∧ pendingDecodes (runtime st) = []
  ∧ sessionRef (conn st) = Some 1
  ∧ sourcesRef (audio st) = {[0; 1]}
  ∧ size (sourcesRef (audio st)) = 2
  ∧ nextStartTimeRef (audio st) = 48000%Z.
Proof. evaluate. Qed.

(** ** [show_previous_property] *)

(** The handler works on the history of its closure with the index it was
    given, 1 standing in for a missing index and for 0.  For an integer
    [i] with [1 ≤ i ≤ len(history)] it makes [history[i-1]] the active
    property, opens the gallery and answers with a text that names it; for
    every other integer it selects nothing and answers with a text that
    tells how many properties were shown. *)
Lemma show_previous_property_integer (cl : Closure) (fc : FunctionCall)
    (i : Z) (st : AppState) :
  fc_name fc = "show_previous_property" →
  isProcessingRef (flags st) = false →
  (∃ args, fc_args fc = Some args) →
  requested_index fc = Integer i →
  let history := cl_propertyHistory cl in
  let st' := handleToolCall cl fc st in
  ((1 ≤ i ≤ Z.of_nat (length history))%Z →
     ∃ p, history !! Z.to_nat (i - 1) = Some p
       ∧ activeProperty (ui st') = Some p
       ∧ showGallery (ui st') = true
       ∧ showGalleryRef (flags st') = true
       ∧ effects (runtime st')
         = effects (runtime st)
           ++ reply fc ("تم فتح العقار رقم " +:+ Js.show_int i +:+ ": "
                        +:+ title p +:+ ". الصور معروضة.") st)
  ∧ (¬ (1 ≤ i ≤ Z.of_nat (length history))%Z →
     activeProperty (ui st') = activeProperty (ui st)
     ∧ showGallery (ui st') = showGallery (ui st)
     ∧ showGalleryRef (flags st') = showGalleryRef (flags st)
     ∧ effects (runtime st')
       = effects (runtime st)
         ++ reply fc ("ما عندي عقار بهذا الرقم. عرضت "
                      +:+ Js.show_int (Z.of_nat (length history)) +:+ " عقارات.") st).
Proof.
  intros Hname Hfree [args Hargs] Hi. cbn zeta.
  unfold requested_index in Hi. rewrite Hargs in Hi. cbn in Hi.
  unfold handleToolCall, tool_effect, show_previous_property,
    closeLeadFormForSearch, previous_index, reply.
  rewrite Hfree, Hname, Hargs, Hi. unfold minus_one, within, at_number.
  cbn [String.eqb Ascii.eqb Bool.eqb orb].
  split.
  - intros Hrange.
    destruct (lookup_lt_is_Some_2 (cl_propertyHistory cl) (Z.to_nat (i - 1)))
      as [p Hp]; [lia|].
    exists p. split; [done|].
    destruct (Z.leb_spec 0 (i - 1)); [|lia].
    destruct (Z.ltb_spec (i - 1) (Z.of_nat (length (cl_propertyHistory cl)))); [|lia].
    cbn [andb]. rewrite Hp. replace (i - 1 + 1)%Z with i by lia.
    unfold finish, sendToolResponse, setTimeout.
    destruct (sessionPromiseRef (conn st)) eqn:Hsession;
      crunch; rewrite ?app_nil_r, ?Hname; try done; congruence.
  - intros Hout.
    assert ((0 <=? i - 1)%Z && (i - 1 <? Z.of_nat (length (cl_propertyHistory cl)))%Z
            = false) as ->.
    { apply andb_false_iff.
      destruct (Z.leb_spec 0 (i - 1)); [|by left].
      right. apply Z.ltb_ge. lia. }
    unfold finish, sendToolResponse, setTimeout.
    destruct (sessionPromiseRef (conn st)) eqn:Hsession;
      crunch; rewrite ?app_nil_r, ?Hname; try done; congruence.
Qed.

(** With the villa and the flat in the history of the handler, the index
    0 selects the villa, as the index 1 does. *)
Lemma index_zero_selects_first :
  let st' := handleToolCall shown_two (show_previous (Some (Integer 0))) live in
  activeProperty (ui st') = Some villa
  ∧ showGallery (ui st') = true
  ∧ responses st'
    = [("call-1", "show_previous_property",
        "تم فتح العقار رقم 1: فيلا فاخرة في حطين. الصور معروضة.")].
Proof. evaluate. Qed.

(** The history the handler works on is the one of the render in which
    [connectSession] was called: a property found since then is not in
    it, whatever the screen shows. *)
Lemma show_previous_property_misses_later_properties (cl : Closure)
    (fc : FunctionCall) (i : Z) (st : AppState) :
  fc_name fc = "show_previous_property" →
  isProcessingRef (flags st) = false →
  (∃ args, fc_args fc = Some args) →
  requested_index fc = Integer i →
  (Z.of_nat (length (cl_propertyHistory cl)) < i)%Z →
  let st' := handleToolCall cl fc st in
  activeProperty (ui st') = activeProperty (ui st)
  ∧ effects (runtime st')
    = effects (runtime st)
      ++ reply fc ("ما عندي عقار بهذا الرقم. عرضت "
                   +:+ Js.show_int (Z.of_nat (length (cl_propertyHistory cl)))
                   +:+ " عقارات.") st.
Proof.
  intros Hname Hfree Hargs Hi Hlater. cbn zeta.
  destruct (show_previous_property_integer cl fc i st Hname Hfree Hargs Hi)
    as [_ Hout].
  destruct Hout as (? & _ & _ & ?); [lia | done].
Qed.

(** C3 (the code does not do this). In a session opened from the initial
    page two searches find the villa and then the flat, so that the
    history on the screen is villa, flat; the backend then asks for the
    property number 1.  The handler is the one of the render in which
    [connectSession] was called, its history is empty: it answers that no
    property has this number and that 0 properties were shown, and the
    flat stays the active property. *)
Theorem C3_show_previous_property_reads_stale_history :
  let st := run noAlternatives initialState two_found in
  let st' := step noAlternatives st ask_for_the_first in
  propertyHistory (ui st) = [villa; flat]
  ∧ isProcessingRef (flags st) = false
  ∧ sessionPromiseRef (conn st) = Some 1
  ∧ responses st'
    = responses st
      ++ [("call-1", "show_previous_property",
           "ما عندي عقار بهذا الرقم. عرضت 0 عقارات.")]
  ∧ activeProperty (ui st') = Some flat
  ∧ propertyHistory (ui st') = [villa; flat].
Proof. evaluate. Qed.

(** ** Turn bookkeeping *)

Lemma append_cons (x : ascii) (a b : string) :
  String x a +:+ b = String x (a +:+ b).
Proof. reflexivity. Qed.

Lemma append_assoc (a b c : string) : (a +:+ b) +:+ c = a +:+ b +:+ c.
Proof.
  induction a as [|x a IH]; [reflexivity|].
  by rewrite !append_cons, IH.
Qed.

Lemma append_empty_r (a : string) : a +:+ "" = a.
Proof.
  induction a as [|x a IH]; [reflexivity|].
  by rewrite append_cons, IH.
Qed.

Lemma truthy_spec (s : string) : Js.truthy s = true ↔ s ≠ "".
Proof. destruct s; cbn; split; congruence. Qed.

Lemma flushed_saveInquiry amb u b o st :
  ∃ log, flushed (saveInquiry amb u b o st) = flushed st ++ [log]
         ∧ userMessage log = u ∧ botResponse log = b
         ∧ toolsUsed log = default [] (MockApi.opt_toolsUsed o)
         ∧ status log = default status_complete (MockApi.opt_status o).
Proof.
  unfold saveInquiry.
  destruct (MockApi.saveInquiry amb u b (Some o) (api st)) as [log api'] eqn:Hsave.
  exists log. split.
  { unfold flushed. cbn. by rewrite omap_app. }
  unfold MockApi.saveInquiry in Hsave.
  destruct (MockApi.getSessionId amb (api st)). injection Hsave as <- _. done.
Qed.

Lemma fragment_arrives amb cl currentTime f st :
  sessionRef (conn st) ≠ None →
  let st' := onmessage amb cl currentTime (fragment_message f) st in
  sessionRef (conn st') = sessionRef (conn st)
  ∧ flushed st' = flushed st
  ∧ currentInputTranscription (turn st')
    = currentInputTranscription (turn st)
      +:+ match f with InputFragment text => text | _ => "" end
  ∧ currentOutputTranscription (turn st')
    = currentOutputTranscription (turn st)
      +:+ match f with OutputFragment text => text | _ => "" end.
Proof.
  intros Hlive. unfold onmessage.
  destruct (sessionRef (conn st)) eqn:Hsession; [|done].
  destruct f; cbn; rewrite ?append_empty_r;
    unfold onInputTranscription, onOutputTranscription, flushed; crunch; done.
Qed.

Lemma deliver_accumulates cl arrivals st :
  sessionRef (conn st) ≠ None →
  sessionRef (conn (deliver cl arrivals st)) = sessionRef (conn st)
  ∧ flushed (deliver cl arrivals st) = flushed st
  ∧ currentInputTranscription (turn (deliver cl arrivals st))
    = currentInputTranscription (turn st) +:+ user_text arrivals
  ∧ currentOutputTranscription (turn (deliver cl arrivals st))
    = currentOutputTranscription (turn st) +:+ bot_text arrivals.
Proof.
  revert st. induction arrivals as [|[[amb currentTime] f] rest IH]; intros st Hlive.
  { cbn. by rewrite !append_empty_r. }
  change (deliver cl ((amb, currentTime, f) :: rest) st)
    with (deliver cl rest (onmessage amb cl currentTime (fragment_message f) st)).
  destruct (fragment_arrives amb cl currentTime f st Hlive) as (Hs & Hf & Hi & Ho).
  destruct (IH (onmessage amb cl currentTime (fragment_message f) st))
    as (Hs' & Hf' & Hi' & Ho'); [by rewrite Hs|].
  rewrite Hs', Hf', Hi', Ho', Hs, Hf, Hi, Ho.
  destruct f; cbn [user_text bot_text]; by rewrite ?append_assoc, ?append_empty_r.
Qed.

Lemma onTurnComplete_flush amb cl st :
  (has_text st = true →
     ∃ log, flushed (onTurnComplete amb cl st) = flushed st ++ [log]
            ∧ userMessage log = currentInputTranscription (turn st)
            ∧ botResponse log = currentOutputTranscription (turn st)
            ∧ toolsUsed log = toolsUsedRef (turn st)
            ∧ status log = status_complete)
  ∧ (has_text st = false → flushed (onTurnComplete amb cl st) = flushed st)
  ∧ has_text (onTurnComplete amb cl st) = false.
Proof.
  unfold onTurnComplete, has_text. cbn -[saveInquiry].
  destruct (Js.truthy (currentInputTranscription (turn st))
            || Js.truthy (currentOutputTranscription (turn st))) eqn:Htext.
  - split; [|done]. intros _.
    match goal with
    | |- context [saveInquiry ?a ?u ?b ?o ?s] =>
        destruct (flushed_saveInquiry a u b o s) as (log & Hf & Hu & Hb & Ht & Hs)
    end.
    exists log. unfold flushed in *. cbn in *. by rewrite Hf.
  - split; [done|]. split; [|done]. intros _. done.
Qed.

(** Fragments that come in messages of their own, on a live session
    whose turn is clean, followed by a turn-complete message: if the
    input fragments or the output fragments, put end to end in the order
    of arrival, give a non-empty text, exactly one record is passed to
    [saveInquiry], tagged [complete], and its user and assistant texts are
    those two concatenations; if both concatenations are empty (no
    fragment, or only fragments without text) no record is flushed. *)
Lemma lone_fragments_flush_concatenation
    (cl : Closure) (arrivals : list Arrival) (amb : Ambient) (currentTime : Z)
    (st : AppState) :
  sessionRef (conn st) ≠ None →
  currentInputTranscription (turn st) = "" →
  currentOutputTranscription (turn st) = "" →
  let st' := onmessage amb cl currentTime turnCompleteMarker (deliver cl arrivals st) in
  (user_text arrivals ≠ "" ∨ bot_text arrivals ≠ "" →
     ∃ log, flushed st' = flushed st ++ [log]
            ∧ userMessage log = user_text arrivals
            ∧ botResponse log = bot_text arrivals
            ∧ status log = status_complete)
  ∧ (user_text arrivals = "" ∧ bot_text arrivals = "" → flushed st' = flushed st).
Proof.
  intros Hlive Hin Hout. cbn zeta.
  destruct (deliver_accumulates cl arrivals st Hlive) as (Hs & Hf & Hi & Ho).
  rewrite Hin in Hi. rewrite Hout in Ho. cbn in Hi, Ho.
  unfold onmessage. rewrite Hs.
  destruct (sessionRef (conn st)); [|done].
  change (has_audio turnCompleteMarker) with false. cbn [andb].
  change (onmessage_rest amb cl turnCompleteMarker ?s) with (onTurnComplete amb cl s).
  destruct (onTurnComplete_flush amb cl (deliver cl arrivals st)) as (Hyes & Hno & _).
  unfold has_text in Hyes, Hno. rewrite Hi, Ho in Hyes, Hno. rewrite Hf in Hyes, Hno.
  split.
  - intros Htext. destruct Hyes as (log & Hfl & Hu & Hb & _ & Hst).
    { apply orb_true_iff. by rewrite !truthy_spec. }
    exists log. by rewrite Hu, Hb.
  - intros [Hu Hb]. apply Hno. by rewrite Hu, Hb.
Qed.

Lemma spoken_turn_flushed :
  ∃ log,
    flushed (onmessage amb0 cl0 0 turnCompleteMarker (deliver cl0 spoken live))
    = flushed live ++ [log]
    ∧ userMessage log = "أبي فيلا"
    ∧ botResponse log = "تفضل"
    ∧ status log = status_complete.
Proof.
  destruct (lone_fragments_flush_concatenation cl0 spoken amb0 0 live)
    as [Hflush _]; [by vm_compute | reflexivity | reflexivity |].
  apply Hflush. left. by vm_compute.
Qed.

(** A fragment without text is a fragment, and a turn made of such
    fragments is not flushed at all. *)
Lemma empty_fragments_flush_nothing :
  ¬ (∀ arrivals : list Arrival,
       ∃ log,
         flushed (onmessage amb0 cl0 0 turnCompleteMarker (deliver cl0 arrivals live))
         = flushed live ++ [log]
         ∧ userMessage log = user_text arrivals
         ∧ botResponse log = bot_text arrivals).
Proof.
  intros Hclaim.
  destruct (Hclaim [(amb0, 0%Z, InputFragment ""); (amb0, 0%Z, OutputFragment "")])
    as (log & Hflushed & _).
  vm_compute in Hflushed. discriminate Hflushed.
Qed.

(** The fragment of a message that carries audio is appended when the
    audio has been decoded, and not at all when the decode fails or the
    output context has been closed meanwhile. *)
Lemma fragment_with_audio_waits amb cl currentTime m st :
  sessionRef (conn st) ≠ None →
  has_audio m && context_open (outputAudioContextRef (audio st)) = true →
  turn (onmessage amb cl currentTime m st) = turn st
  ∧ pendingDecodes (runtime (onmessage amb cl currentTime m st))
    = pendingDecodes (runtime st) ++ [(cl, m)].
Proof.
  intros Hlive Haudio. unfold onmessage.
  destruct (sessionRef (conn st)); [|done]. by rewrite Haudio.
Qed.

(** C5 (the code does not do this). On a live session the assistant's
    greeting arrives in two fragments, the first in a message that also
    carries audio, the second in a message of its own, and then the
    turn-complete message.  The first fragment is appended only when its
    audio has been decoded, which is after the second has arrived: the
    one record that is flushed holds the second fragment followed by the
    first.  When the audio cannot be decoded the first fragment is never
    appended, and the record holds the second alone. *)
Theorem C5_fragment_with_audio_appended_late :
  let st := run noAlternatives live greeting_in_two in
  let st' := run noAlternatives live greeting_undecoded in
  sessionRef (conn live) = Some 1
  ∧ flushed live = []
  ∧ has_text live = false
  ∧ map botResponse (flushed st) = ["بكمرحبا "]
  ∧ map status (flushed st) = [status_complete]
  ∧ map botResponse (flushed st') = ["بك"]
  ∧ has_text st' = false
  ∧ pendingDecodes (runtime st') = [].
Proof. evaluate. Qed.

Lemma onInterrupted_flush amb cl st :
  (has_text st = true →
     ∃ log, flushed (onInterrupted amb cl st) = flushed st ++ [log]
            ∧ toolsUsed log = toolsUsedRef (turn st)
            ∧ status log = status_interrupted)
  ∧ (has_text st = false → flushed (onInterrupted amb cl st) = flushed st)
  ∧ has_text (onInterrupted amb cl st) = false.
Proof.
  unfold onInterrupted, has_text.
  destruct (Js.truthy (currentInputTranscription (turn st))
            || Js.truthy (currentOutputTranscription (turn st))) eqn:Htext.
  - split; [|split; [done|]].
    + intros _.
      match goal with
      | |- context [saveInquiry ?a ?u ?b ?o ?s] =>
          destruct (flushed_saveInquiry a u b o s) as (log & Hf & Hu & Hb & Ht & Hs)
      end.
      exists log. unfold flushed in *. crunch; by rewrite Hf.
    + crunch; done.
  - split; [done|]. split; [intros _|].
    + unfold flushed. crunch; done.
    + crunch; done.
Qed.

Lemma stopSession_flush amb cl st :
  (has_text st = true →
     ∃ log, flushed (stopSession amb cl st) = flushed st ++ [log]
            ∧ toolsUsed log = toolsUsedRef (turn st)
            ∧ status log = status_session_end)
  ∧ (has_text st = false → flushed (stopSession amb cl st) = flushed st)
  ∧ has_text (stopSession amb cl st) = false.
Proof.
  assert (Hframe : ∀ st0 : AppState,
      let st1 :=
        match abortControllerRef (conn st0) with
        | Some c =>
            set_abortControllerRef None
              (set_abortedSignals ({[c]} ∪ abortedSignals (conn st0)) st0)
        | None => st0
        end in
      turn st1 = turn st0 ∧ flushed st1 = flushed st0).
  { intros st0. by destruct (abortControllerRef (conn st0)). }
  unfold stopSession, has_text.
  set (st1 := match abortControllerRef (conn st) with Some _ => _ | None => st end).
  destruct (Hframe st) as [Hturn Hflushed]. fold st1 in Hturn, Hflushed.
  rewrite <- Hturn, <- Hflushed. clearbody st1. clear Hturn Hflushed Hframe.
  destruct (Js.truthy (currentInputTranscription (turn st1))
            || Js.truthy (currentOutputTranscription (turn st1))) eqn:Htext.
  - split; [|split; [done|]].
    + intros _.
      match goal with
      | |- context [saveInquiry ?a ?u ?b ?o ?s] =>
          destruct (flushed_saveInquiry a u b o s) as (log & Hf & Hu & Hb & Ht & Hs)
      end.
      exists log. unfold flushed in *. crunch; rewrite ?omap_app; cbn; by rewrite ?Hf, ?app_nil_r.
    + crunch; done.
  - split; [done|]. split; [intros _|].
    + unfold flushed. crunch; rewrite ?omap_app; cbn; by rewrite ?app_nil_r.
    + crunch; done.
Qed.

Lemma close_turn_flush k amb cl st :
  (has_text st = true →
     ∃ log, flushed (close_turn k amb cl st) = flushed st ++ [log]
            ∧ toolsUsed log = toolsUsedRef (turn st)
            ∧ status log = closing_status k)
  ∧ (has_text st = false → flushed (close_turn k amb cl st) = flushed st)
  ∧ has_text (close_turn k amb cl st) = false.
Proof.
  destruct k; cbn [close_turn closing_status].
  - destruct (onTurnComplete_flush amb cl st) as (Hyes & Hno & Hclean).
    split; [|done]. intros Htext.
    destruct (Hyes Htext) as (log & ? & _ & _ & ? & ?). by exists log.
  - apply onInterrupted_flush.
  - apply stopSession_flush.
Qed.

Lemma handleToolCall_turn_log cl fc st :
  flushed (handleToolCall cl fc st) = flushed st
  ∧ has_text (handleToolCall cl fc st) = has_text st.
Proof.
  unfold_dispatcher. unfold flushed, has_text.
  crunch; rewrite ?omap_app, ?app_nil_r; done.
Qed.

Lemma finish_turn_log fc r :
  flushed (finish fc r) = flushed r.1 ∧ has_text (finish fc r) = has_text r.1.
Proof.
  destruct r as [st [text|]]; unfold finish, sendToolResponse, setTimeout,
    flushed, has_text; crunch; rewrite ?omap_app, ?app_nil_r; done.
Qed.

Lemma search_property_turn_log getAlt cl fc outcome st :
  flushed (search_property getAlt cl fc outcome st).1 = flushed st
  ∧ has_text (search_property getAlt cl fc outcome st).1 = has_text st.
Proof.
  unfold search_property.
  destruct (fc_query fc) as [q|]; [|done].
  destruct outcome as [[|property rest]|e]; [|done|done].
  by destruct (getAlt q).
Qed.

Lemma handleToolCall_resume_turn_log getAlt cl fc outcome st :
  flushed (handleToolCall_resume getAlt cl fc outcome st) = flushed st
  ∧ has_text (handleToolCall_resume getAlt cl fc outcome st) = has_text st.
Proof.
  unfold handleToolCall_resume.
  destruct (finish_turn_log fc (search_property getAlt cl fc outcome st)) as [-> ->].
  apply search_property_turn_log.
Qed.

(** The three blocks that close a turn.  A turn that has accumulated
    transcript text is flushed once by the first of them that runs: it
    passes one record to [saveInquiry], tagged accordingly and listing the
    tools used in the turn, and clears the text, so that a block that
    runs next flushes nothing more; neither a transcript fragment nor a
    tool call flushes anything.  A turn without transcript text is not
    flushed by any of them, whether or not tools were called in it: a
    tool call does not add text. *)
Lemma closing_blocks_flush_once
    (getAlternativeLocations : string → list string)
    (k k' : Closing) (amb amb' : Ambient) (cl cl' : Closure) (st : AppState) :
  let st' := close_turn k amb cl st in
  (has_text st = true →
     ∃ log, flushed st' = flushed st ++ [log]
            ∧ toolsUsed log = toolsUsedRef (turn st)
            ∧ status log = closing_status k)
  ∧ (has_text st = false → flushed st' = flushed st)
  ∧ flushed (close_turn k' amb' cl' st') = flushed st'
  ∧ (∀ text, flushed (onInputTranscription amb text st) = flushed st)
  ∧ (∀ text, flushed (onOutputTranscription text st) = flushed st)
  ∧ (∀ fc, flushed (handleToolCall cl fc st) = flushed st
           ∧ has_text (handleToolCall cl fc st) = has_text st)
  ∧ (∀ fc outcome,
       flushed (handleToolCall_resume getAlternativeLocations cl fc outcome st)
       = flushed st
       ∧ has_text (handleToolCall_resume getAlternativeLocations cl fc outcome st)
         = has_text st).
Proof.
  cbn zeta.
  destruct (close_turn_flush k amb cl st) as (Hyes & Hno & Hclean).
  split; [done|]. split; [done|]. split.
  { by apply close_turn_flush. }
  split. { intros text. unfold onInputTranscription, flushed. crunch; done. }
  split. { intros text. done. }
  split. { intros fc. apply handleToolCall_turn_log. }
  intros fc outcome. apply handleToolCall_resume_turn_log.
Qed.

(** A turn opened by a tool call, with no transcript fragment, is closed
    by turn-complete without any record being flushed. *)
Lemma tool_only_turn_not_flushed :
  let opened := onmessage amb0 cl0 0 (toolCalls [open_lead_form_call]) live in
  let closed := onmessage amb0 cl0 0 turnCompleteMarker opened in
  toolsUsedRef (turn opened) = ["open_lead_form"]
  ∧ toolsUsedRef (turn closed) = []
  ∧ ¬ (∃ log, flushed closed = flushed live ++ [log]).
Proof.
  cbn zeta. split; [by vm_compute|]. split; [by vm_compute|].
  intros [log Hflushed]. vm_compute in Hflushed. discriminate Hflushed.
Qed.

(** C9 (the code does not do this). On a live session the user asks for
    a villa, and the turn is closed by a message that carries the
    turn-complete marker and a last chunk of audio.  When the chunk
    cannot be decoded the handler ends in its [catch] before the
    turn-complete block: no record is flushed and the text of the turn
    is kept, so that the record flushed at the end of the next turn holds
    the text of both.  When the chunk is decoded, but after the first
    fragment of the next turn has arrived, the record flushed for the
    turn holds that fragment too, and the turn-complete message of the
    next turn flushes nothing. *)
Theorem C9_turn_complete_with_audio_not_flushed :
  let closed := run noAlternatives live turn_closed_by_bad_chunk in
  let next := run noAlternatives closed thanks_turn in
  let late := run noAlternatives live turn_closed_by_slow_chunk in
  let after := step noAlternatives late (Message amb0 first_session 0 turnCompleteMarker) in
  flushed live = []
  ∧ pendingDecodes (runtime closed) = []
  ∧ flushed closed = []
  ∧ currentInputTranscription (turn closed) = "أبي فيلا"
  ∧ map userMessage (flushed next) = ["أبي فيلاشكرا"]
  ∧ map userMessage (flushed late) = ["أبي فيلاشكرا"]
  ∧ flushed after = flushed late.
Proof. evaluate. Qed.

(** ** The guard of the dispatcher *)

Lemma guard_inv_view st st' :
  guard_view st' = guard_view st → guard_inv st → guard_inv st'.
Proof.
  unfold guard_view, guard_inv, in_effect, release_timers.
  intros [= -> -> ->]. done.
Qed.

Lemma handleToolCall_dropped cl fc st :
  isProcessingRef (flags st) = true → handleToolCall cl fc st = st.
Proof. intros Hheld. unfold handleToolCall. by rewrite Hheld. Qed.

Lemma tool_effect_frame cl fc st :
  guard_view (tool_effect cl fc st).1 = guard_view st
  ∧ effects (runtime (tool_effect cl fc st).1) = effects (runtime st)
  ∧ sessionPromiseRef (conn (tool_effect cl fc st).1)
    = sessionPromiseRef (conn st).
Proof.
  unfold tool_effect, show_previous_property, open_gallery, handleCloseGallery.
  cases; done.
Qed.

(** The effect of a tool that waits for nothing gives a text, unless it
    throws. *)
Lemma tool_effect_answers cl fc st :
  if throws cl fc then (tool_effect cl fc st).2 = None
  else ∃ text, (tool_effect cl fc st).2 = Some text.
Proof.
  unfold throws, tool_effect, show_previous_property, open_gallery,
    handleCloseGallery.
  destruct (fc_name fc =? "show_previous_property")%string; cbn [andb].
  { destruct (fc_args fc) as [args|]; [|done].
    destruct (previous_index args) as [z|below] eqn:Hindex.
    - unfold within, at_number.
      destruct (_ && _) eqn:Hrange; [|by eexists].
      apply andb_true_iff in Hrange as [Hlo Hhi]. rewrite Hlo.
      apply Z.leb_le in Hlo. apply Z.ltb_lt in Hhi.
      destruct (lookup_lt_is_Some_2 (cl_propertyHistory cl) (Z.to_nat z))
        as [p ->]; [lia|].
      by eexists.
    - destruct (within _ _); [done | by eexists]. }
  destruct (fc_name fc =? "open_gallery")%string.
  { destruct (cl_activeProperty cl); [|by eexists].
    destruct (showGalleryRef (flags st)); by eexists. }
  destruct (fc_name fc =? "close_gallery")%string; [by eexists|].
  destruct (fc_name fc =? "open_lead_form")%string; by eexists.
Qed.

Lemma search_property_answers getAlt cl fc outcome st :
  ∃ text, (search_property getAlt cl fc outcome st).2 = Some text
          ∧ guard_view (search_property getAlt cl fc outcome st).1 = guard_view st
          ∧ effects (runtime (search_property getAlt cl fc outcome st).1)
            = effects (runtime st)
          ∧ sessionPromiseRef (conn (search_property getAlt cl fc outcome st).1)
            = sessionPromiseRef (conn st)
          ∧ (∀ e, outcome = Rejected e → text = "حدث خطأ في البحث. حاول مرة ثانية.").
Proof.
  unfold search_property.
  destruct (fc_query fc) as [q|].
  - destruct outcome as [[|property rest]|e].
    + destruct (getAlt q); by eexists.
    + by eexists.
    + eexists. repeat split; done.
  - eexists. repeat split; done.
Qed.

Lemma guard_view_eq st st' :
  guard_view st' = guard_view st →
  isProcessingRef (flags st') = isProcessingRef (flags st)
  ∧ pendingSearches (runtime st') = pendingSearches (runtime st)
  ∧ timers (runtime st') = timers (runtime st).
Proof. unfold guard_view. by intros [= -> -> ->]. Qed.

Lemma finish_spec fc st text :
  isProcessingRef (flags (finish fc (st, Some text))) = isProcessingRef (flags st)
  ∧ pendingSearches (runtime (finish fc (st, Some text)))
    = pendingSearches (runtime st)
  ∧ timers (runtime (finish fc (st, Some text)))
    = timers (runtime st) ++ [(100%Z, ReleaseGuard)]
  ∧ effects (runtime (finish fc (st, Some text)))
    = effects (runtime st) ++ reply fc text st.
Proof.
  unfold finish, sendToolResponse, setTimeout, reply.
  destruct (sessionPromiseRef (conn st)); cbn; by rewrite ?app_nil_r.
Qed.

Lemma finish_thrown fc st :
  isProcessingRef (flags (finish fc (st, None))) = isProcessingRef (flags st)
  ∧ pendingSearches (runtime (finish fc (st, None))) = pendingSearches (runtime st)
  ∧ timers (runtime (finish fc (st, None)))
    = timers (runtime st) ++ [(100%Z, ReleaseGuard)]
  ∧ effects (runtime (finish fc (st, None))) = effects (runtime st).
Proof. done. Qed.

Lemma closeLeadFormForSearch_frame fc st :
  guard_view (closeLeadFormForSearch fc st) = guard_view st
  ∧ effects (runtime (closeLeadFormForSearch fc st)) = effects (runtime st)
  ∧ sessionPromiseRef (conn (closeLeadFormForSearch fc st))
    = sessionPromiseRef (conn st).
Proof. unfold closeLeadFormForSearch. crunch; done. Qed.

(** An accepted invocation: the guard is closed; a search is left waiting;
    any other call ends at once, with the release timer set, and is
    answered unless its effect threw. *)
Lemma handleToolCall_accepted cl fc st :
  isProcessingRef (flags st) = false →
  let st' := handleToolCall cl fc st in
  isProcessingRef (flags st') = true
  ∧ (searches fc = true →
       pendingSearches (runtime st') = pendingSearches (runtime st) ++ [(cl, fc)]
       ∧ timers (runtime st') = timers (runtime st)
       ∧ effects (runtime st') = effects (runtime st))
  ∧ (searches fc = false →
       pendingSearches (runtime st') = pendingSearches (runtime st)
       ∧ timers (runtime st') = timers (runtime st) ++ [(100%Z, ReleaseGuard)]
       ∧ if throws cl fc then effects (runtime st') = effects (runtime st)
         else ∃ text, effects (runtime st') = effects (runtime st) ++ reply fc text st).
Proof.
  intros Hfree. cbn zeta. unfold handleToolCall, searches, throws. rewrite Hfree.
  set (st1 := set_toolsUsedRef _ (set_isProcessingRef true st)).
  destruct (closeLeadFormForSearch_frame fc st1) as (Hview & Heff & Hsess).
  apply guard_view_eq in Hview as (Hflag & Hpending & Htimers).
  set (st2 := closeLeadFormForSearch fc st1) in *.
  destruct (String.eqb_spec (fc_name fc) "search_property") as [Hname|Hname].
  - rewrite Hname. cbn [String.eqb Ascii.eqb Bool.eqb andb].
    destruct (fc_args fc) as [args|].
    + split; [by cbn; rewrite Hflag|]. split; [|done]. intros _. cbn.
      by rewrite Hpending, Htimers, Heff.
    + destruct (finish_spec fc st2 "حدث خطأ في البحث. حاول مرة ثانية.")
        as (-> & -> & -> & ->).
      split; [by rewrite Hflag|]. split; [done|]. intros _.
      split; [by rewrite Hpending|]. split; [by rewrite Htimers|].
      eexists. rewrite Heff. unfold reply. by rewrite Hsess.
  - cbn [andb].
    pose proof (tool_effect_answers cl fc st2) as Hanswer.
    destruct (tool_effect_frame cl fc st2) as (Hview' & Heff' & Hsess').
    apply guard_view_eq in Hview' as (Hflag' & Hpending' & Htimers').
    unfold throws in Hanswer.
    destruct (tool_effect cl fc st2) as [st3 response]. cbn [fst snd] in *.
    destruct (_ && _).
    + subst response.
      destruct (finish_thrown fc st3) as (-> & -> & -> & ->).
      split; [by rewrite Hflag', Hflag|]. split; [done|]. intros _.
      split; [by rewrite Hpending', Hpending|].
      split; [by rewrite Htimers', Htimers|].
      by rewrite Heff', Heff.
    + destruct Hanswer as [text ->].
      destruct (finish_spec fc st3 text) as (-> & -> & -> & ->).
      split; [by rewrite Hflag', Hflag|]. split; [done|]. intros _.
      split; [by rewrite Hpending', Hpending|].
      split; [by rewrite Htimers', Htimers|].
      exists text. rewrite Heff', Heff. unfold reply. by rewrite Hsess', Hsess.
Qed.

(** A search that settles is answered in every case, and the release timer
    is set. *)
Lemma handleToolCall_resume_spec getAlt cl fc outcome st :
  let st' := handleToolCall_resume getAlt cl fc outcome st in
  isProcessingRef (flags st') = isProcessingRef (flags st)
  ∧ pendingSearches (runtime st') = pendingSearches (runtime st)
  ∧ timers (runtime st') = timers (runtime st) ++ [(100%Z, ReleaseGuard)]
  ∧ ∃ text, effects (runtime st') = effects (runtime st) ++ reply fc text st
            ∧ (∀ e, outcome = Rejected e → text = "حدث خطأ في البحث. حاول مرة ثانية.").
Proof.
  cbn zeta. unfold handleToolCall_resume.
  destruct (search_property_answers getAlt cl fc outcome st)
    as (text & Htext & Hview & Heff & Hsess & Herr).
  apply guard_view_eq in Hview as (Hflag & Hpending & Htimers).
  destruct (search_property getAlt cl fc outcome st) as [st1 response].
  cbn [fst snd] in *. subst response.
  destruct (finish_spec fc st1 text) as (-> & -> & -> & ->).
  split; [done|]. split; [done|]. split; [by rewrite Htimers|].
  exists text. split; [|done]. unfold reply. by rewrite Heff, Hsess.
Qed.

(** *** The guard protocol is respected by every task of the event loop *)

Lemma release_timers_app l1 l2 :
  length (List.filter is_release (l1 ++ l2))
  = length (List.filter is_release l1) + length (List.filter is_release l2).
Proof. by rewrite List.filter_app, length_app. Qed.

Lemma release_timers_delete (l : list (Z * TimerTask)) i d task :
  l !! i = Some (d, task) →
  length (List.filter is_release l)
  = length (List.filter is_release (delete i l))
    + (if is_release (d, task) then 1 else 0).
Proof.
  revert i. induction l as [|t l IH]; intros i Hi; [done|].
  destruct i as [|i]; cbn in Hi.
  - injection Hi as ->. cbn.
    destruct (is_release (d, task)); cbn; lia.
  - specialize (IH i Hi). cbn.
    destruct (is_release t); cbn; [f_equal|]; exact IH.
Qed.

Lemma handleToolCall_guard_inv cl fc st :
  guard_inv st → guard_inv (handleToolCall cl fc st).
Proof.
  intros Hinv. destruct (isProcessingRef (flags st)) eqn:Hflag.
  { by rewrite handleToolCall_dropped. }
  destruct Hinv as [Hopen _]. destruct (Hopen Hflag) as [Hnone Hcool].
  destruct (handleToolCall_accepted cl fc st Hflag) as (Hheld & Hsearch & Hother).
  unfold guard_inv, in_effect, release_timers in *.
  split; [by rewrite Hheld|].
  destruct (searches fc) eqn:Hname.
  - destruct (Hsearch eq_refl) as (-> & -> & _). rewrite length_app. cbn. lia.
  - destruct (Hother eq_refl) as (-> & -> & _). rewrite release_timers_app. cbn. lia.
Qed.

Lemma onToolCalls_guard_inv cl fcs st :
  guard_inv st → guard_inv (onToolCalls cl fcs st).
Proof.
  unfold onToolCalls. revert st.
  induction fcs as [|fc fcs IH]; intros st Hinv; [done|].
  cbn [fold_left]. by apply IH, handleToolCall_guard_inv.
Qed.

Lemma stopSession_guard_view amb cl st :
  guard_view (stopSession amb cl st) = guard_view st.
Proof. unfold stopSession, saveInquiry, guard_view. crunch; done. Qed.

Lemma onmessage_rest_guard_inv amb cl m st :
  guard_inv st → guard_inv (onmessage_rest amb cl m st).
Proof.
  intros Hinv. unfold onmessage_rest, when.
  set (st1 := if turnComplete m then _ else _).
  assert (guard_view st1 = guard_view st) as Hview.
  { subst st1. unfold onTurnComplete, onInterrupted, onInputTranscription,
      onOutputTranscription, saveInquiry, guard_view. crunch; done. }
  apply (guard_inv_view _ _ Hview) in Hinv.
  destruct (toolCall m); [by apply onToolCalls_guard_inv | done].
Qed.

Lemma onmessage_guard_inv amb cl currentTime m st :
  guard_inv st → guard_inv (onmessage amb cl currentTime m st).
Proof.
  intros Hinv. unfold onmessage.
  destruct (sessionRef (conn st)); [|done].
  destruct (has_audio m && _); [|by apply onmessage_rest_guard_inv].
  by apply (guard_inv_view st).
Qed.

Lemma onmessage_resume_guard_inv amb cl m buffer st :
  guard_inv st → guard_inv (onmessage_resume amb cl m buffer st).
Proof.
  intros Hinv. unfold onmessage_resume.
  destruct buffer; [|done].
  destruct (context_open _); [|done].
  apply onmessage_rest_guard_inv. by apply (guard_inv_view st).
Qed.

(** [withRetry] leaves alone whatever [stopSession] and the observer
    leave alone. *)
Lemma retry_loop_frame {T A} (view : AppState → A) (env : RetryEnv T) max cb :
  (∀ amb cl st, view (stopSession amb cl st) = view st) →
  (∀ f k st, cb = Some f → view (f k st) = view st) →
  ∀ remaining attempt e st,
    view (retry_loop env max cb remaining attempt e st).1.2 = view st.
Proof.
  intros Hstop Hcb.
  assert (Hinterfere : ∀ i st, view (interfere i st) = view st).
  { intros [|amb cl] st; [done | apply Hstop]. }
  induction remaining as [|remaining IH]; intros attempt e st; [done|].
  cbn [retry_loop].
  destruct (signal_aborted st); [done|].
  destruct (attempt_result env attempt) as [v|error]; [apply Hinterfere|].
  destruct (isFatal error); [apply Hinterfere|].
  destruct (attempt <? max).
  - assert (view (observe cb attempt (interfere (during_attempt env attempt) st)).1
            = view st) as Hobs.
    { unfold observe. destruct cb as [f|] eqn:Hf; cbn.
      - by rewrite (Hcb f), Hinterfere.
      - apply Hinterfere. }
    destruct (observe cb attempt _) as [st1 obs]. cbn in Hobs.
    destruct (abort_fired _ _ _); [cbn; by rewrite Hinterfere|].
    specialize (IH (S attempt) error (interfere (during_wait env attempt) st1)).
    destruct (retry_loop env max cb remaining (S attempt) error _) as [[r st2] tr].
    cbn in *. by rewrite IH, Hinterfere.
  - specialize (IH (S attempt) error (interfere (during_attempt env attempt) st)).
    destruct (retry_loop env max cb remaining (S attempt) error _) as [[r st2] tr].
    cbn in *. by rewrite IH, Hinterfere.
Qed.


Lemma withRetry_frame {T A} (view : AppState → A) (env : RetryEnv T) options st :
  (∀ amb cl st, view (stopSession amb cl st) = view st) →
  (∀ f k st, onRetry options = Some f → view (f k st) = view st) →
  view (withRetry env options st).1.2 = view st.
Proof. intros Hstop Hcb. unfold withRetry. by apply retry_loop_frame. Qed.

(** [connectSession] changes only what [stopSession] and the setters it
    calls change, apart from the attempt counter, which it resets. *)
Lemma connectSession_frame {A} (view : AppState → A) env st :
  (∀ amb cl st, view (stopSession amb cl st) = view st) →
  (∀ f st, view (with_ui f st) = view st) →
  (∀ f st, view (with_audio f st) = view st) →
  (∀ x st, view (set_sessionRef x st) = view st) →
  (∀ x st, view (set_sessionPromiseRef x st) = view st) →
  (∀ x st, view (set_abortControllerRef x st) = view st) →
  (∀ x st, view (set_createdControllers x st) = view st) →
  view (connectSession env st)
  = view (match sessionRef (conn st) with
          | Some _ => st
          | None => set_reconnectAttemptsRef 0 st
          end).
Proof.
  intros Hstop Hui Haudio Hsession Hpromise Hcontroller Hcreated.
  assert (Hfailed : ∀ e st, view (connectFailed e st) = view st).
  { intros e st1. unfold connectFailed, setStatusMessage, set_streamRef,
      set_audioContextRef, set_outputAudioContextRef.
    destruct (streamRef (audio st1)), (message e =? _)%string;
      by rewrite ?Hui, ?Haudio. }
  unfold connectSession. destruct (sessionRef (conn st)); [done|].
  cbn zeta.
  match goal with
  | |- context [withRetry (getUserMedia env) ?o ?s] =>
      assert (view (withRetry (getUserMedia env) o s).1.2 = view s) as Hmic
        by (apply withRetry_frame; [exact Hstop|];
            intros f k st1 [= <-]; apply Hui);
      destruct (withRetry (getUserMedia env) o s) as [[stream st1] tr1]
  end.
  cbn [fst snd] in Hmic.
  assert (view st1 = view (set_reconnectAttemptsRef 0 st)) as Hst1.
  { rewrite Hmic. unfold setStatusMessage. by rewrite Hui, Hcontroller, Hcreated. }
  destruct stream as [_|err]; [|by rewrite Hfailed].
  match goal with
  | |- context [withRetry (liveConnect env) ?o ?s] =>
      assert (view (withRetry (liveConnect env) o s).1.2 = view s) as Hconnect
        by (apply withRetry_frame; [exact Hstop|];
            intros f k st2 [= <-]; apply Hui);
      destruct (withRetry (liveConnect env) o s) as [[session st2] tr2]
  end.
  cbn [fst snd] in Hconnect.
  assert (view st2 = view (set_reconnectAttemptsRef 0 st)) as Hst2.
  { rewrite Hconnect. unfold set_outputAudioContextRef, set_audioContextRef,
      set_streamRef. by rewrite !Haudio. }
  destruct session as [s|err]; [|by rewrite Hfailed].
  by rewrite Hsession, Hpromise.
Qed.

Lemma connectSession_guard_view env st :
  guard_view (connectSession env st) = guard_view st.
Proof.
  rewrite (connectSession_frame guard_view);
    [by destruct (sessionRef (conn st)) | apply stopSession_guard_view | done..].
Qed.

Lemma run_timer_guard_inv task amb cl env st d i :
  timers (runtime st) !! i = Some (d, task) →
  guard_inv st →
  guard_inv (run_timer task amb cl env (set_timers (delete i (timers (runtime st))) st)).
Proof.
  intros Hi [Hopen Hone].
  pose proof (release_timers_delete _ _ _ _ Hi) as Hcount.
  destruct task; cbn [run_timer is_release snd] in *.
  - unfold guard_inv, in_effect, release_timers in *. cbn. lia.
  - apply (guard_inv_view (set_timers (delete i (timers (runtime st))) st)).
    { by rewrite connectSession_guard_view, stopSession_guard_view. }
    unfold guard_inv, in_effect, release_timers in *. cbn.
    rewrite Nat.add_0_r in Hcount. rewrite <- Hcount. done.
Qed.

Lemma search_settled_guard_inv getAlt cl fc outcome st i :
  pendingSearches (runtime st) !! i = Some (cl, fc) →
  guard_inv st →
  guard_inv (handleToolCall_resume getAlt cl fc outcome
               (set_pendingSearches (delete i (pendingSearches (runtime st))) st)).
Proof.
  intros Hi [Hopen Hone].
  destruct (handleToolCall_resume_spec getAlt cl fc outcome
              (set_pendingSearches (delete i (pendingSearches (runtime st))) st))
    as (Hflag & Hpending & Htimers & _).
  pose proof (lookup_lt_Some _ _ _ Hi) as Hlt.
  unfold guard_inv, in_effect, release_timers in *.
  rewrite Hflag, Hpending, Htimers, release_timers_app. cbn.
  rewrite length_delete by (by eexists).
  destruct (isProcessingRef (flags st)); [|destruct Hopen; [done|lia]].
  split; [done|]. lia.
Qed.

Lemma step_guard_inv getAlt st e :
  guard_inv st → guard_inv (step getAlt st e).
Proof.
  intros Hinv. destruct e; cbn [step].
  - by apply onmessage_guard_inv.
  - destruct (pendingDecodes (runtime st) !! i) as [[cl m]|]; [|done].
    apply onmessage_resume_guard_inv. by apply (guard_inv_view st).
  - destruct (pendingSearches (runtime st) !! i) as [[cl fc]|] eqn:Hi; [|done].
    by apply search_settled_guard_inv.
  - destruct (timers (runtime st) !! i) as [[d task]|] eqn:Hi; [|done].
    by eapply run_timer_guard_inv.
  - by apply (guard_inv_view st).
  - by apply (guard_inv_view st).
  - unfold onerror. destruct (_ <? _).
    + destruct Hinv as [Hopen Hone].
      unfold guard_inv, in_effect, release_timers in *. cbn.
      rewrite release_timers_app, Nat.add_0_r. done.
    + apply (guard_inv_view st); [|done].
      by rewrite stopSession_guard_view.
  - unfold onclose. destruct (_ || _); [|done].
    apply (guard_inv_view st); [|done]. apply stopSession_guard_view.
  - apply (guard_inv_view st); [|done]. apply stopSession_guard_view.
  - apply (guard_inv_view st); [|done]. apply connectSession_guard_view.
  - by apply (guard_inv_view st).
  - apply (guard_inv_view st); [|done].
    unfold handleCloseLeadForm, stopAudioPlayback, guard_view. crunch; done.
Qed.

Lemma run_guard_inv getAlt events st :
  guard_inv st → guard_inv (run getAlt st events).
Proof.
  unfold run. revert st.
  induction events as [|e events IH]; intros st Hinv; [done|].
  cbn [fold_left]. by apply IH, step_guard_inv.
Qed.

Lemma initialState_guard_inv : guard_inv initialState.
Proof. unfold guard_inv, in_effect, release_timers. cbn. split; [done | lia]. Qed.

(** C6. In every state the session can reach, whatever the events were:
    an invocation that arrives while the guard flag is held is dropped, the
    store is left exactly as it was (no history append, no visibility
    flag, no tools-used entry, no response sent); at most one invocation
    is under way; and while one is under way the flag is held, so that
    every other invocation is dropped. *)
Theorem C6_dispatcher_serialized
    (getAlternativeLocations : string → list string)
    (events : list Event) (cl : Closure) (fcB : FunctionCall) :
  let st := run getAlternativeLocations initialState events in
  (isProcessingRef (flags st) = true → handleToolCall cl fcB st = st)
  ∧ in_effect st ≤ 1
  ∧ (in_effect st ≠ 0 → isProcessingRef (flags st) = true).
Proof.
  cbn zeta.
  destruct (run_guard_inv getAlternativeLocations events initialState
              initialState_guard_inv) as [Hopen Hone].
  split; [apply handleToolCall_dropped|]. split; [lia|].
  intros Hbusy. destruct (isProcessingRef (flags _)); [done|].
  destruct Hopen; [done|lia].
Qed.

Lemma C6_dispatcher_serialized_witness :
  in_effect (run noAlternatives initialState searching) = 1
  ∧ handleToolCall cl0 open_lead_form_call (run noAlternatives initialState searching)
    = run noAlternatives initialState searching.
Proof.
  split; [by vm_compute|].
  destruct (C6_dispatcher_serialized noAlternatives searching cl0 open_lead_form_call)
    as (Hdropped & _ & _).
  apply Hdropped. by vm_compute.
Defined.

(** ** Answers of the dispatcher *)

(** What does hold of an accepted invocation.  A call that waits for
    nothing ends at once with a textual result, unless its effect throws,
    in which case nothing is sent; a search ends when [searchProperties]
    settles, with a textual result in every case, where a failed search
    gives the apology text.  The result is sent to the backend, with the id
    and the name of the invocation, if the session handle is present at
    that moment.  In every case the 100 ms timer that reopens the guard is
    set, and the guard stays closed until that timer fires. *)
Lemma accepted_call_answered_unless_thrown
    (getAlternativeLocations : string → list string)
    (cl : Closure) (fc : FunctionCall) (st : AppState) :
  isProcessingRef (flags st) = false →
  let st1 := handleToolCall cl fc st in
  isProcessingRef (flags st1) = true
  ∧ (searches fc = false →
       (throws cl fc = false →
          ∃ text, effects (runtime st1) = effects (runtime st) ++ reply fc text st)
       ∧ (throws cl fc = true → effects (runtime st1) = effects (runtime st))
       ∧ timers (runtime st1) = timers (runtime st) ++ [(100%Z, ReleaseGuard)])
  ∧ (searches fc = true →
       pendingSearches (runtime st1) = pendingSearches (runtime st) ++ [(cl, fc)]
       ∧ ∀ outcome st2,
           let st3 := handleToolCall_resume getAlternativeLocations cl fc outcome st2 in
           (∃ text, effects (runtime st3) = effects (runtime st2) ++ reply fc text st2
                    ∧ (∀ e, outcome = Rejected e → text = apology))
           ∧ timers (runtime st3) = timers (runtime st2) ++ [(100%Z, ReleaseGuard)]
           ∧ isProcessingRef (flags st3) = isProcessingRef (flags st2))
  ∧ (∀ amb cl' env st4,
       isProcessingRef (flags (run_timer ReleaseGuard amb cl' env st4)) = false)
  ∧ (∀ text st5,
       reply fc text st5
       = match sessionPromiseRef (conn st5) with
         | Some _ => [SentToolResponse (fc_id fc) (fc_name fc) text]
         | None => []
         end).
Proof.
  intros Hfree. cbn zeta.
  destruct (handleToolCall_accepted cl fc st Hfree) as (Hheld & Hsearch & Hother).
  split; [done|]. split.
  { intros Hname. destruct (Hother Hname) as (_ & ? & Hanswer).
    split; [|split; [|done]]; intros Hthrows; by rewrite Hthrows in Hanswer. }
  split; [|done].
  intros Hname. destruct (Hsearch Hname) as (Hpending & _ & _).
  split; [done|]. intros outcome st2.
  destruct (handleToolCall_resume_spec getAlternativeLocations cl fc outcome st2)
    as (Hflag & _ & Htimers & Htext).
  done.
Qed.

(** A search is accepted, the session is stopped while the search is
    pending, the search settles: nothing is sent to the backend. *)
Lemma answer_not_sent_after_stop :
  let accepted := handleToolCall cl0 search_call live in
  let stopped := stopSession amb0 cl0 accepted in
  let settled := step noAlternatives stopped (SearchSettled 0 (Resolved [villa])) in
  isProcessingRef (flags live) = false
  ∧ pendingSearches (runtime accepted) = [(cl0, search_call)]
  ∧ pendingSearches (runtime settled) = []
  ∧ ¬ (∃ text, (fc_id search_call, fc_name search_call, text) ∈ responses settled).
Proof.
  cbn zeta. split; [by vm_compute|]. split; [by vm_compute|].
  split; [by vm_compute|].
  intros [text Hsent]. vm_compute in Hsent. by apply elem_of_nil in Hsent.
Qed.

(** C8 (the code does not do this). Two invocations that the guard
    accepts on a live session and that get no result.  The first is a
    [show_previous_property] without arguments: reading [fc.args.index]
    throws.  The second comes in a session opened when the villa and the
    flat had been shown, and asks for the property number 1.5: the number
    passes the range test, [propertyHistory[0.5]] is [undefined], and
    reading its title throws after the active property has been replaced
    by [undefined] and the gallery has been opened.  Both errors end in
    the outer [catch], which logs them: the tools-used entry is made, the
    timer that reopens the guard is set, and nothing is sent to the
    backend although the session handle is present. *)
Theorem C8_thrown_effect_is_not_answered :
  let bare := Message amb0 first_session 0 (toolCalls [show_previous_bare]) in
  let st := step noAlternatives live bare in
  let before := run noAlternatives initialState reopened in
  let st' := step noAlternatives before ask_for_one_and_a_half in
  (isProcessingRef (flags live) = false
   ∧ sessionPromiseRef (conn live) = Some 1
   ∧ isProcessingRef (flags st) = true
   ∧ toolsUsedRef (turn st) = ["show_previous_property"]
   ∧ responses st = []
   ∧ timers (runtime st) = [(100%Z, ReleaseGuard)])
  ∧ (isProcessingRef (flags before) = false
     ∧ sessionPromiseRef (conn before) = Some 1
     ∧ cl_propertyHistory second_session = [villa; flat]
     ∧ activeProperty (ui before) = Some flat
     ∧ isProcessingRef (flags st') = true
     ∧ toolsUsedRef (turn st') = toolsUsedRef (turn before) ++ ["show_previous_property"]
     ∧ responses st' = responses before
     ∧ activeProperty (ui st') = None
     ∧ showGallery (ui st') = true
     ∧ timers (runtime st') = [(100%Z, ReleaseGuard)]).
Proof. evaluate. Qed.

(** ** Reconnection *)

Lemma stopSession_reconnectAttempts amb cl st :
  reconnectAttemptsRef (conn (stopSession amb cl st)) = reconnectAttemptsRef (conn st).
Proof. by destruct (stopSession_conn amb cl st) as (_ & _ & _ & _ & ?). Qed.

(** Every reconnection, whatever its outcome, leaves the attempt counter
    at zero: [connectSession] resets it. *)
Lemma reconnect_resets_counter amb cl env st :
  reconnectAttemptsRef (conn (run_timer Reconnect amb cl env st)) = 0.
Proof.
  cbn [run_timer].
  rewrite (connectSession_frame (fun st => reconnectAttemptsRef (conn st)));
    [|apply stopSession_reconnectAttempts|done..].
  destruct (stopSession_conn amb cl st) as (_ & _ & -> & _). done.
Qed.

(** So the transport error that follows a reconnection always starts
    another one. *)
Lemma error_after_reconnect_reconnects amb cl env amb' cl' st :
  let reconnected := run_timer Reconnect amb cl env st in
  let st' := onerror amb' cl' reconnected in
  reconnectAttemptsRef (conn st') = 1
  ∧ timers (runtime st') = timers (runtime reconnected) ++ [(1000%Z, Reconnect)]
  ∧ statusMessage (ui st') = "جاري إعادة الاتصال...".
Proof.
  cbn zeta. unfold onerror. rewrite reconnect_resets_counter.
  change (0 <? maxReconnectAttempts) with true. cbn iota.
  by generalize (run_timer Reconnect amb cl env st).
Qed.

(** C4. Three reconnections in a row fail with a transient error; the
    attempt counter is back at zero after each of them, and the fourth
    transport error schedules a fourth reconnection and reports that the
    session is reconnecting: the cap is not reached and the session does
    not end in the failure state. *)
Theorem C4_reconnect_cap_never_reached :
  let after_three :=
    run noAlternatives live
      (failed_reconnection ++ failed_reconnection ++ failed_reconnection) in
  let fourth := step noAlternatives after_three (TransportError amb0 cl0) in
  reconnectAttemptsRef (conn after_three) = 0
  ∧ timers (runtime fourth) = [(1000%Z, Reconnect)]
  ∧ statusMessage (ui fourth) = "جاري إعادة الاتصال..."
  ∧ statusMessage (ui fourth) ≠ failurePrompt.
Proof.
  cbn zeta. split; [by vm_compute|]. split; [by vm_compute|].
  split; [by vm_compute|]. vm_compute. discriminate.
Qed.

(** When the counter does reach the cap (four transport errors before any
    of the scheduled reconnections has run) the failure message is
    replaced at once by the idle prompt, and the reconnections that were
    scheduled still run. *)
Lemma cap_reached_by_burst :
  let burst :=
    run noAlternatives live
      [TransportError amb0 cl0; TransportError amb0 cl0;
       TransportError amb0 cl0; TransportError amb0 cl0] in
  let later := step noAlternatives burst (TimerFired 0 amb0 cl0 connectOk) in
  reconnectAttemptsRef (conn burst) = 3
  ∧ statusMessage (ui burst) = idlePrompt
  ∧ length (timers (runtime burst)) = 3
  ∧ sessionRef (conn burst) = None
  ∧ sessionRef (conn later) = Some 1.
Proof. cbn zeta. repeat split; by vm_compute. Qed.

(** * Further properties *)

(** ** Stopping twice *)

Lemma stopSession_at_rest amb cl st : at_rest (stopSession amb cl st).
Proof.
  destruct (stopSession_conn amb cl st) as (Habort & _ & Hsession & Hpromise & _).
  destruct (stopSession_flush amb cl st) as (_ & _ & Htext).
  repeat split; try done; clear;
    unfold stopSession, saveInquiry; cases; try done; cbn in *; congruence.
Qed.

Lemma stopSession_fixed amb cl st : at_rest st → stopSession amb cl st = st.
Proof.
  destruct st as [u a c t f s r]. destruct u, a, c, t, s.
  unfold at_rest, has_text. cbn.
  intros (-> & Htext & -> & -> & -> & Hout & Hin & -> & -> & -> & -> & -> & ->).
  unfold stopSession. cbn. rewrite Htext. cbn. rewrite Hout. cbn. rewrite Hin.
  done.
Qed.

(** X1. [stopSession] is idempotent. *)
Theorem stopSession_idempotent amb amb' cl cl' st :
  stopSession amb' cl' (stopSession amb cl st) = stopSession amb cl st.
Proof. apply stopSession_fixed, stopSession_at_rest. Qed.

(** X2. Once the session is stopped, a message that still arrives, and a
    chunk whose decoding was under way, change nothing. *)
Theorem stopped_session_ignores_messages amb cl st amb' cl' currentTime m buffer :
  let st' := stopSession amb cl st in
  onmessage amb' cl' currentTime m st' = st'
  ∧ onmessage_resume amb' cl' m buffer st' = st'.
Proof.
  cbn zeta.
  destruct (stopSession_at_rest amb cl st)
    as (_ & _ & _ & _ & _ & Hout & _ & Hsession & _).
  unfold onmessage, onmessage_resume. rewrite Hsession, Hout.
  by destruct buffer.
Qed.

(** ** The retry executor on an undisturbed operation *)

Section QuietRetry.

Context {T : Type} (env : RetryEnv T) (max : nat)
        (cb : option (nat → AppState → AppState)).
Hypothesis Hquiet : ∀ i, during_attempt env i = Quiet ∧ during_wait env i = Quiet.
Hypothesis Hcb : ∀ f i st, cb = Some f → conn (f i st) = conn st.

Lemma observe_conn k st : conn (observe cb k st).1 = conn st.
Proof. unfold observe. destruct cb eqn:Hf; [by apply Hcb | done]. Qed.

Lemma abort_fired_same listener st st' :
  conn st' = conn st → abort_fired listener st st' = false.
Proof.
  intros Hconn. unfold abort_fired. destruct listener as [c|]; [|done].
  rewrite Hconn. by destruct (decide (c ∈ abortedSignals (conn st)));
    rewrite ?bool_decide_eq_true_2, ?bool_decide_eq_false_2 by (done || tauto).
Qed.

Lemma retry_loop_first_success n v :
  ∀ remaining attempt lastError st,
    signal_aborted st = false →
    (∀ i, attempt ≤ i < attempt + n →
          ∃ e, attempt_result env i = Rejected e ∧ isFatal e = false) →
    attempt_result env (attempt + n) = Resolved v →
    attempt + n ≤ max →
    n < remaining →
    let res := retry_loop env max cb remaining attempt lastError st in
    res.1.1 = Resolved v
    ∧ res.2 = failed_attempts cb attempt n ++ [Invoked (attempt + n)].
Proof.
  induction n as [|n IH]; intros remaining attempt lastError st Hab Hfail Hok Hmax Hrem;
    (destruct remaining as [|remaining]; [lia|]); cbn [retry_loop]; rewrite Hab.
  - rewrite Nat.add_0_r in *. by rewrite Hok.
  - destruct (Hfail attempt) as (e & Hres & Hfatal); [lia|].
    rewrite Hres, Hfatal.
    destruct (Nat.ltb_spec attempt max) as [_|?]; [|lia].
    destruct (Hquiet attempt) as [-> ->]. cbn [interfere].
    pose proof (observe_events cb attempt st) as Hobs.
    pose proof (observe_conn attempt st) as Hconn.
    destruct (observe cb attempt st) as [st1 obs]. cbn [fst snd] in *. subst obs.
    rewrite abort_fired_same by done.
    specialize (IH remaining (S attempt) e st1).
    destruct (retry_loop env max cb remaining (S attempt) e st1) as [[r st2] tr].
    cbn [fst snd] in *.
    replace (attempt + S n) with (S attempt + n) in * by lia.
    destruct IH as [-> ->].
    + unfold signal_aborted in *. by rewrite Hconn.
    + intros i Hi. apply Hfail. lia.
    + done.
    + lia.
    + lia.
    + split; [done|]. cbn [failed_attempts].
      rewrite <- !app_comm_cons. f_equal. by rewrite <- !app_assoc.
Qed.

End QuietRetry.

Lemma failed_attempts_invocations cb first k :
  invocations (failed_attempts cb first k) = k.
Proof.
  revert first. induction k as [|k IH]; intros first; [done|].
  cbn [failed_attempts].
  change (Invoked first :: ?l) with ([Invoked first] ++ l).
  rewrite !invocations_app, invocations_observed, IH. cbn. lia.
Qed.

Lemma waits_app tr1 tr2 : waits (tr1 ++ tr2) = waits tr1 ++ waits tr2.
Proof. unfold waits. apply omap_app. Qed.

Lemma waits_observed cb k : waits (observed cb k) = [].
Proof. unfold observed. by destruct cb. Qed.

Lemma failed_attempts_waits cb first k :
  waits (failed_attempts cb first k)
  = (fun i => delays !! (i - 1)) <$> seq first k.
Proof.
  revert first. induction k as [|k IH]; intros first; [done|].
  cbn [failed_attempts seq fmap list_fmap].
  change (Invoked first :: ?l) with ([Invoked first] ++ l).
  rewrite !waits_app, waits_observed, IH. done.
Qed.


(** X3. When nothing stops the session meanwhile, [withRetry] returns the
    value of the first call that succeeds: if the calls 1 to k fail with
    retryable errors and call k + 1, still within the limit, succeeds, the
    operation is called exactly k + 1 times, with one wait after each
    failure. *)
Theorem withRetry_first_success {T} (env : RetryEnv T) options st k v :
  (∀ i, during_attempt env i = Quiet ∧ during_wait env i = Quiet) →
  (∀ f i st, onRetry options = Some f → conn (f i st) = conn st) →
  signal_aborted st = false →
  k < default 3 (maxAttempts options) →
  (∀ i, 1 ≤ i ≤ k → ∃ e, attempt_result env i = Rejected e ∧ isFatal e = false) →
  attempt_result env (S k) = Resolved v →
  let res := withRetry env options st in
  res.1.1 = Resolved v
  ∧ res.2 = failed_attempts (onRetry options) 1 k ++ [Invoked (S k)]
  ∧ invocations res.2 = S k
  ∧ waits res.2 = (fun i => delays !! (i - 1)) <$> seq 1 k.
Proof.
  intros Hquiet Hcb Hab Hk Hfail Hok. cbn zeta. unfold withRetry.
  assert (∀ i, 1 ≤ i < 1 + k →
            ∃ e, attempt_result env i = Rejected e ∧ isFatal e = false) as Hfail'.
  { intros i Hi. apply Hfail. lia. }
  destruct (retry_loop_first_success env (default 3 (maxAttempts options))
              (onRetry options) Hquiet Hcb k v
              (default 3 (maxAttempts options)) 1 (Error "Unknown error") st
              Hab Hfail' Hok ltac:(lia) Hk)
    as [Hr Htr].
  rewrite Hr, Htr. split; [done|]. split; [done|]. split.
  - rewrite invocations_app, failed_attempts_invocations. cbn. lia.
  - rewrite waits_app, failed_attempts_waits. cbn. by rewrite app_nil_r.
Qed.

Lemma withRetry_first_success_witness :
  let res := withRetry second_call_succeeds reportAttempt connecting in
  res.1.1 = Resolved 7
  ∧ res.2 = failed_attempts (onRetry reportAttempt) 1 1 ++ [Invoked 2]
  ∧ invocations res.2 = 2
  ∧ waits res.2 = (fun i => delays !! (i - 1)) <$> seq 1 1.
Proof.
  apply (withRetry_first_success second_call_succeeds reportAttempt connecting 1 7).
  - done.
  - by intros f i st [= <-].
  - by vm_compute.
  - cbn. lia.
  - intros i Hi. assert (i = 1) as -> by lia. by exists networkError.
  - done.
Defined.

(** X4. An error that is shown as an authentication or a quota error is
    one that [withRetry] does not retry. *)
Theorem shown_as_fatal_is_not_retried err :
  getErrorMessage err = "خطأ في المصادقة - تواصل مع الدعم"
  ∨ getErrorMessage err = "تم تجاوز الحد المسموح - حاول لاحقاً" →
  isFatal err = true.
Proof.
  unfold getErrorMessage, isFatal.
  destruct (Js.includes _ "api key"), (Js.includes _ "unauthorized"),
    (Js.includes _ "quota"); cbn; try done;
    destruct (Js.includes _ "network" || Js.includes _ "fetch");
    intros [H|H]; discriminate H.
Qed.

Lemma shown_as_fatal_is_not_retried_witness : isFatal keyError = true.
Proof. apply (shown_as_fatal_is_not_retried keyError). left. reflexivity. Defined.

(** ** What [connectSession] leaves behind *)

Section ConnectFacts.

Context (P : AppState → Prop) (Q : string → Prop).
Hypothesis Hstop : ∀ amb cl st, P st → P (stopSession amb cl st).
Hypothesis Hstatus : ∀ s st, Q s → P st → P (setStatusMessage s st).
Hypothesis Haudio : ∀ f st, P st → P (with_audio f st).
Hypothesis Hconn : ∀ f st, P st → P (with_conn f st).
Hypothesis Qconnecting : Q "جاري الاتصال...".
Hypothesis Qmicrophone : Q "جاري طلب صلاحية الميكروفون...".
Hypothesis Qretry :
  ∀ k, Q ("جاري إعادة الاتصال (" +:+ Js.show_int (Z.of_nat k) +:+ "/3)...").
Hypothesis Qidle : Q idlePrompt.
Hypothesis Qerror : ∀ e, Q (getErrorMessage e).

Lemma retry_loop_preserves {T} (env : RetryEnv T) max cb :
  (∀ f k st, cb = Some f → P st → P (f k st)) →
  ∀ remaining attempt e st,
    P st → P (retry_loop env max cb remaining attempt e st).1.2.
Proof using Hstop.
  intros Hcb.
  assert (Hinterfere : ∀ i st, P st → P (interfere i st)).
  { intros [|amb cl] st; [done | apply Hstop]. }
  induction remaining as [|remaining IH]; intros attempt e st HP; [done|].
  cbn [retry_loop].
  destruct (signal_aborted st); [done|].
  destruct (attempt_result env attempt) as [v|error]; [by apply Hinterfere|].
  destruct (isFatal error); [by apply Hinterfere|].
  destruct (attempt <? max).
  - assert (P (observe cb attempt (interfere (during_attempt env attempt) st)).1)
      as Hobs.
    { unfold observe. destruct cb as [f|] eqn:Hf; cbn.
      - by apply (Hcb f), Hinterfere.
      - by apply Hinterfere. }
    destruct (observe cb attempt _) as [st1 obs]. cbn in Hobs.
    destruct (abort_fired _ _ _); [cbn; by apply Hinterfere|].
    specialize (IH (S attempt) error (interfere (during_wait env attempt) st1)).
    destruct (retry_loop env max cb remaining (S attempt) error _) as [[r st2] tr].
    cbn in *. by apply IH, Hinterfere.
  - specialize (IH (S attempt) error (interfere (during_attempt env attempt) st)).
    destruct (retry_loop env max cb remaining (S attempt) error _) as [[r st2] tr].
    cbn in *. by apply IH, Hinterfere.
Qed.

Lemma connectFailed_preserves e st : P st → P (connectFailed e st).
Proof using Hstatus Haudio Qidle Qerror.
  intros HP. unfold connectFailed.
  destruct (message e =? _)%string; apply Hstatus; try done;
    unfold set_outputAudioContextRef, set_audioContextRef; do 2 apply Haudio;
    (destruct (streamRef (audio st)); [by apply Haudio | done]).
Qed.

Lemma connectSession_preserves env st : P st → P (connectSession env st).
Proof using All.
  intros HP. unfold connectSession. destruct (sessionRef (conn st)); [done|].
  cbn zeta.
  match goal with
  | |- context [withRetry (getUserMedia env) ?o ?s] =>
      assert (P (withRetry (getUserMedia env) o s).1.2) as Hmic;
      [|destruct (withRetry (getUserMedia env) o s) as [[stream st1] tr1]]
  end.
  { apply retry_loop_preserves.
    - intros f k st1 [= <-]. by apply Hstatus.
    - apply Hstatus; [done|]. unfold set_abortControllerRef,
        set_createdControllers, set_reconnectAttemptsRef. by do 3 apply Hconn. }
  cbn [fst snd] in Hmic.
  destruct stream as [_|err]; [|by apply connectFailed_preserves].
  match goal with
  | |- context [withRetry (liveConnect env) ?o ?s] =>
      assert (P (withRetry (liveConnect env) o s).1.2) as Hconnect;
      [|destruct (withRetry (liveConnect env) o s) as [[session st2] tr2]]
  end.
  { apply retry_loop_preserves.
    - intros f k st2 [= <-]. by apply Hstatus.
    - unfold set_outputAudioContextRef, set_audioContextRef, set_streamRef.
      by do 3 apply Haudio. }
  cbn [fst snd] in Hconnect.
  destruct session as [s|err]; [|by apply connectFailed_preserves].
  unfold set_sessionRef, set_sessionPromiseRef. by do 2 apply Hconn.
Qed.

End ConnectFacts.

(** X5. A connection attempt that ends without a session leaves no
    microphone stream and no audio context behind. *)
Theorem failed_connection_releases env st :
  sessionRef (conn st) = None →
  sessionRef (conn (connectSession env st)) = None →
  streamRef (audio (connectSession env st)) = false
  ∧ audioContextRef (audio (connectSession env st)) = None
  ∧ outputAudioContextRef (audio (connectSession env st)) = None.
Proof.
  intros Hnone. unfold connectSession. rewrite Hnone. cbn zeta.
  assert (Hfailed : ∀ e st1,
    streamRef (audio (connectFailed e st1)) = false
    ∧ audioContextRef (audio (connectFailed e st1)) = None
    ∧ outputAudioContextRef (audio (connectFailed e st1)) = None).
  { intros e st1. unfold connectFailed.
    destruct (message e =? _)%string, (streamRef (audio st1)) eqn:?; done. }
  destruct (withRetry (getUserMedia env) _ _) as [[[_|err] st1] tr1];
    [|intros _; apply Hfailed].
  destruct (withRetry (liveConnect env) _ _) as [[[s|err] st2] tr2];
    [done | intros _; apply Hfailed].
Qed.

Lemma failed_connection_releases_witness :
  streamRef (audio (connectSession connectFails initialState)) = false
  ∧ audioContextRef (audio (connectSession connectFails initialState)) = None
  ∧ outputAudioContextRef (audio (connectSession connectFails initialState)) = None.
Proof.
  apply (failed_connection_releases connectFails initialState); reflexivity.
Defined.

Lemma getErrorMessage_not_micPrompt e : getErrorMessage e ≠ micPrompt.
Proof.
  unfold getErrorMessage.
  destruct (_ || _); [done|]. destruct (Js.includes _ _); [done|].
  by destruct (_ || _).
Qed.

(** X6. The text that asks for the microphone permission is never the
    status that [connectSession] leaves on the screen, whatever the
    requests and the connection attempts come to: a refusal is shown as
    the general failure prompt. *)
Theorem microphone_prompt_never_shown env st :
  sessionRef (conn st) = None →
  statusMessage (ui (connectSession env st)) ≠ micPrompt
  ∧ ∀ err,
      err_name err = "NotAllowedError" ∨ err_name err = "PermissionDeniedError" →
      statusMessage (ui (connectFailed (micPermissionError err) st)) = failurePrompt.
Proof.
  intros Hnone. split.
  - assert (connectSession env (setStatusMessage idlePrompt st)
            = connectSession env st) as <-.
    { unfold connectSession. cbn [sessionRef conn setStatusMessage with_ui].
      by rewrite Hnone. }
    apply (connectSession_preserves
             (fun st => statusMessage (ui st) ≠ micPrompt)
             (fun s => s ≠ micPrompt)).
    + intros amb cl st2 _.
      by destruct (stopSession_at_rest amb cl st2)
        as (_ & _ & _ & _ & _ & _ & _ & _ & _ & _ & _ & _ & ->).
    + done.
    + done.
    + done.
    + done.
    + done.
    + intros k H. vm_compute in H. discriminate H.
    + done.
    + apply getErrorMessage_not_micPrompt.
    + done.
  - intros err Hname. unfold micPermissionError.
    replace ((err_name err =? "NotAllowedError")%string
             || (err_name err =? "PermissionDeniedError")%string) with true; [done|].
    symmetry. apply orb_true_iff.
    destruct Hname as [-> | ->]; [by left | by right].
Qed.

Lemma microphone_prompt_never_shown_witness :
  statusMessage (ui (connectSession micRefused initialState)) ≠ micPrompt
  ∧ ∀ err,
      err_name err = "NotAllowedError" ∨ err_name err = "PermissionDeniedError" →
      statusMessage (ui (connectFailed (micPermissionError err) initialState))
      = failurePrompt.
Proof.
  apply (microphone_prompt_never_shown micRefused initialState). reflexivity.
Defined.

(** ** The screen *)

Lemma screen_step_view g st st' :
  screen_view st' = screen_view st → screen_step g st st'.
Proof.
  unfold screen_view, screen_step, screen_inv.
  intros [= Ht Hh Hl Hlr Hg Hgr]. rewrite Ht, Hh, Hl, Hlr, Hg, Hgr. done.
Qed.

Lemma screen_step_refl g st : screen_step g st st.
Proof. by apply screen_step_view. Qed.

Lemma screen_step_trans g st1 st2 st3 :
  screen_step g st1 st2 → screen_step g st2 st3 → screen_step g st1 st3.
Proof.
  intros [H1 P1] [H2 P2]. split; [auto|]. by etrans.
Qed.

Lemma stopSession_screen_view amb cl st :
  screen_view (stopSession amb cl st) = screen_view st.
Proof. unfold stopSession, saveInquiry, screen_view. cases; done. Qed.

Lemma connectSession_screen_view env st :
  screen_view (connectSession env st) = screen_view st.
Proof.
  by apply (connectSession_preserves
              (fun st' => screen_view st' = screen_view st) (fun _ => True));
    try (intros; by rewrite ?stopSession_screen_view).
Qed.

Ltac screen_leaf :=
  cbn in *; unfold screen_step, screen_inv; cbn;
  split; [intros (? & ? & ? & ?); repeat split; try done; try (intros; congruence)
         | try done].

Lemma onInterrupted_screen g amb cl st :
  screen_step g st (onInterrupted amb cl st).
Proof. unfold onInterrupted, saveInquiry. cases; screen_leaf. Qed.

Lemma slice_from_5_length {A} (l : list A) : length (Js.slice_from (-5) l) ≤ 5.
Proof.
  change (-5)%Z with (- Z.of_nat 5)%Z. rewrite slice_from_neg by lia.
  rewrite length_drop. lia.
Qed.

Lemma onTurnComplete_screen g amb cl st :
  screen_step g st (onTurnComplete amb cl st).
Proof.
  unfold onTurnComplete, saveInquiry. cases; screen_leaf;
    apply slice_from_5_length.
Qed.

Lemma finish_screen_view fc r : screen_view (finish fc r) = screen_view r.1.
Proof.
  destruct r as [st [text|]]; unfold finish, sendToolResponse, setTimeout;
    cases; done.
Qed.

Lemma tool_effect_screen g cl fc st :
  screen_step g st (tool_effect cl fc st).1.
Proof.
  unfold tool_effect, show_previous_property, open_gallery, handleCloseGallery.
  cases; screen_leaf.
Qed.

Lemma closeLeadFormForSearch_screen g fc st :
  screen_step g st (closeLeadFormForSearch fc st).
Proof. unfold closeLeadFormForSearch. cases; screen_leaf. Qed.

Lemma handleToolCall_screen g cl fc st :
  screen_step g st (handleToolCall cl fc st).
Proof.
  unfold handleToolCall.
  destruct (isProcessingRef (flags st)); [apply screen_step_refl|].
  cbn zeta.
  set (st1 := set_toolsUsedRef _ _).
  assert (screen_step g st (closeLeadFormForSearch fc st1)) as Hclosed.
  { apply (screen_step_trans g st st1); [by apply screen_step_view|].
    apply closeLeadFormForSearch_screen. }
  destruct (fc_name fc =? "search_property")%string; [destruct (fc_args fc)|].
  - eapply screen_step_trans; [exact Hclosed|]. by apply screen_step_view.
  - eapply screen_step_trans; [exact Hclosed|].
    apply screen_step_view, finish_screen_view.
  - eapply screen_step_trans; [exact Hclosed|].
    eapply screen_step_trans; [apply tool_effect_screen|].
    apply screen_step_view, finish_screen_view.
Qed.

Lemma onToolCalls_screen g cl fcs st :
  screen_step g st (onToolCalls cl fcs st).
Proof.
  unfold onToolCalls. revert st.
  induction fcs as [|fc fcs IH]; intros st; [apply screen_step_refl|].
  cbn [fold_left]. eapply screen_step_trans; [apply handleToolCall_screen | apply IH].
Qed.

Lemma onmessage_rest_screen g amb cl m st :
  screen_step g st (onmessage_rest amb cl m st).
Proof.
  assert (S1 : ∀ st, screen_step g st
                       (if interrupted m then onInterrupted amb cl st else st)).
  { intros st0. destruct (interrupted m);
      [apply onInterrupted_screen | apply screen_step_refl]. }
  assert (S2 : ∀ st, screen_step g st
                       (when (inputTranscription m) (onInputTranscription amb) st)).
  { intros st0. apply screen_step_view.
    unfold when, onInputTranscription, screen_view. cases; done. }
  assert (S3 : ∀ st, screen_step g st
                       (when (outputTranscription m) onOutputTranscription st)).
  { intros st0. apply screen_step_view.
    unfold when, onOutputTranscription, screen_view. cases; done. }
  assert (S4 : ∀ st, screen_step g st
                       (if turnComplete m then onTurnComplete amb cl st else st)).
  { intros st0. destruct (turnComplete m);
      [apply onTurnComplete_screen | apply screen_step_refl]. }
  assert (S5 : ∀ st, screen_step g st (when (toolCall m) (onToolCalls cl) st)).
  { intros st0. unfold when. destruct (toolCall m);
      [apply onToolCalls_screen | apply screen_step_refl]. }
  unfold onmessage_rest.
  eapply screen_step_trans; [apply (S1 st)|].
  eapply screen_step_trans; [apply S2|].
  eapply screen_step_trans; [apply S3|].
  eapply screen_step_trans; [apply S4|].
  apply S5.
Qed.

Lemma onmessage_screen g amb cl currentTime m st :
  screen_step g st (onmessage amb cl currentTime m st).
Proof.
  unfold onmessage. destruct (sessionRef (conn st)); [|apply screen_step_refl].
  destruct (_ && _); [by apply screen_step_view | apply onmessage_rest_screen].
Qed.

Lemma onmessage_resume_screen g amb cl m buffer st :
  screen_step g st (onmessage_resume amb cl m buffer st).
Proof.
  unfold onmessage_resume. destruct buffer; [|apply screen_step_refl].
  destruct (context_open _); [|apply screen_step_refl].
  eapply screen_step_trans; [|apply onmessage_rest_screen].
  by apply screen_step_view.
Qed.

Lemma find_id_none (p : Property) (l : list Property) :
  List.find (fun q => (prop_id q =? prop_id p)%string) l = None →
  prop_id p ∉ prop_id <$> l.
Proof.
  induction l as [|q l IH]; cbn; [intros _; apply not_elem_of_nil|].
  destruct (String.eqb_spec (prop_id q) (prop_id p)) as [|Hne]; [done|].
  intros Hnone. apply not_elem_of_cons. split; [congruence | by apply IH].
Qed.

Lemma search_property_screen getAlt g cl fc outcome st :
  screen_step g st (search_property getAlt cl fc outcome st).1.
Proof.
  unfold search_property.
  destruct (fc_query fc); [|apply screen_step_refl].
  destruct outcome as [[|p ps]|e]; try apply screen_step_refl.
  - destruct (getAlt s); apply screen_step_refl.
  - cbn. unfold screen_step, screen_inv. cbn.
    destruct (List.find _ _) eqn:Hfind.
    + split; [by intros (? & ? & ? & ?)|done].
    + split; [|by apply prefix_app_r].
      intros (? & Hnodup & ? & ?). repeat split; try done.
      rewrite fmap_app. apply NoDup_app. split; [done|]. split.
      * intros x Hx ->%list_elem_of_singleton. by apply find_id_none in Hfind.
      * apply NoDup_singleton.
Qed.

Lemma handleToolCall_resume_screen getAlt g cl fc outcome st :
  screen_step g st (handleToolCall_resume getAlt cl fc outcome st).
Proof.
  unfold handleToolCall_resume.
  eapply screen_step_trans; [apply search_property_screen|].
  apply screen_step_view, finish_screen_view.
Qed.

Lemma step_screen getAlt g st e : screen_step g st (step getAlt st e).
Proof.
  destruct e; cbn [step].
  - apply onmessage_screen.
  - destruct (_ !! _) as [[cl m]|]; [|apply screen_step_refl].
    eapply screen_step_trans; [|apply onmessage_resume_screen].
    by apply screen_step_view.
  - destruct (_ !! _) as [[cl fc]|]; [|apply screen_step_refl].
    eapply screen_step_trans; [|apply handleToolCall_resume_screen].
    by apply screen_step_view.
  - destruct (_ !! _) as [[d []]|]; [| |apply screen_step_refl].
    + by apply screen_step_view.
    + apply screen_step_view. cbn [run_timer].
      by rewrite connectSession_screen_view, stopSession_screen_view.
  - by apply screen_step_view.
  - by apply screen_step_view.
  - apply screen_step_view. unfold onerror. destruct (_ <? _); [done|].
    by rewrite stopSession_screen_view.
  - apply screen_step_view. unfold onclose. destruct (_ || _); [|done].
    by rewrite stopSession_screen_view.
  - apply screen_step_view, stopSession_screen_view.
  - apply screen_step_view, connectSession_screen_view.
  - unfold handleCloseGallery. screen_leaf.
  - unfold handleCloseLeadForm, stopAudioPlayback. cases; screen_leaf.
Qed.


Lemma stopAudioPlayback_screen_view st :
  screen_view (stopAudioPlayback st) = screen_view st.
Proof. unfold stopAudioPlayback, screen_view. cases; done. Qed.

Lemma screen_inv_weaken g st : screen_inv g st → screen_inv false st.
Proof. intros (? & ? & ? & ?). by repeat split. Qed.

Lemma handleCloseDashboard_screen g s :
  screen_inv g (Page.app s) → screen_inv g (Page.app (Page.handleCloseDashboard s)).
Proof.
  intros (? & ? & ? & ?). repeat split; try done. apply NoDup_nil_2.
Qed.

Lemma setShowGallery_screen g b st :
  screen_inv g st → screen_inv false (setShowGallery b st).
Proof. intros (? & ? & ? & ?). by repeat split. Qed.

Lemma interested_screen g st : screen_inv g st → screen_inv g (Page.interested st).
Proof. intros (? & ? & ? & ?). by repeat split. Qed.

Lemma onSubmitSuccess_screen g st :
  screen_inv g st → screen_inv g (Page.onSubmitSuccess st).
Proof.
  intros (? & ? & ? & ?). unfold Page.onSubmitSuccess, stopAudioPlayback.
  cases; by repeat split.
Qed.

Lemma closeNotification_screen g st :
  screen_inv g st → screen_inv g (Page.closeNotification st).
Proof. intros (? & ? & ? & ?). by repeat split. Qed.

Lemma Page_step_screen g s a :
  screen_inv g (Page.app s) →
  screen_inv (g && keeps_gallery_ref a) (Page.app (Page.step s a)).
Proof.
  destruct a; cbn [Page.step Page.on_app Page.app keeps_gallery_ref];
    rewrite ?andb_true_r, ?andb_false_r.
  - apply (proj1 (step_screen Lookup.getAlternativeLocations g (Page.app s) e)).
  - unfold Page.toggleSession.
    destruct (cl_isRecording cl).
    + apply (proj1 (screen_step_view g _ _ (stopSession_screen_view amb cl _))).
    + apply (proj1 (screen_step_view g _ _ (connectSession_screen_view env _))).
  - unfold Page.handleOpenDashboard. cbn [Page.app].
    apply (proj1 (screen_step_view g _ _
      (eq_trans (stopAudioPlayback_screen_view _) (stopSession_screen_view amb cl _)))).
  - apply handleCloseDashboard_screen.
  - apply setShowGallery_screen.
  - apply setShowGallery_screen.
  - apply interested_screen.
  - apply onSubmitSuccess_screen.
  - apply closeNotification_screen.
Qed.

Lemma Page_run_screen g s actions :
  screen_inv g (Page.app s) →
  screen_inv (g && forallb keeps_gallery_ref actions)
    (Page.app (Page.run s actions)).
Proof.
  unfold Page.run. revert g s.
  induction actions as [|a actions IH]; intros g s Hinv; cbn [fold_left forallb].
  - by rewrite andb_true_r.
  - rewrite andb_assoc. by apply IH, Page_step_screen.
Qed.

Lemma initial_screen_inv : screen_inv true initialState.
Proof. repeat split; cbn; [lia | apply NoDup_nil_2]. Qed.

(** X7. Whatever happens on the page, the transcript on the screen holds
    at most five turns and no property is twice in the history. *)
Theorem screen_bounded actions :
  let st := Page.app (Page.run Page.initial actions) in
  length (transcript (ui st)) ≤ 5
  ∧ NoDup (prop_id <$> propertyHistory (ui st)).
Proof.
  cbn zeta.
  destruct (Page_run_screen true Page.initial actions initial_screen_inv)
    as (? & ? & _). done.
Qed.

(** X8. The ref that tracks the lead form always agrees with what is
    displayed; the ref that tracks the gallery agrees with it as long as
    neither the button that shows the last property again nor the reset of
    the gallery's error boundary is used. *)
Theorem refs_mirror_display actions :
  let st := Page.app (Page.run Page.initial actions) in
  showLeadForm (ui st) = showLeadFormRef (flags st)
  ∧ (forallb keeps_gallery_ref actions = true →
     showGallery (ui st) = showGalleryRef (flags st)).
Proof.
  cbn zeta.
  destruct (Page_run_screen true Page.initial actions initial_screen_inv)
    as (_ & _ & ? & ?). done.
Qed.



(** ** Silence after the lead form *)

Lemma muted_audio st st' : audio st' = audio st → muted st → muted st'.
Proof. unfold muted. by intros ->. Qed.

Lemma stopSession_muted amb cl st : muted (stopSession amb cl st).
Proof.
  by destruct (stopSession_at_rest amb cl st) as (_ & _ & _ & ? & _ & ? & _).
Qed.

Lemma stopAudioPlayback_muted st : muted (stopAudioPlayback st).
Proof.
  unfold stopAudioPlayback, muted.
  destruct (context_open (outputAudioContextRef (audio (set_nextStartTimeRef 0 _))))
    eqn:Hopen; [done|]. split; [done | exact Hopen].
Qed.

Lemma onInterrupted_muted amb cl st : muted st → muted (onInterrupted amb cl st).
Proof. unfold muted, onInterrupted, saveInquiry. intros [? ?]. cases; done. Qed.

Lemma onmessage_rest_muted amb cl m st :
  muted st → muted (onmessage_rest amb cl m st).
Proof.
  intros Hm. unfold muted. rewrite after_interruption_audio.
  destruct (interrupted m); [by apply onInterrupted_muted | done].
Qed.

Lemma handleToolCall_resume_audio getAlt cl fc outcome st :
  audio (handleToolCall_resume getAlt cl fc outcome st) = audio st.
Proof.
  unfold handleToolCall_resume, finish, search_property, sendToolResponse, setTimeout.
  destruct (fc_query fc), outcome as [[|p ps]|e];
    try destruct (getAlt _); cases; done.
Qed.

Lemma step_muted getAlt st e :
  connects e = false → muted st → muted (step getAlt st e).
Proof.
  intros He Hm. destruct e; try discriminate He; cbn [step].
  - unfold onmessage. destruct (sessionRef (conn st)); [|done].
    destruct Hm as [Hs Hopen]. rewrite Hopen, andb_false_r.
    by apply onmessage_rest_muted.
  - destruct (_ !! _) as [[cl m]|]; [|done].
    unfold onmessage_resume. destruct buffer; [|done].
    destruct Hm as [Hs Hopen]. cbn. by rewrite Hopen.
  - destruct (_ !! _) as [[cl fc]|]; [|done].
    eapply muted_audio; [|exact Hm]. by rewrite handleToolCall_resume_audio.
  - destruct Hm as [Hs Hopen]. split; [|done]. cbn. rewrite Hs.
    apply elem_of_equiv_empty_L. intros x [Hx _]%elem_of_difference.
    by apply elem_of_empty in Hx.
  - done.
  - unfold onerror. destruct (_ <? _); [done | apply stopSession_muted].
  - unfold onclose. destruct (_ || _); [apply stopSession_muted | done].
  - apply stopSession_muted.
  - done.
  - apply stopAudioPlayback_muted.
Qed.

Lemma run_muted getAlt st es :
  forallb (fun e => negb (connects e)) es = true →
  muted st → muted (run getAlt st es).
Proof.
  unfold run. revert st.
  induction es as [|e es IH]; intros st Hes Hm; [done|].
  cbn [forallb fold_left] in *. apply andb_true_iff in Hes as [He Hes].
  apply IH; [done|]. apply step_muted; [by destruct (connects e) | done].
Qed.

(** X10. Closing the lead form closes the output audio context, and
    nothing reopens it but a new connection: until a connection is
    requested or a timer fires, no source is scheduled and every audio
    chunk that arrives is skipped without being decoded. *)
Theorem closed_lead_form_mutes getAlt st es :
  forallb (fun e => negb (connects e)) es = true →
  let st' := run getAlt (handleCloseLeadForm st) es in
  sourcesRef (audio st') = ∅
  ∧ ∀ amb cl currentTime m,
      onmessage amb cl currentTime m st'
      = match sessionRef (conn st') with
        | Some _ => onmessage_rest amb cl m st'
        | None => st'
        end.
Proof.
  intros Hes. cbn zeta.
  destruct (run_muted getAlt (handleCloseLeadForm st) es Hes) as [Hs Hopen].
  { apply stopAudioPlayback_muted. }
  split; [done|]. intros amb cl currentTime m. unfold onmessage.
  by rewrite Hopen, andb_false_r.
Qed.

Lemma closed_lead_form_mutes_witness :
  let st' := run noAlternatives (handleCloseLeadForm playing)
               [Message amb0 cl0 0 (inputFragment "فيلا")] in
  sourcesRef (audio st') = ∅
  ∧ ∀ amb cl currentTime m,
      onmessage amb cl currentTime m st'
      = match sessionRef (conn st') with
        | Some _ => onmessage_rest amb cl m st'
        | None => st'
        end.
Proof.
  apply (closed_lead_form_mutes noAlternatives playing
           [Message amb0 cl0 0 (inputFragment "فيلا")]).
  reflexivity.
Defined.

(** ** The dispatcher and the result lookup *)



(** A search that settles without a property, or that was given no query,
    changes nothing of what is displayed when it settles. *)
Lemma fruitless_resume_keeps_display getAlt cl fc outcome st :
  fc_query fc = None ∨ outcome = Resolved [] ∨ (∃ e, outcome = Rejected e) →
  let st' := handleToolCall_resume getAlt cl fc outcome st in
  ui st' = ui st ∧ flags st' = flags st.
Proof.
  intros Hfruitless. cbn zeta.
  unfold handleToolCall_resume, finish, search_property, sendToolResponse, setTimeout.
  destruct (fc_query fc) as [q|] eqn:Hq, outcome as [[|p ps]|e];
    try (by destruct Hfruitless as [?|[?|[? ?]]]);
    try destruct (getAlt _); cases; done.
Qed.

(** X12. A search that finds nothing, that fails, or that was given no
    query, changes nothing of the active property, the history, the
    gallery, the status, the transcript and the notification, from the
    message that brings the call to the answer; the lead form it closes
    if [showLeadFormRef] is set, as every search does. *)
Theorem fruitless_search_keeps_display getAlt amb cl currentTime fc outcome st :
  sessionRef (conn st) ≠ None →
  isProcessingRef (flags st) = false →
  fc_name fc = "search_property" →
  fc_query fc = None ∨ outcome = Resolved [] ∨ (∃ e, outcome = Rejected e) →
  let st' :=
    run getAlt st
      [Message amb cl currentTime (toolCalls [fc]);
       SearchSettled (length (pendingSearches (runtime st))) outcome] in
  ui st' = ui (if showLeadFormRef (flags st) then setShowLeadForm false st else st)
  ∧ showGalleryRef (flags st') = showGalleryRef (flags st)
  ∧ showLeadFormRef (flags st') = false
  ∧ isProcessingRef (flags st') = true.
Proof.
  intros Hlive Hfree Hname Hfruitless. cbn zeta.
  unfold run. cbn [fold_left step]. unfold onmessage.
  destruct (sessionRef (conn st)) as [s|]; [clear Hlive|done].
  change (has_audio (toolCalls [fc])) with false. cbn [andb].
  change (onmessage_rest amb cl (toolCalls [fc]) st)
    with (handleToolCall cl fc st).
  unfold handleToolCall. rewrite Hfree, Hname.
  cbn [String.eqb Ascii.eqb Bool.eqb].
  set (st1 := closeLeadFormForSearch fc _).
  assert (ui st1
          = ui (if showLeadFormRef (flags st) then setShowLeadForm false st else st)
          ∧ showGalleryRef (flags st1) = showGalleryRef (flags st)
          ∧ showLeadFormRef (flags st1) = false
          ∧ isProcessingRef (flags st1) = true
          ∧ pendingSearches (runtime st1) = pendingSearches (runtime st))
    as (Hui & Hgallery & Hform & Hheld & Hpending).
  { subst st1. unfold closeLeadFormForSearch. rewrite Hname. cbn.
    by destruct (showLeadFormRef (flags st)) eqn:Href. }
  clearbody st1.
  destruct (fc_args fc) as [args|] eqn:Hargs.
  - cbn [pendingSearches runtime set_pendingSearches with_runtime].
    rewrite Hpending, list_lookup_middle by done.
    match goal with
    | |- context [handleToolCall_resume getAlt cl fc outcome ?s0] =>
        destruct (fruitless_resume_keeps_display getAlt cl fc outcome s0 Hfruitless)
          as [-> ->]
    end.
    done.
  - assert (pendingSearches
              (runtime (finish fc (st1, Some "حدث خطأ في البحث. حاول مرة ثانية.")))
            = pendingSearches (runtime st)) as ->.
    { rewrite <- Hpending.
      by destruct (finish_spec fc st1 "حدث خطأ في البحث. حاول مرة ثانية.")
        as (_ & ? & _). }
    rewrite lookup_ge_None_2 by lia.
    unfold finish, sendToolResponse, setTimeout.
    destruct (sessionPromiseRef (conn st1)); done.
Qed.

Lemma fruitless_search_keeps_display_witness :
  let st' :=
    run noAlternatives live
      [Message amb0 first_session 0 (toolCalls [search_call]);
       SearchSettled (length (pendingSearches (runtime live))) (Resolved [])] in
  ui st' = ui (if showLeadFormRef (flags live) then setShowLeadForm false live else live)
  ∧ showGalleryRef (flags st') = showGalleryRef (flags live)
  ∧ showLeadFormRef (flags st') = false
  ∧ isProcessingRef (flags st') = true.
Proof.
  apply (fruitless_search_keeps_display noAlternatives amb0 first_session 0
           search_call (Resolved []) live).
  - by vm_compute.
  - reflexivity.
  - reflexivity.
  - right. left. reflexivity.
Defined.

(** ** The result lookup *)

Lemma catalogue_ids : NoDup (prop_id <$> Lookup.MOCK_PROPERTIES).
Proof. apply (bool_decide_unpack _). by vm_compute. Qed.

Lemma catalogue_ids_truthy :
  Forall (fun p => Js.truthy (prop_id p) = true) Lookup.MOCK_PROPERTIES.
Proof. apply (bool_decide_unpack _). by vm_compute. Qed.

Lemma filter_elem_of {A} (f : A → bool) (l : list A) x :
  x ∈ List.filter f l ↔ x ∈ l ∧ f x = true.
Proof. rewrite !list_elem_of_In. apply List.filter_In. Qed.

Lemma filter_ids_NoDup (f : Property → bool) (l : list Property) :
  NoDup (prop_id <$> l) → NoDup (prop_id <$> List.filter f l).
Proof.
  induction l as [|p l IH]; cbn; [done|].
  intros [Hp Hl]%NoDup_cons. destruct (f p); cbn; [|by apply IH].
  apply NoDup_cons. split; [|by apply IH].
  intros (q & Heq & [Hq _]%filter_elem_of)%list_elem_of_fmap.
  apply Hp, list_elem_of_fmap. by exists q.
Qed.

Lemma move_to_end_Permutation id l : Lookup.move_to_end id l ≡ₚ l.
Proof.
  unfold Lookup.move_to_end.
  destruct (list_find _ l) as [[i y]|] eqn:Hfind; [|done].
  apply list_find_Some in Hfind as (Hi & _ & _).
  rewrite (delete_Permutation l i y Hi) at 2.
  by rewrite Permutation_app_comm.
Qed.

Lemma move_to_end_head id l x xs :
  NoDup (prop_id <$> l) → 1 < length l →
  Lookup.move_to_end id l = x :: xs → prop_id x ≠ id.
Proof.
  intros Hnodup Hlen. unfold Lookup.move_to_end.
  destruct (list_find _ l) as [[i y]|] eqn:Hfind.
  - apply list_find_Some in Hfind as (Hi & Hy & Hfirst).
    destruct l as [|z l]; [done|]. destruct i as [|i]; cbn in *.
    + injection Hi as ->. destruct l as [|z l]; cbn in *; [lia|].
      intros [= -> _]. apply NoDup_cons in Hnodup as [Hnotin _].
      intros Heq. apply Hnotin. rewrite Hy, <- Heq. apply list_elem_of_here.
    + intros [= -> _]. apply (Hfirst 0 x); [done | lia].
  - apply list_find_None in Hfind. intros ->.
    by apply Forall_cons in Hfind as [? _].
Qed.

Lemma searchProperties_spec query last :
  let r := Lookup.searchProperties query last in
  Lookup.found r
    ≡ₚ List.filter (Lookup.matches (Js.toLowerCase query)) Lookup.MOCK_PROPERTIES
  ∧ (Lookup.found r = [] →
     Lookup.after r = 500%Z ∧ Lookup.lastShown r = last)
  ∧ (∀ p ps, Lookup.found r = p :: ps →
     Lookup.after r = 800%Z ∧ Lookup.lastShown r = Some (prop_id p)).
Proof.
  cbn zeta. unfold Lookup.searchProperties.
  destruct (List.filter _ _) as [|p0 ps0] eqn:Hresults; [by repeat split|].
  cbn [Lookup.found Lookup.after Lookup.lastShown].
  set (results := match last with Some id => _ | None => _ end).
  assert (results ≡ₚ p0 :: ps0) as Hperm.
  { subst results. destruct last as [id|]; [|done].
    destruct (_ && _); [apply move_to_end_Permutation | done]. }
  split; [done|]. split.
  - intros Hnil. rewrite Hnil in Hperm. by apply Permutation_nil_cons in Hperm.
  - by intros p ps ->.
Qed.


(** X13. [searchProperties] resolves to the properties of the catalogue
    that satisfy the query, all of them and each once, 800 ms after the
    call, and remembers the first of them; when none satisfies the query
    it resolves to the empty list after 500 ms and forgets nothing. *)
Theorem searchProperties_finds_the_matches query last :
  let r := Lookup.searchProperties query last in
  Lookup.found r
    ≡ₚ List.filter (Lookup.matches (Js.toLowerCase query)) Lookup.MOCK_PROPERTIES
  ∧ (Lookup.found r = [] →
     Lookup.after r = 500%Z ∧ Lookup.lastShown r = last)
  ∧ (∀ p ps, Lookup.found r = p :: ps →
     Lookup.after r = 800%Z ∧ Lookup.lastShown r = Some (prop_id p)).
Proof. apply searchProperties_spec. Qed.

(** X14. When more than one property satisfies the query, the first
    result is never the property that the previous search showed first:
    two searches in a row do not open the gallery on the same property. *)
Theorem searchProperties_avoids_last_shown query0 last query :
  let r0 := Lookup.searchProperties query0 last in
  let r := Lookup.searchProperties query (Lookup.lastShown r0) in
  1 < length (Lookup.found r) →
  ∃ p ps, Lookup.found r = p :: ps
          ∧ ∀ p0, head (Lookup.found r0) = Some p0 → prop_id p ≠ prop_id p0.
Proof.
  cbn zeta.
  destruct (searchProperties_spec query0 last) as (_ & _ & Hlast).
  intros Hlen.
  destruct (Lookup.found (Lookup.searchProperties query _)) as [|p ps] eqn:Hfound;
    [cbn in Hlen; lia|].
  exists p, ps. split; [done|]. intros p0 Hp0.
  destruct (Lookup.found (Lookup.searchProperties query0 last)) as [|p0' ps0] eqn:H0;
    [done|]. injection Hp0 as ->.
  destruct (Hlast p0 ps0 eq_refl) as [_ Hshown]. rewrite Hshown in Hfound.
  clear Hlast H0 Hshown.
  destruct (searchProperties_spec query (Some (prop_id p0))) as (Hperm & _ & _).
  rewrite Hfound in Hperm. revert Hfound. unfold Lookup.searchProperties.
  set (results := List.filter _ _) in *.
  assert (NoDup (prop_id <$> results)) as Hnodup
    by apply filter_ids_NoDup, catalogue_ids.
  destruct results as [|x xs] eqn:Hresults; [done|].
  cbn [Lookup.found].
  apply Permutation_length in Hperm. rewrite <- Hperm. 
  destruct (Nat.ltb_spec 1 (length (p :: ps))) as [_|?]; [|lia].
  destruct (Js.truthy (prop_id p0)) eqn:Htruthy; cbn [andb].
  - intros Hmoved.
    apply (move_to_end_head (prop_id p0) (x :: xs) p ps); [done | lia | done].
  - intros [= -> ->]. intros Heq. rewrite <- Heq in Htruthy.
    assert (p ∈ Lookup.MOCK_PROPERTIES) as Hin.
    { assert (p ∈ p :: ps) as Hin by apply list_elem_of_here.
      rewrite <- Hresults in Hin. by apply filter_elem_of in Hin as [? _]. }
    pose proof catalogue_ids_truthy as Hall.
    rewrite Forall_forall in Hall. apply Hall in Hin. congruence.
Qed.

Lemma searchProperties_avoids_last_shown_witness :
  let r0 := Lookup.searchProperties "فيلا في الرياض" None in
  let r := Lookup.searchProperties "فيلا في الرياض" (Lookup.lastShown r0) in
  ∃ p ps, Lookup.found r = p :: ps
          ∧ ∀ p0, head (Lookup.found r0) = Some p0 → prop_id p ≠ prop_id p0.
Proof.
  apply (searchProperties_avoids_last_shown "فيلا في الرياض" None "فيلا في الرياض").
  vm_compute. lia.
Defined.

(** ** Alternative neighbourhoods *)

Lemma addNeighborhood_NoDup type locations p :
  NoDup locations → NoDup (Lookup.addNeighborhood type locations p).
Proof.
  intros Hnodup. unfold Lookup.addNeighborhood.
  destruct (Lookup.typeRequested type p); [|done].
  destruct (JsText.split _ _) as [|first [|second rest]]; [done..|].
  case_bool_decide as Hin; [done|].
  apply NoDup_app. split; [done|]. split; [|apply NoDup_singleton].
  by intros x Hx ->%list_elem_of_singleton.
Qed.

(** The neighbourhood of a property: the second part of its location. *)
Lemma addNeighborhood_elem_of type locations p n :
  n ∈ Lookup.addNeighborhood type locations p →
  n ∈ locations
  ∨ (Lookup.typeRequested type p = true
     ∧ ∃ first second rest,
         JsText.split "،" (location p) = first :: second :: rest
         ∧ n = JsText.trim second).
Proof.
  unfold Lookup.addNeighborhood.
  destruct (Lookup.typeRequested type p); [|by left].
  destruct (JsText.split _ _) as [|first [|second rest]]; [by left..|].
  case_bool_decide; [by left|].
  intros [?| ->%list_elem_of_singleton]%elem_of_app; [by left|].
  right. split; [done|]. by exists first, second, rest.
Qed.

(** X15. [getAlternativeLocations] names no neighbourhood twice, every
    neighbourhood it names is that of a property of the catalogue whose
    type the query asks for, and it names none when the query asks for no
    type the catalogue has. *)
Theorem getAlternativeLocations_neighbourhoods propertyType :
  let type := Js.toLowerCase propertyType in
  let alternatives := Lookup.getAlternativeLocations propertyType in
  NoDup alternatives
  ∧ (∀ n, n ∈ alternatives →
       ∃ p first second rest,
         p ∈ Lookup.MOCK_PROPERTIES
         ∧ Lookup.typeRequested type p = true
         ∧ JsText.split "،" (location p) = first :: second :: rest
         ∧ n = JsText.trim second)
  ∧ (Forall (fun p => Lookup.typeRequested type p = false) Lookup.MOCK_PROPERTIES →
     alternatives = []).
Proof.
  cbn zeta. unfold Lookup.getAlternativeLocations.
  generalize (Js.toLowerCase propertyType) as type. intros type.
  assert (Hgen : ∀ catalogue locations,
    NoDup locations →
    let result := fold_left (Lookup.addNeighborhood type) catalogue locations in
    NoDup result
    ∧ (∀ n, n ∈ result →
         n ∈ locations
         ∨ ∃ p first second rest,
             p ∈ catalogue
             ∧ Lookup.typeRequested type p = true
             ∧ JsText.split "،" (location p) = first :: second :: rest
             ∧ n = JsText.trim second)
    ∧ (Forall (fun p => Lookup.typeRequested type p = false) catalogue →
       result = locations)).
  { induction catalogue as [|p catalogue IH]; intros locations Hnodup; cbn zeta.
    - cbn. split; [done|]. split; [by left | done].
    - cbn [fold_left].
      destruct (IH (Lookup.addNeighborhood type locations p)) as (Hn & Hin & Hnone).
      { by apply addNeighborhood_NoDup. }
      split; [done|]. split.
      + intros n [Hold|(q & first & second & rest & Hq & ?)]%Hin.
        * apply addNeighborhood_elem_of in Hold
            as [?|(? & first & second & rest & ? & ?)]; [by left|].
          right. exists p, first, second, rest. split; [apply list_elem_of_here|done].
        * right. exists q, first, second, rest.
          split; [by apply list_elem_of_further | done].
      + intros [Hp Hrest]%Forall_cons. rewrite Hnone by done.
        unfold Lookup.addNeighborhood. by rewrite Hp. }
  destruct (Hgen Lookup.MOCK_PROPERTIES [] (NoDup_nil_2)) as (Hn & Hin & Hnone).
  split; [done|]. split; [|done].
  intros n [Hn0|?]%Hin; [|done]. by apply elem_of_nil in Hn0.
Qed.

(** ** The log sink over a conversation *)

Lemma slice_from_slice {A} (n : nat) (l l' : list A) :
  0 < n →
  Js.slice_from (- Z.of_nat n) (Js.slice_from (- Z.of_nat n) l ++ l')
  = Js.slice_from (- Z.of_nat n) (l ++ l').
Proof.
  intros Hn. rewrite !slice_from_neg by done.
  rewrite !drop_app, !length_app, !length_drop, !drop_drop.
  f_equal; f_equal; lia.
Qed.

Lemma saveInquiry_store amb u b o s :
  sessionId (MockApi.saveInquiry amb u b o s).1 = (MockApi.getSessionId amb s).1
  ∧ MockApi.currentSessionId (MockApi.saveInquiry amb u b o s).2
    = Some (MockApi.getSessionId amb s).1
  ∧ MockApi.manasat_inquiries (MockApi.saveInquiry amb u b o s).2
    = Js.slice_from (-200)
        (MockApi.manasat_inquiries s ++ [(MockApi.saveInquiry amb u b o s).1]).
Proof.
  unfold MockApi.saveInquiry, MockApi.getSessionId.
  destruct (MockApi.currentSessionId s) eqn:Hsid; cbn; by rewrite ?Hsid.
Qed.

Lemma getSessionId_current amb s sid :
  MockApi.currentSessionId s = Some sid → (MockApi.getSessionId amb s).1 = sid.
Proof. unfold MockApi.getSessionId. by intros ->. Qed.

Lemma save_all_sessionId calls : ∀ s sid,
  MockApi.currentSessionId s = Some sid →
  Forall (fun log => sessionId log = sid) (save_all calls s).1
  ∧ MockApi.currentSessionId (save_all calls s).2 = Some sid.
Proof.
  induction calls as [|c calls IH]; intros s sid Hsid; cbn [save_all]; [done|].
  destruct (saveInquiry_store (save_amb c) (save_userMessage c)
              (save_botResponse c) (save_options c) s) as (Hlog & Hs1 & _).
  rewrite (getSessionId_current _ _ _ Hsid) in Hlog, Hs1.
  destruct (MockApi.saveInquiry _ _ _ _ s) as [log s1]. cbn [fst snd] in *.
  destruct (IH s1 sid Hs1) as [Hall Hs2].
  destruct (save_all calls s1) as [logs s2]. cbn [fst snd] in *.
  split; [by apply Forall_cons | done].
Qed.

Lemma save_all_stored calls : ∀ s,
  calls ≠ [] →
  MockApi.manasat_inquiries (save_all calls s).2
  = Js.slice_from (-200) (MockApi.manasat_inquiries s ++ (save_all calls s).1).
Proof.
  induction calls as [|c calls IH]; intros s Hcalls; [done|]. cbn [save_all].
  destruct (saveInquiry_store (save_amb c) (save_userMessage c)
              (save_botResponse c) (save_options c) s) as (_ & _ & Hstored).
  destruct (MockApi.saveInquiry _ _ _ _ s) as [log s1]. cbn [fst snd] in *.
  destruct calls as [|c' calls'] eqn:Hrest; [done|]. rewrite <- Hrest in *.
  specialize (IH s1). rewrite Hrest in IH at 1. specialize (IH ltac:(done)).
  destruct (save_all calls s1) as [logs s2]. cbn [fst snd] in *.
  rewrite IH, Hstored. change (-200)%Z with (- Z.of_nat 200)%Z.
  rewrite slice_from_slice by lia. by rewrite <- app_assoc.
Qed.

(** X16. All the records written between two stops carry one session
    identifier: the one the store holds, or, when it holds none, the one
    that the first call makes from its clock and its random tag. *)
Theorem records_share_session c calls s :
  let sid := (MockApi.getSessionId (save_amb c) s).1 in
  Forall (fun log => sessionId log = sid) (save_all (c :: calls) s).1
  ∧ MockApi.currentSessionId (save_all (c :: calls) s).2 = Some sid
  ∧ (MockApi.currentSessionId s = None →
     sid = "session_" +:+ Js.show_int (dateNow (save_amb c)) +:+ "_"
           +:+ randomTag (save_amb c)).
Proof.
  cbn zeta. cbn [save_all].
  destruct (saveInquiry_store (save_amb c) (save_userMessage c)
              (save_botResponse c) (save_options c) s) as (Hlog & Hs1 & _).
  destruct (MockApi.saveInquiry _ _ _ _ s) as [log s1]. cbn [fst snd] in *.
  destruct (save_all_sessionId calls s1 _ Hs1) as [Hall Hs2].
  destruct (save_all calls s1) as [logs s2]. cbn [fst snd] in *.
  split; [by apply Forall_cons|]. split; [done|].
  unfold MockApi.getSessionId. by intros ->.
Qed.

(** X17. After any number of calls, the sink holds the last 200 of the
    records it held before followed by the records written since. *)
Theorem sink_holds_last_200_of_all calls s :
  calls ≠ [] →
  MockApi.manasat_inquiries (save_all calls s).2
  = Js.slice_from (-200) (MockApi.manasat_inquiries s ++ (save_all calls s).1)
  ∧ length (save_all calls s).1 = length calls
  ∧ length (MockApi.manasat_inquiries (save_all calls s).2) ≤ 200.
Proof.
  intros Hcalls. rewrite save_all_stored by done. split; [done|]. split.
  - clear Hcalls. revert s. induction calls as [|c calls IH]; intros s; [done|].
    cbn [save_all]. destruct (MockApi.saveInquiry _ _ _ _ s) as [log s1].
    specialize (IH s1). destruct (save_all calls s1) as [logs s2].
    cbn in *. by rewrite IH.
  - change (-200)%Z with (- Z.of_nat 200)%Z. rewrite slice_from_neg by lia.
    rewrite length_drop. lia.
Qed.

Lemma sink_holds_last_200_of_all_witness :
  MockApi.manasat_inquiries (save_all greet_then_ask MockApi.empty).2
  = Js.slice_from (-200)
      (MockApi.manasat_inquiries MockApi.empty
         ++ (save_all greet_then_ask MockApi.empty).1)
  ∧ length (save_all greet_then_ask MockApi.empty).1 = length greet_then_ask
  ∧ length (MockApi.manasat_inquiries (save_all greet_then_ask MockApi.empty).2)
    ≤ 200.
Proof. apply (sink_holds_last_200_of_all greet_then_ask MockApi.empty). done. Defined.

(** ** Intents *)

Lemma test_alternatives_weaken alts1 alts2 s :
  (∀ a, In a alts1 → In a alts2) →
  Js.test_alternatives alts1 s = true → Js.test_alternatives alts2 s = true.
Proof.
  unfold Js.test_alternatives. rewrite !existsb_exists.
  intros Hsub (a & Ha & Htest). exists a. auto.
Qed.

(** X18. A message that names a kind of property is filed as a search,
    or as a greeting when it also greets: never as a price inquiry, a
    booking, a request for information or a complaint. *)
Theorem typed_message_is_search message type :
  MockApi.extractPropertyType message = Some type →
  MockApi.detectIntent message = greeting ∨ MockApi.detectIntent message = search.
Proof.
  unfold MockApi.extractPropertyType, MockApi.detectIntent.
  set (msg := Js.toLowerCase message). intros Htype.
  destruct (Js.test_alternatives ("سلام" :: _) msg); [by left|]. right.
  assert (Js.test_alternatives
            ["فيلا"; "شقة"; "شقق"; "أرض"; "ارض"; "عقار"; "أبي"; "أبغى"; "ابي"; "ابغى";
             "عندكم"; "ابحث"; "دور"] msg = true) as ->; [|done].
  destruct (Js.test_alternatives ["فيلا"] msg) eqn:H1;
    [|destruct (Js.test_alternatives ["شقة"; "شقق"] msg) eqn:H2;
      [|destruct (Js.test_alternatives ["أرض"; "ارض"] msg) eqn:H3; [|done]]];
    (eapply test_alternatives_weaken; [|eassumption]); cbn; tauto.
Qed.

Lemma typed_message_is_search_witness :
  MockApi.detectIntent "كم سعر الفيلا" = greeting
  ∨ MockApi.detectIntent "كم سعر الفيلا" = search.
Proof.
  apply (typed_message_is_search "كم سعر الفيلا" "فيلا"). reflexivity.
Defined.

(** ** The report of the dashboard *)

Lemma logs_with_app {A} `{EqDecision A} (field : ConversationLog → A) a l1 l2 :
  logs_with field a (l1 ++ l2) = logs_with field a l1 + logs_with field a l2.
Proof. unfold logs_with. by rewrite List.filter_app, length_app. Qed.

Lemma logs_with_singleton {A} `{EqDecision A} (field : ConversationLog → A) a log :
  logs_with field a [log] = if decide (field log = a) then 1 else 0.
Proof. unfold logs_with. cbn. by case_bool_decide; case_decide. Qed.

Lemma count_elem_of k k' n counts :
  NoDup (counts.*1) →
  (k, n) ∈ Analytics.count k' counts
  ↔ (k ≠ k' ∧ (k, n) ∈ counts)
    ∨ (k = k' ∧ (((k' ∉ counts.*1) ∧ n = 1) ∨ ∃ m, (k', m) ∈ counts ∧ n = S m)).
Proof.
  induction counts as [|[k0 n0] counts IH]; cbn [Analytics.count].
  - intros _. rewrite list_elem_of_singleton. split.
    + intros [= -> ->]. right. split; [done|]. left. split; [apply not_elem_of_nil|done].
    + intros [[_ H]|[-> [[_ ->]|(m & H & _)]]]; try done; by apply elem_of_nil in H.
  - intros [Hk0 Hnodup]%NoDup_cons. specialize (IH Hnodup).
    assert (Hkey : ∀ m, (k0, m) ∈ counts → False).
    { intros m Hin. apply Hk0, list_elem_of_fmap. by exists (k0, m). }
    destruct (String.eqb_spec k0 k') as [->|Hne]; cbn iota.
    + rewrite !elem_of_cons. split.
      * intros [Heq|Hin].
        -- injection Heq as ? ?; subst. right. split; [done|]. right.
           exists n0. split; [by left|done].
        -- left. split; [|by right]. intros ->. by apply (Hkey n).
      * intros [[Hne [Heq|Hin]]|[-> [[Hnotin _]|(m & [Heq|Hin]%elem_of_cons & ->)]]].
        -- by injection Heq as ? ?; subst.
        -- by right.
        -- exfalso. apply Hnotin. cbn. apply list_elem_of_here.
        -- injection Heq as ?; subst. by left.
        -- exfalso. by apply (Hkey m).
    + rewrite !elem_of_cons, IH. cbn [fmap list_fmap fst]. split.
      * intros [Heq|[[? ?]|[-> [[? ->]|(m & ? & ->)]]]].
        -- injection Heq as ? ?; subst. left. split; [done|by left].
        -- left. split; [done|by right].
        -- right. split; [done|]. left. split; [|done].
           apply not_elem_of_cons. by split.
        -- right. split; [done|]. right. exists m. split; [by right|done].
      * intros [[? [Heq|?]]|[-> [[Hnotin ->]|(m & [Heq|?]%elem_of_cons & ->)]]].
        -- by left.
        -- right. left. done.
        -- right. right. split; [done|]. left. split; [|done].
           by apply not_elem_of_cons in Hnotin as [_ ?].
        -- by injection Heq as ? ?; subst.
        -- right. right. split; [done|]. right. by exists m.
Qed.

Lemma count_keys k' counts :
  NoDup (counts.*1) → NoDup ((Analytics.count k' counts).*1).
Proof.
  induction counts as [|[k0 n0] counts IH]; cbn.
  - intros _. apply NoDup_singleton.
  - intros [Hk0 Hnodup]%NoDup_cons.
    destruct (String.eqb_spec k0 k') as [->|Hne]; cbn.
    + by apply NoDup_cons.
    + apply NoDup_cons. split; [|by apply IH].
      intros ([k n] & Heq & Hin)%list_elem_of_fmap. cbn in Heq. subst k.
      apply count_elem_of in Hin as [[_ Hin]|[-> _]]; [|done..].
      apply Hk0, list_elem_of_fmap. by exists (k0, n).
Qed.

Lemma distribution_step field counts logs log :
  distribution field counts logs →
  distribution field (Analytics.countIf (field log) counts) (logs ++ [log]).
Proof.
  intros [Hnodup Hcounts]. unfold Analytics.countIf.
  assert (Hsame : ∀ k, field log ≠ Some k →
            logs_with field (Some k) (logs ++ [log]) = logs_with field (Some k) logs).
  { intros k Hk. rewrite logs_with_app, logs_with_singleton.
    case_decide; [done | lia]. }
  assert (Hmore : ∀ k, field log = Some k →
            logs_with field (Some k) (logs ++ [log])
            = S (logs_with field (Some k) logs)).
  { intros k Hk. rewrite logs_with_app, logs_with_singleton.
    case_decide; [lia | done]. }
  destruct (field log) as [k'|] eqn:Hfield;
    [destruct (Js.truthy k') eqn:Htruthy|].
  - split; [by apply count_keys|]. intros k n.
    rewrite count_elem_of by done. split.
    + intros [[Hne Hin]|[-> [[Hnotin ->]|(m & Hin & ->)]]].
      * rewrite Hsame by congruence. by apply Hcounts.
      * rewrite Hmore by done. split; [done|]. split; [lia|]. f_equal.
        destruct (logs_with field (Some k') logs) as [|c] eqn:Hc; [done|].
        exfalso. apply Hnotin. apply list_elem_of_fmap. exists (k', S c).
        split; [done|]. apply Hcounts. rewrite Hc. repeat split; [done | lia].
      * rewrite Hmore by done. apply Hcounts in Hin as (? & ? & ->).
        repeat split; [done | lia].
    + intros (Hk & Hn & ->). destruct (decide (k = k')) as [->|Hne].
      * right. split; [done|]. rewrite Hmore by done.
        destruct (logs_with field (Some k') logs) as [|c] eqn:Hc.
        -- left. split; [|done].
           intros ([k n] & Heq & Hin)%list_elem_of_fmap. cbn in Heq. subst k.
           apply Hcounts in Hin as (_ & ? & ->). lia.
        -- right. exists (S c). split; [|done]. apply Hcounts.
           rewrite Hc. repeat split; [done | lia].
      * left. split; [done|]. rewrite Hsame in * by congruence.
        by apply Hcounts.
  - split; [done|]. intros k n. rewrite Hcounts.
    assert (k ≠ k' ∨ Js.truthy k = false) as Hk.
    { destruct (decide (k = k')) as [->|]; [by right | by left]. }
    destruct Hk as [Hne|Hfalsy].
    + rewrite Hsame by congruence. done.
    + rewrite Hfalsy. split; intros (? & _); done.
  - split; [done|]. intros k n. rewrite Hcounts, Hsame by done. done.
Qed.

Lemma distribution_nil field : distribution field [] [].
Proof.
  split; [apply NoDup_nil_2|]. intros k n. split.
  - by intros ?%elem_of_nil.
  - intros (_ & ? & ->). cbn in *. lia.
Qed.

Lemma bump_spec {K} `{EqDecision K} (field : ConversationLog → K) counts logs log :
  (∀ k, counts k = logs_with field k logs) →
  ∀ k, Analytics.bump (field log) counts k = logs_with field k (logs ++ [log]).
Proof.
  intros Hcounts k. unfold Analytics.bump.
  rewrite logs_with_app, logs_with_singleton, Hcounts.
  destruct (decide (k = field log)) as [->|Hne].
  - rewrite decide_True by done. lia.
  - rewrite decide_False by congruence. lia.
Qed.

Lemma tally_spec logs :
  let t := fold_left Analytics.tally logs Analytics.emptyTally in
  (∀ i, Analytics.t_intentCounts t i = logs_with intent i logs)
  ∧ (∀ st, Analytics.t_statusCounts t st = logs_with status st logs)
  ∧ Analytics.t_sessions t = list_to_set (sessionId <$> logs)
  ∧ distribution propertyType (Analytics.t_propertyTypeCounts t) logs
  ∧ distribution log_location (Analytics.t_locationCounts t) logs.
Proof.
  induction logs as [|log logs IH] using rev_ind; cbn zeta.
  - cbn. split; [done|]. split; [done|]. split; [done|].
    split; apply distribution_nil.
  - rewrite fold_left_app. cbn [fold_left].
    destruct IH as (Hi & Hs & Hsessions & Htypes & Hlocations).
    cbn [Analytics.tally Analytics.t_intentCounts Analytics.t_statusCounts
         Analytics.t_sessions Analytics.t_propertyTypeCounts
         Analytics.t_locationCounts].
    split; [by apply bump_spec|]. split; [by apply bump_spec|].
    split; [|split; by apply distribution_step].
    rewrite Hsessions, fmap_app, list_to_set_app_L. cbn.
    rewrite (right_id_L ∅ (∪)). apply (comm_L (∪)).
Qed.

Lemma logs_with_intents logs :
  logs_with intent greeting logs + logs_with intent search logs
  + logs_with intent price_inquiry logs + logs_with intent booking logs
  + logs_with intent info logs + logs_with intent complaint logs
  + logs_with intent other logs = length logs.
Proof.
  induction logs as [|log logs IH]; [done|].
  change (log :: logs) with ([log] ++ logs).
  rewrite !logs_with_app, !logs_with_singleton, length_app. cbn [length].
  destruct (intent log); repeat case_decide; try done; lia.
Qed.

Lemma logs_with_statuses logs :
  logs_with status status_complete logs + logs_with status status_interrupted logs
  + logs_with status status_error logs + logs_with status status_session_end logs
  = length logs.
Proof.
  induction logs as [|log logs IH]; [done|].
  change (log :: logs) with ([log] ++ logs).
  rewrite !logs_with_app, !logs_with_singleton, length_app. cbn [length].
  destruct (status log); repeat case_decide; try done; lia.
Qed.

Lemma sessions_bound (logs : list ConversationLog) :
  size (list_to_set (sessionId <$> logs) : gset string) ≤ length logs.
Proof.
  induction logs as [|log logs IH]; cbn; [by rewrite size_empty|].
  rewrite size_union_alt, size_singleton, size_difference_alt. lia.
Qed.

(** X19. The report counts exactly: every record is counted once under
    its intent and once under its status, so that each of the two
    distributions adds up to the number of conversations; a kind of
    property, and a place, is listed once, with the number of records
    that carry it; and there are no more sessions than conversations. *)
Theorem report_counts_exactly s :
  let r := Analytics.getAnalytics s in
  let logs := MockApi.manasat_inquiries s in
  Analytics.totalConversations r = length logs
  ∧ (∀ i, Analytics.intentCounts r i = logs_with intent i logs)
  ∧ (∀ st, Analytics.statusCounts r st = logs_with status st logs)
  ∧ Analytics.intentCounts r greeting + Analytics.intentCounts r search
    + Analytics.intentCounts r price_inquiry + Analytics.intentCounts r booking
    + Analytics.intentCounts r info + Analytics.intentCounts r complaint
    + Analytics.intentCounts r other = Analytics.totalConversations r
  ∧ Analytics.statusCounts r status_complete
    + Analytics.statusCounts r status_interrupted
    + Analytics.statusCounts r status_error
    + Analytics.statusCounts r status_session_end = Analytics.totalConversations r
  ∧ distribution propertyType (Analytics.propertyTypeCounts r) logs
  ∧ distribution log_location (Analytics.locationCounts r) logs
  ∧ Analytics.totalSessions r ≤ Analytics.totalConversations r.
Proof.
  cbn zeta. unfold Analytics.getAnalytics.
  destruct (tally_spec (MockApi.manasat_inquiries s))
    as (Hi & Hs & Hsessions & Htypes & Hlocations).
  cbn [Analytics.totalConversations Analytics.intentCounts Analytics.statusCounts
       Analytics.propertyTypeCounts Analytics.locationCounts Analytics.totalSessions].
  split; [done|]. split; [done|]. split; [done|].
  split; [rewrite !Hi; apply logs_with_intents|].
  split; [rewrite !Hs; apply logs_with_statuses|].
  split; [done|]. split; [done|].
  rewrite Hsessions. apply sessions_bound.
Qed.

(** *** The most searched entry *)

Lemma insert_by_count_Permutation e sorted :
  JsText.insert_by_count e sorted ≡ₚ e :: sorted.
Proof.
  induction sorted as [|x sorted IH]; cbn [JsText.insert_by_count]; [done|].
  destruct (_ <? _); [|done]. rewrite IH. apply Permutation_swap.
Qed.

Lemma sort_by_count_desc_Permutation entries :
  JsText.sort_by_count_desc entries ≡ₚ entries.
Proof.
  induction entries as [|e entries IH]; [done|].
  unfold JsText.sort_by_count_desc in *. cbn [foldr].
  by rewrite insert_by_count_Permutation, IH.
Qed.

Lemma insert_by_count_head e sorted h t :
  (∀ h0 t0, sorted = h0 :: t0 → Forall (fun x => x.2 ≤ h0.2) t0) →
  JsText.insert_by_count e sorted = h :: t → Forall (fun x => x.2 ≤ h.2) t.
Proof.
  destruct sorted as [|x sorted]; cbn [JsText.insert_by_count].
  - intros _ [= <- <-]. done.
  - intros Hhead. specialize (Hhead x sorted eq_refl).
    destruct (Nat.ltb_spec e.2 x.2) as [Hlt|Hge].
    + intros [= <- <-]. rewrite insert_by_count_Permutation.
      apply Forall_cons. split; [lia | done].
    + intros [= <- <-]. apply Forall_cons. split; [done|].
      eapply Forall_impl; [exact Hhead|]. cbn. intros; lia.
Qed.

Lemma sort_by_count_desc_head entries h t :
  JsText.sort_by_count_desc entries = h :: t → Forall (fun x => x.2 ≤ h.2) t.
Proof.
  revert h t. induction entries as [|e entries IH]; intros h t; [done|].
  unfold JsText.sort_by_count_desc in *. cbn [foldr].
  apply insert_by_count_head. intros h0 t0 Heq. by apply IH.
Qed.

Lemma mostSearched_spec field counts logs :
  distribution field counts logs →
  most_searched field (Analytics.mostSearched counts) logs.
Proof.
  intros [_ Hcounts]. unfold Analytics.mostSearched.
  pose proof (sort_by_count_desc_Permutation counts) as Hperm.
  pose proof (sort_by_count_desc_head counts) as Hhead.
  destruct (JsText.sort_by_count_desc counts) as [|[top n] rest].
  - apply Permutation_nil_l in Hperm as <-. split; [done|].
    intros (k & Hk & Hpos).
    assert ((k, logs_with field (Some k) logs) ∈ ([] : list (string * nat))) as Hin
      by by apply Hcounts.
    by apply elem_of_nil in Hin.
  - specialize (Hhead (top, n) rest eq_refl). cbn in Hhead.
    assert ((top, n) ∈ counts) as Htop.
    { rewrite <- Hperm. apply list_elem_of_here. }
    apply Hcounts in Htop as (Htruthy & Hpos & ->).
    unfold Js.or_else. rewrite Htruthy. split.
    + intros Hzero. rewrite Hzero in Hpos by done. lia.
    + intros _. split; [done|]. split; [done|]. intros k Hk.
      destruct (logs_with field (Some k) logs) as [|c] eqn:Hc; [lia|].
      assert ((k, S c) ∈ counts) as Hin.
      { apply Hcounts. rewrite Hc. repeat split; [done | lia]. }
      rewrite <- Hperm in Hin. apply elem_of_cons in Hin as [[= _ ->]|Hin]; [lia|].
      rewrite Forall_forall in Hhead. by apply Hhead in Hin.
Qed.

(** X20. The kind of property, and the place, that the report gives as
    the most searched is one that no other is found in more records than,
    among the records that carry one; it is N/A when no record carries
    any. *)
Theorem report_names_the_most_searched s :
  let r := Analytics.getAnalytics s in
  let logs := MockApi.manasat_inquiries s in
  most_searched propertyType (Analytics.mostSearchedType r) logs
  ∧ most_searched log_location (Analytics.mostSearchedLocation r) logs.
Proof.
  cbn zeta. unfold Analytics.getAnalytics.
  destruct (tally_spec (MockApi.manasat_inquiries s))
    as (_ & _ & _ & Htypes & Hlocations).
  cbn [Analytics.mostSearchedType Analytics.mostSearchedLocation].
  split; by apply mostSearched_spec.
Qed.

(** ** The error boundary *)

(** X21. The error boundary appends the error to the stored log and
    keeps the last 20 entries, the new one last; a stored value that
    cannot be read as a log is left as it is. *)
Theorem error_log_keeps_last_20 isoNow e stack componentStack log :
  let entry :=
    {| ErrorBoundary.entry_timestamp := isoNow;
       ErrorBoundary.entry_message := message e;
       ErrorBoundary.entry_stack := stack;
       ErrorBoundary.entry_componentStack := componentStack |} in
  (∃ stored,
     ErrorBoundary.componentDidCatch isoNow e stack componentStack (Some log)
     = Some stored
     ∧ stored = drop (length (log ++ [entry]) - 20) (log ++ [entry])
     ∧ length stored = Nat.min (length log + 1) 20
     ∧ last stored = Some entry)
  ∧ ErrorBoundary.componentDidCatch isoNow e stack componentStack None = None.
Proof.
  cbn zeta. split; [|done]. eexists. split; [reflexivity|].
  change (-20)%Z with (- Z.of_nat 20)%Z. rewrite slice_from_neg by lia.
  split; [done|]. split.
  - rewrite length_drop, length_app. cbn. lia.
  - rewrite last_drop_lt by (rewrite length_app; cbn; lia).
    by rewrite last_snoc.
Qed.

(** ** The gallery *)

Lemma rem_in_range (i n : Z) :
  (0 ≤ i)%Z → (0 < n)%Z → JsText.rem i n = Some (i mod n)%Z.
Proof.
  intros Hi Hn. unfold JsText.rem.
  destruct (Z.eqb_spec n 0) as [|_]; [lia|]. by rewrite Z.rem_mod_nonneg by lia.
Qed.

(** X22. With at least one image, the index of the gallery stays within
    the images, the next image after the last is the first and the one
    before the first is the last, and going forth and back, or back and
    forth, returns to the same image. *)
Theorem gallery_navigation_wraps (len : nat) (i : Z) g :
  0 < len →
  Gallery.currentIndex g = Some i →
  (0 ≤ i < Z.of_nat len)%Z →
  let n := Z.of_nat len in
  Gallery.currentIndex (Gallery.goNext len g) = Some ((i + 1) mod n)%Z
  ∧ Gallery.currentIndex (Gallery.goPrev len g) = Some ((i - 1) mod n)%Z
  ∧ Gallery.currentIndex (Gallery.goPrev len (Gallery.goNext len g)) = Some i
  ∧ Gallery.currentIndex (Gallery.goNext len (Gallery.goPrev len g)) = Some i
  ∧ Gallery.progress (Gallery.goNext len g) = 0%Z
  ∧ Gallery.progress (Gallery.goPrev len g) = 0%Z.
Proof.
  intros Hlen Hi Hrange. cbn zeta.
  assert (Hnext : ∀ g' j, Gallery.currentIndex g' = Some j → (0 ≤ j)%Z →
            Gallery.currentIndex (Gallery.goNext len g')
            = Some ((j + 1) mod Z.of_nat len)%Z
            ∧ Gallery.progress (Gallery.goNext len g') = 0%Z).
  { intros g' j Hj Hpos.
    unfold Gallery.goNext, Gallery.advance, Gallery.closeAfterTwoCycles.
    rewrite Hj. cbn [mbind option_bind]. rewrite rem_in_range by lia.
    by destruct (_ && _). }
  assert (Hprev : ∀ g' j, Gallery.currentIndex g' = Some j → (0 ≤ j)%Z →
            Gallery.currentIndex (Gallery.goPrev len g')
            = Some ((j - 1) mod Z.of_nat len)%Z
            ∧ Gallery.progress (Gallery.goPrev len g') = 0%Z).
  { intros g' j Hj Hpos. unfold Gallery.goPrev. cbn. rewrite Hj.
    cbn [mbind option_bind]. rewrite rem_in_range by lia.
    split; [|done]. f_equal.
    rewrite <- (Z.mod_add (j - 1) 1 (Z.of_nat len)) by lia. f_equal. lia. }
  destruct (Hnext g i Hi) as [Hn Hpn]; [lia|].
  destruct (Hprev g i Hi) as [Hp Hpp]; [lia|].
  destruct (Hprev (Gallery.goNext len g) _ Hn) as [Hpn' _].
  { apply Z.mod_pos_bound. lia. }
  destruct (Hnext (Gallery.goPrev len g) _ Hp) as [Hnp' _].
  { apply Z.mod_pos_bound. lia. }
  rewrite Hn, Hp, Hpn', Hnp'. repeat split; try done; f_equal.
  - rewrite Zminus_mod_idemp_l. replace (i + 1 - 1)%Z with i by lia.
    apply Z.mod_small. lia.
  - rewrite Zplus_mod_idemp_l. replace (i - 1 + 1)%Z with i by lia.
    apply Z.mod_small. lia.
Qed.

Lemma gallery_navigation_wraps_witness :
  let n := Z.of_nat 3 in
  Gallery.currentIndex (Gallery.goNext 3 Gallery.opened) = Some ((0 + 1) mod n)%Z
  ∧ Gallery.currentIndex (Gallery.goPrev 3 Gallery.opened) = Some ((0 - 1) mod n)%Z
  ∧ Gallery.currentIndex (Gallery.goPrev 3 (Gallery.goNext 3 Gallery.opened))
    = Some 0%Z
  ∧ Gallery.currentIndex (Gallery.goNext 3 (Gallery.goPrev 3 Gallery.opened))
    = Some 0%Z
  ∧ Gallery.progress (Gallery.goNext 3 Gallery.opened) = 0%Z
  ∧ Gallery.progress (Gallery.goPrev 3 Gallery.opened) = 0%Z.
Proof.
  apply (gallery_navigation_wraps 3 0 Gallery.opened); [lia | reflexivity | lia].
Defined.

Lemma div_mod_succ (k n : nat) :
  0 < n →
  (S k mod n = 0 ∧ S k / n = S (k / n))
  ∨ (S k mod n = S (k mod n) ∧ S k / n = k / n).
Proof.
  intros Hn.
  pose proof (Nat.div_mod_eq k n) as Hk.
  pose proof (Nat.mod_upper_bound k n ltac:(lia)) as Hr.
  destruct (decide (S (k mod n) = n)) as [Heq|Hne].
  - left. split.
    + symmetry. apply (Nat.mod_unique (S k) n (S (k / n)) 0); lia.
    + symmetry. apply (Nat.div_unique (S k) n (S (k / n)) 0); lia.
  - right. split.
    + symmetry. apply (Nat.mod_unique (S k) n (k / n) (S (k mod n))); lia.
    + symmetry. apply (Nat.div_unique (S k) n (k / n) (S (k mod n))); lia.
Qed.

Lemma advanced_state (len k : nat) :
  0 < len →
  Gallery.currentIndex (advanced len k) = Some (Z.of_nat (k mod len))
  ∧ Gallery.cycleCount (advanced len k) = k / len
  ∧ Gallery.closed (advanced len k) = k / len - 1
  ∧ Gallery.isPaused (advanced len k) = false.
Proof.
  intros Hlen. induction k as [|k (Hi & Hc & Hclosed & Hp)].
  { cbn. rewrite Nat.Div0.mod_0_l, Nat.Div0.div_0_l. done. }
  cbn [advanced]. set (g := advanced len k) in *.
  unfold Gallery.autoSlide. rewrite Hp.
  unfold Gallery.advance, Gallery.closeAfterTwoCycles.
  rewrite Hi, Hc, Hclosed, Hp. cbn [mbind option_bind].
  rewrite rem_in_range by lia.
  replace ((Z.of_nat (k mod len) + 1) mod Z.of_nat len)%Z
    with (Z.of_nat (S k mod len)).
  2:{ replace (Z.of_nat (k mod len) + 1)%Z with (Z.of_nat (k mod len + 1)) by lia.
      rewrite <- Nat2Z.inj_mod. f_equal.
      replace (S k) with (k + 1) by lia. by rewrite Nat.Div0.add_mod_idemp_l. }
  destruct (div_mod_succ k len Hlen) as [[Hm Hd]|[Hm Hd]]; rewrite Hm, Hd.
  - rewrite !(bool_decide_eq_true_2 (Some (Z.of_nat 0) = Some 0%Z)) by done.
    cbn [Gallery.cycleCount]. rewrite bool_decide_eq_true_2 by lia.
    destruct (Nat.leb_spec 2 (S (k / len))); cbn; repeat split; try done; lia.
  - rewrite !(bool_decide_eq_false_2 (Some (Z.of_nat (S (k mod len))) = Some 0%Z))
      by (intros [= ?]; lia).
    cbn [Gallery.cycleCount]. rewrite bool_decide_eq_false_2 by lia. cbn. done.
Qed.

(** X23. Left alone, a gallery of [n] images shows image [k mod n] when
    its timer has fired [k] times, and asks to be closed when the timer
    fires for the [2 n]-th time, not before. *)
Theorem gallery_closes_after_two_rounds (len k : nat) :
  0 < len →
  Gallery.currentIndex (advanced len k) = Some (Z.of_nat (k mod len))
  ∧ Gallery.cycleCount (advanced len k) = k / len
  ∧ (Gallery.closed (advanced len k) = 0 ↔ k < 2 * len)
  ∧ Gallery.closed (advanced len (2 * len)) = 1.
Proof.
  intros Hlen.
  destruct (advanced_state len k Hlen) as (Hi & Hc & Hclosed & _).
  destruct (advanced_state len (2 * len) Hlen) as (_ & _ & Hclosed2 & _).
  split; [done|]. split; [done|]. split.
  - rewrite Hclosed. split.
    + intros Hzero. pose proof (Nat.div_mod_eq k len) as Hk.
      pose proof (Nat.mod_upper_bound k len ltac:(lia)) as Hr. nia.
    + intros Hk. assert (k / len < 2) by (apply Nat.Div0.div_lt_upper_bound; lia).
      lia.
  - assert ((2 * len) / len = 2) as Htwo
      by (symmetry; apply (Nat.div_unique _ _ 2 0); lia).
    by rewrite Hclosed2, Htwo.
Qed.

Lemma gallery_closes_after_two_rounds_witness :
  Gallery.currentIndex (advanced 3 5) = Some (Z.of_nat (5 mod 3))
  ∧ Gallery.cycleCount (advanced 3 5) = 5 / 3
  ∧ (Gallery.closed (advanced 3 5) = 0 ↔ 5 < 2 * 3)
  ∧ Gallery.closed (advanced 3 (2 * 3)) = 1.
Proof. apply (gallery_closes_after_two_rounds 3 5). lia. Defined.

(** ** The exported file *)

Lemma prefix_char (c a : ascii) (s : string) :
  String.prefix (String c "") (String a s) = bool_decide (c = a).
Proof.
  cbn [String.prefix]. destruct (ascii_dec c a) as [->|Hne].
  - rewrite bool_decide_eq_true_2 by done. by destruct s.
  - by rewrite bool_decide_eq_false_2.
Qed.

Lemma includes_char_cons (c a : ascii) (s : string) :
  Js.includes (String a s) (String c "") = false →
  c ≠ a ∧ Js.includes s (String c "") = false.
Proof.
  cbn [Js.includes]. rewrite prefix_char. intros [Hc Hs]%orb_false_iff.
  split; [by apply bool_decide_eq_false in Hc | done].
Qed.

Lemma split_from_field c field s current :
  Js.includes field (String c "") = false →
  JsText.split_from (String c "") (field +:+ s) 0 current
  = JsText.split_from (String c "") s 0 (current +:+ field).
Proof.
  revert current. induction field as [|a field IH]; intros current Hfield.
  - by rewrite append_empty_r.
  - apply includes_char_cons in Hfield as [Hne Hfield].
    rewrite append_cons. cbn [JsText.split_from]. rewrite prefix_char.
    rewrite bool_decide_eq_false_2 by done. rewrite IH by done.
    by rewrite append_assoc.
Qed.

Lemma split_from_separator c s current :
  JsText.split_from (String c "") (String c s) 0 current
  = current :: JsText.split_from (String c "") s 0 "".
Proof.
  cbn [JsText.split_from]. rewrite prefix_char.
  by rewrite bool_decide_eq_true_2.
Qed.

(** Splitting what was joined gives the parts back, when no part holds
    the separator. *)
Lemma split_join c part parts :
  Forall (fun p => Js.includes p (String c "") = false) (part :: parts) →
  JsText.split (String c "") (Js.join (String c "") (part :: parts))
  = part :: parts.
Proof.
  assert (∀ current,
    Forall (fun p => Js.includes p (String c "") = false) (part :: parts) →
    JsText.split_from (String c "") (Js.join (String c "") (part :: parts)) 0 current
    = (current +:+ part) :: parts) as Hgen.
  { revert part. induction parts as [|next parts IH]; intros part current Hparts.
    - cbn [Js.join]. rewrite <- (append_empty_r part) at 1.
      rewrite split_from_field by by apply Forall_cons in Hparts as [? _].
      done.
    - apply Forall_cons in Hparts as [Hpart Hparts].
      change (Js.join (String c "") (part :: next :: parts))
        with (part +:+ String c "" +:+ Js.join (String c "") (next :: parts)).
      rewrite split_from_field by done. rewrite append_cons.
      change ("" +:+ ?s) with s.
      rewrite split_from_separator. by rewrite IH. }
  intros Hparts. unfold JsText.split. by rewrite Hgen.
Qed.

Lemma includes_char_append c a b :
  Js.includes (a +:+ b) (String c "")
  = Js.includes a (String c "") || Js.includes b (String c "").
Proof.
  induction a as [|x a IH].
  - change ("" +:+ b) with b. by destruct b.
  - rewrite append_cons. cbn [Js.includes]. rewrite !prefix_char, IH.
    by rewrite orb_assoc.
Qed.

Lemma includes_char_join c d parts :
  c ≠ d →
  Forall (fun p => Js.includes p (String c "") = false) parts →
  Js.includes (Js.join (String d "") parts) (String c "") = false.
Proof.
  intros Hne. induction parts as [|part parts IH]; intros Hparts; [done|].
  apply Forall_cons in Hparts as [Hpart Hparts].
  destruct parts as [|next parts]; [done|].
  change (Js.join (String d "") (part :: next :: parts))
    with (part +:+ String d "" +:+ Js.join (String d "") (next :: parts)).
  rewrite !includes_char_append, Hpart, IH by done.
  cbn [Js.includes]. rewrite prefix_char. by rewrite bool_decide_eq_false_2.
Qed.

(** X24. The exported file is the byte order mark followed by one line
    for the headers and one line for each lead, in order, and a line
    splits back into the five fields of its lead, provided that no field
    holds a comma or a line break: fields are written as they are, without
    quotes.  The download is named after the date part of the clock. *)
Theorem exported_file_reads_back date time leads :
  Forall plain leads →
  Js.includes date "T" = false →
  let exported := Dashboard.exportLeads (date +:+ "T" +:+ time) leads in
  exported.1 = JsText.utf8 [239; 187; 191] +:+ Dashboard.csvContent leads
  ∧ JsText.split Dashboard.newline (Dashboard.csvContent leads)
    = Js.join "," Dashboard.headers :: map Dashboard.row leads
  ∧ Forall (fun lead => JsText.split "," (Dashboard.row lead) = Dashboard.fields lead)
      leads
  ∧ exported.2 = "leads_" +:+ date +:+ ".csv".
Proof.
  intros Hplain Hdate. cbn zeta. split; [done|]. split; [|split].
  - unfold Dashboard.csvContent, Dashboard.newline. apply split_join.
    apply Forall_cons. split; [done|]. apply Forall_fmap.
    eapply Forall_impl; [exact Hplain|]. intros lead Hlead.
    unfold Dashboard.row.
    apply (includes_char_join (ascii_of_nat 10) ","%char); [done|].
    eapply Forall_impl; [exact Hlead|]. by intros field [_ ?].
  - eapply Forall_impl; [exact Hplain|]. intros lead Hlead.
    unfold Dashboard.row, Dashboard.fields in *. apply (split_join ","%char).
    eapply Forall_impl; [exact Hlead|]. by intros field [? _].
  - unfold Dashboard.exportLeads. cbn [snd]. unfold JsText.split.
    rewrite (split_from_field "T"%char) by done.
    change ("T" +:+ time) with (String "T" time).
    by rewrite split_from_separator.
Qed.

Lemma exported_file_reads_back_witness :
  let exported := Dashboard.exportLeads ("2023-11-14" +:+ "T" +:+ "10:00:00.000Z")
                    [lead0] in
  exported.1 = JsText.utf8 [239; 187; 191] +:+ Dashboard.csvContent [lead0]
  ∧ JsText.split Dashboard.newline (Dashboard.csvContent [lead0])
    = Js.join "," Dashboard.headers :: map Dashboard.row [lead0]
  ∧ Forall (fun lead => JsText.split "," (Dashboard.row lead) = Dashboard.fields lead)
      [lead0]
  ∧ exported.2 = "leads_" +:+ "2023-11-14" +:+ ".csv".
Proof.
  apply (exported_file_reads_back "2023-11-14" "10:00:00.000Z" [lead0]).
  - repeat constructor.
  - reflexivity.
Defined.
